(** * google.cloud.ndb._datastore_api: batching and completion coordination

    A shallow embedding of [_datastore_api.py]: the batch registry
    ([_get_batch]), the lookup batch, the two commit batches, the
    identifier-allocation sub-protocol and the [commit] tasklet, followed by
    the properties of the specification that are settled against it.

    Python objects that are shared and mutated (futures, batches, the
    [Mutation] messages of a transactional batch) live in stores indexed by
    allocation order; references are indices into those stores.  Functions
    of the module are computations in a state-and-exception monad in which
    the store survives a raised exception, as it does in Python. *)

From Stdlib Require Import ZArith String List Sorted.
From stdpp Require Import base option list strings countable gmap.

Local Open Scope string_scope.
Local Open Scope Z_scope.
Local Open Scope nat_scope.
Local Open Scope list_scope.

(** ** Python values that occur as option values *)

Inductive PyVal :=
  | PyNone
  | PyInt (z : Z)
  | PyBytes (b : string).

Global Instance PyVal_eq_dec : EqDecision PyVal.
Proof. solve_decision. Defined.

Definition PyVal_enc (v : PyVal) : unit + (Z + string) :=
  match v with
  | PyNone => inl tt
  | PyInt z => inr (inl z)
  | PyBytes b => inr (inr b)
  end.

Definition PyVal_dec (s : unit + (Z + string)) : PyVal :=
  match s with
  | inl _ => PyNone
  | inr (inl z) => PyInt z
  | inr (inr b) => PyBytes b
  end.

Global Instance PyVal_countable : Countable PyVal.
Proof.
  refine (inj_countable' PyVal_enc PyVal_dec _).
  intros []; reflexivity.
Defined.

(** Python truthiness, as used by [if transaction:]. *)
Definition truthy (v : PyVal) : bool :=
  match v with
  | PyNone => false
  | PyInt z => negb (Z.eqb z 0)
  | PyBytes b => negb (String.eqb b "")
  end.

Definition is_none (v : PyVal) : bool :=
  match v with PyNone => true | _ => false end.

(** [datastore_pb2.ReadOptions.EVENTUAL], the enum value 2 of the Datastore
    protocol; [x is EVENTUAL] on such a small integer is equality. *)
Definition EVENTUAL : PyVal := PyInt 2.
Definition EVENTUAL_CONSISTENCY : PyVal := EVENTUAL.

Definition is_EVENTUAL (v : PyVal) : bool := bool_decide (v = EVENTUAL).

(** ** Option dictionaries *)

(** A keyword dictionary: insertion ordered, keys unique. *)
Abbreviation Options := (list (string * PyVal)).

Fixpoint dict_get {V : Type} (k : string) (d : list (string * V)) : option V :=
  match d with
  | [] => None
  | (k', v) :: d' => if String.eqb k k' then Some v else dict_get k d'
  end.

(** [d.pop(k, None)] on a copy. *)
Fixpoint dict_pop {V : Type} (k : string) (d : list (string * V)) : list (string * V) :=
  match d with
  | [] => []
  | (k', v) :: d' => if String.eqb k k' then d' else (k', v) :: dict_pop k d'
  end.

(** [sorted(options.items())]: the keys of a dictionary are distinct, so the
    tuples are ordered by their first component alone. *)
Fixpoint insert_sorted (kv : string * PyVal) (l : list (string * PyVal))
  : list (string * PyVal) :=
  match l with
  | [] => [kv]
  | kv' :: l' =>
      if String.leb (fst kv) (fst kv') then kv :: l
      else kv' :: insert_sorted kv l'
  end.

Definition sorted_items (options : Options) : list (string * PyVal) :=
  foldr insert_sorted [] options.

Abbreviation OptionsKey := (list (string * PyVal)).

(** ** Protocol buffer messages *)

Record PathElement := mkElem { pe_kind : string; pe_id : Z; pe_name : string }.

Record Key_pb := mkKey { key_namespace : string; key_path : list PathElement }.

Record Entity := mkEntity { ent_key : Key_pb; ent_props : list (string * PyVal) }.

Definition empty_key : Key_pb := mkKey "" [].
Definition empty_entity : Entity := mkEntity empty_key [].

Inductive Mutation :=
  | Upsert (e : Entity)
  | Delete (k : Key_pb).

Global Instance PathElement_eq_dec : EqDecision PathElement.
Proof. solve_decision. Defined.
Global Instance Key_pb_eq_dec : EqDecision Key_pb.
Proof. solve_decision. Defined.
Global Instance Entity_eq_dec : EqDecision Entity.
Proof. solve_decision. Defined.
Global Instance Mutation_eq_dec : EqDecision Mutation.
Proof. solve_decision. Defined.

(** [mutation.upsert.key]: reading the unset member of the oneof yields the
    default message. *)
Definition upsert_key (m : Mutation) : Key_pb :=
  match m with
  | Upsert e => ent_key e
  | Delete _ => empty_key
  end.

(** [mutation.upsert.key.CopyFrom(key)]: writing through [upsert] selects
    that member of the oneof. *)
Definition copy_key_into (k : Key_pb) (m : Mutation) : Mutation :=
  match m with
  | Upsert e => Upsert (mkEntity k (ent_props e))
  | Delete _ => Upsert (mkEntity k [])
  end.

(** The canonical serialized form of a key.  The wire format is outside the
    module; serialization is kept as a tag around the message, which makes
    [ParseFromString] its inverse and compares keys by content. *)
Inductive KeyBytes := Serialized (k : Key_pb).

Global Instance KeyBytes_eq_dec : EqDecision KeyBytes.
Proof. solve_decision. Defined.

Definition SerializeToString (k : Key_pb) : KeyBytes := Serialized k.
Definition ParseFromString (s : KeyBytes) : Key_pb := let 'Serialized k := s in k.

(** [_complete]: the last path element carries an id or a name. *)
Definition _complete (key_pb : Key_pb) : bool :=
  match last (key_path key_pb) with
  | Some element =>
      negb (Z.eqb (pe_id element) 0) || negb (String.eqb (pe_name element) "")
  | None => false
  end.

(** ** Exceptions, futures, requests *)

Inductive NotImpl := NotYetImplemented | BadOption.

Inductive Exn :=
  | ValueError (msg : string)
  | NotImplementedError (why : NotImpl) (key : string)
  | KeyError
  | RuntimeError
  | RpcFailure (code : nat).

Global Instance NotImpl_eq_dec : EqDecision NotImpl.
Proof. solve_decision. Defined.
Global Instance Exn_eq_dec : EqDecision Exn.
Proof. solve_decision. Defined.

(** What a future of this module can be resolved with: [None], a key, an
    entity, or the [_NOT_FOUND] sentinel. *)
Inductive FutVal :=
  | RNone
  | RKey (k : Key_pb)
  | REntity (e : Entity)
  | NOT_FOUND.

Inductive FutState :=
  | Pending
  | Done (v : FutVal)
  | Failed (e : Exn).

Global Instance FutVal_eq_dec : EqDecision FutVal.
Proof. solve_decision. Defined.
Global Instance FutState_eq_dec : EqDecision FutState.
Proof. solve_decision. Defined.

Definition fut_done (s : FutState) : bool :=
  match s with Pending => false | _ => true end.

Record ReadOptions := mkReadOptions { ro_read_consistency : PyVal; ro_transaction : PyVal }.

Inductive CommitMode := NON_TRANSACTIONAL | TRANSACTIONAL.

Inductive RpcRequest :=
  | LookupRequest (keys : list Key_pb) (read_options : ReadOptions)
  | CommitRequest (mode : CommitMode) (mutations : list Mutation) (transaction : PyVal)
  | AllocateIdsRequest (keys : list Key_pb).

Record LookupResponse := mkLookupResponse {
  found : list Entity;
  missing : list Entity;
  deferred : list Key_pb }.

Inductive RpcResult :=
  | LookupResult (r : LookupResponse)
  | CommitResult (mutation_results : list Key_pb)
  | AllocateIdsResult (keys : list Key_pb).

(** A completed [_remote.RemoteCall]: [rpc.exception()] or [rpc.result()]. *)
Inductive RpcOutcome :=
  | RpcExc (e : Exn)
  | RpcOk (r : RpcResult).

(** ** Batches *)

Inductive BatchCls := LookupCls | NonTxCommitCls.

Global Instance BatchCls_eq_dec : EqDecision BatchCls.
Proof. solve_decision. Defined.

Global Instance BatchCls_countable : Countable BatchCls.
Proof.
  refine (inj_countable' (λ c, match c with LookupCls => false | NonTxCommitCls => true end)
                         (λ b : bool, if b then NonTxCommitCls else LookupCls) _).
  intros []; reflexivity.
Defined.

(** [_LookupBatch]: [todo] keeps dictionary insertion order, which is the
    order of the keys in the request. *)
Record LookupBatch := mkLookupBatch {
  lb_options : Options;
  lb_todo : list (KeyBytes * list nat) }.

(** [_NonTransactionalCommitBatch]. *)
Record NonTxBatch := mkNonTxBatch {
  nb_options : Options;
  nb_mutations : list Mutation;
  nb_futures : list nat }.

(** [_TransactionalCommitBatch]; the mutation lists hold references, since a
    mutation sits in [mutations] and in [incomplete_mutations] at once and
    is updated in place when its identifier arrives. *)
Record TxBatch := mkTxBatch {
  tb_options : Options;
  tb_mutations : list nat;
  tb_futures : list nat;
  tb_transaction : PyVal;
  tb_allocating_ids : list nat;
  tb_incomplete_mutations : list nat;
  tb_incomplete_futures : list nat }.

(** ** The scheduler's view *)

(** Callbacks handed to [_eventloop.add_idle]. *)
Inductive IdleCb :=
  | IdleFlush (cls : BatchCls) (options_key : OptionsKey)
  | IdleAllocate (batch : nat).

(** Callbacks handed to [_eventloop.queue_rpc]; the closures over
    [self.futures] name the batch, whose list they alias. *)
Inductive RpcCb :=
  | CbLookup (batch : nat)
  | CbNonTxCommit (batch : nat)
  | CbAllocate (batch : nat) (mutations futures : list nat) (allocating_ids : nat)
  | CbTxCommit (batch : nat) (future : nat).

(** A suspended [commit] generator: inside the loop over [allocating_ids] at
    index [i], or at its last [yield]. *)
Inductive Cont :=
  | KCommitLoop (batch : nat) (i : nat) (tasklet_future : nat)
  | KCommitFinal (tasklet_future : nat).

Global Instance IdleCb_eq_dec : EqDecision IdleCb.
Proof. solve_decision. Defined.
Global Instance RpcCb_eq_dec : EqDecision RpcCb.
Proof. solve_decision. Defined.
Global Instance Cont_eq_dec : EqDecision Cont.
Proof. solve_decision. Defined.

(** ** The world: object stores, the context, the event loop *)

Record World := mkWorld {
  futures : list FutState;
  mutation_objs : list Mutation;
  lookup_batches : list LookupBatch;
  nontx_batches : list NonTxBatch;
  tx_batches : list TxBatch;
  ctx_transaction : PyVal;
  ctx_batches : gmap BatchCls (gmap OptionsKey nat);
  ctx_commit_batches : gmap PyVal nat;
  idlers : list IdleCb;
  rpc_log : list RpcRequest;
  rpc_queue : list (nat * RpcCb);
  waiters : list (nat * Cont) }.

Definition empty_world (transaction : PyVal) : World :=
  mkWorld [] [] [] [] [] transaction ∅ ∅ [] [] [] [].

Definition upd_futures (f : list FutState → list FutState) (w : World) : World :=
  mkWorld (f (futures w)) (mutation_objs w) (lookup_batches w) (nontx_batches w)
    (tx_batches w) (ctx_transaction w) (ctx_batches w) (ctx_commit_batches w)
    (idlers w) (rpc_log w) (rpc_queue w) (waiters w).

Definition upd_mutation_objs (f : list Mutation → list Mutation) (w : World) : World :=
  mkWorld (futures w) (f (mutation_objs w)) (lookup_batches w) (nontx_batches w)
    (tx_batches w) (ctx_transaction w) (ctx_batches w) (ctx_commit_batches w)
    (idlers w) (rpc_log w) (rpc_queue w) (waiters w).

Definition upd_lookup_batches (f : list LookupBatch → list LookupBatch) (w : World) : World :=
  mkWorld (futures w) (mutation_objs w) (f (lookup_batches w)) (nontx_batches w)
    (tx_batches w) (ctx_transaction w) (ctx_batches w) (ctx_commit_batches w)
    (idlers w) (rpc_log w) (rpc_queue w) (waiters w).

Definition upd_nontx_batches (f : list NonTxBatch → list NonTxBatch) (w : World) : World :=
  mkWorld (futures w) (mutation_objs w) (lookup_batches w) (f (nontx_batches w))
    (tx_batches w) (ctx_transaction w) (ctx_batches w) (ctx_commit_batches w)
    (idlers w) (rpc_log w) (rpc_queue w) (waiters w).

Definition upd_tx_batches (f : list TxBatch → list TxBatch) (w : World) : World :=
  mkWorld (futures w) (mutation_objs w) (lookup_batches w) (nontx_batches w)
    (f (tx_batches w)) (ctx_transaction w) (ctx_batches w) (ctx_commit_batches w)
    (idlers w) (rpc_log w) (rpc_queue w) (waiters w).

Definition upd_ctx_batches
    (f : gmap BatchCls (gmap OptionsKey nat) → gmap BatchCls (gmap OptionsKey nat))
    (w : World) : World :=
  mkWorld (futures w) (mutation_objs w) (lookup_batches w) (nontx_batches w)
    (tx_batches w) (ctx_transaction w) (f (ctx_batches w)) (ctx_commit_batches w)
    (idlers w) (rpc_log w) (rpc_queue w) (waiters w).

Definition upd_ctx_commit_batches (f : gmap PyVal nat → gmap PyVal nat) (w : World) : World :=
  mkWorld (futures w) (mutation_objs w) (lookup_batches w) (nontx_batches w)
    (tx_batches w) (ctx_transaction w) (ctx_batches w) (f (ctx_commit_batches w))
    (idlers w) (rpc_log w) (rpc_queue w) (waiters w).

Definition upd_idlers (f : list IdleCb → list IdleCb) (w : World) : World :=
  mkWorld (futures w) (mutation_objs w) (lookup_batches w) (nontx_batches w)
    (tx_batches w) (ctx_transaction w) (ctx_batches w) (ctx_commit_batches w)
    (f (idlers w)) (rpc_log w) (rpc_queue w) (waiters w).

Definition upd_rpc_log (f : list RpcRequest → list RpcRequest) (w : World) : World :=
  mkWorld (futures w) (mutation_objs w) (lookup_batches w) (nontx_batches w)
    (tx_batches w) (ctx_transaction w) (ctx_batches w) (ctx_commit_batches w)
    (idlers w) (f (rpc_log w)) (rpc_queue w) (waiters w).

Definition upd_rpc_queue (f : list (nat * RpcCb) → list (nat * RpcCb)) (w : World) : World :=
  mkWorld (futures w) (mutation_objs w) (lookup_batches w) (nontx_batches w)
    (tx_batches w) (ctx_transaction w) (ctx_batches w) (ctx_commit_batches w)
    (idlers w) (rpc_log w) (f (rpc_queue w)) (waiters w).

Definition upd_waiters (f : list (nat * Cont) → list (nat * Cont)) (w : World) : World :=
  mkWorld (futures w) (mutation_objs w) (lookup_batches w) (nontx_batches w)
    (tx_batches w) (ctx_transaction w) (ctx_batches w) (ctx_commit_batches w)
    (idlers w) (rpc_log w) (rpc_queue w) (f (waiters w)).

(** ** The state-and-exception monad *)

Inductive Res (A : Type) :=
  | Ok (a : A)
  | Raise (e : Exn).
Arguments Ok {A} a.
Arguments Raise {A} e.

Definition M (A : Type) : Type := World → Res A * World.

Definition ret {A} (a : A) : M A := λ w, (Ok a, w).

Definition bind {A B} (c : M A) (k : A → M B) : M B :=
  λ w, match c w with
       | (Ok a, w') => k a w'
       | (Raise e, w') => (Raise e, w')
       end.

Definition raise {A} (e : Exn) : M A := λ w, (Raise e, w).
Definition gets {A} (f : World → A) : M A := λ w, (Ok (f w), w).
Definition modify (f : World → World) : M unit := λ w, (Ok tt, f w).
Definition lift {A} (r : Res A) : M A := λ w, (r, w).

Declare Scope py_scope.
Delimit Scope py_scope with py.
Notation "'do' x <- c ; k" := (bind c (λ x, k))
  (at level 10, x name, c at level 100, k at level 200) : py_scope.
Notation "'run' c ; k" := (bind c (λ _, k))
  (at level 10, c at level 100, k at level 200) : py_scope.
Local Open Scope py_scope.

(** [for x in l: body(x)] *)
Fixpoint for_ {A} (l : list A) (body : A → M unit) : M unit :=
  match l with
  | [] => ret tt
  | x :: l' => run body x; for_ l' body
  end.

(** ** Futures and the scheduler interface

    [tasklets.Future], [tasklets.tasklet] and [_eventloop] are collaborators
    of the module. *)

(** Modelled from the spec: [tasklets.Future(...)] is missing from the
    sources; a completion handle starts unresolved. *)
Definition new_future : M nat :=
  λ w, (Ok (length (futures w)), upd_futures (λ fs, fs ++ [Pending]) w).

(** The state of the future [f], if there is such a future. *)
Definition future_state (f : nat) (w : World) : option FutState := futures w !! f.

(** Modelled from the spec: [future.done()], missing from the sources. *)
Definition done (f : nat) (w : World) : bool :=
  match future_state f w with
  | Some s => fut_done s
  | None => false
  end.

(** Modelled from the spec: the single assignment of a completion handle,
    missing from the sources; a second assignment is rejected and leaves
    the settled outcome in place. *)
Definition settle (f : nat) (s : FutState) : M unit :=
  λ w, match future_state f w with
       | Some Pending => (Ok tt, upd_futures (λ fs, <[f := s]> fs) w)
       | _ => (Raise RuntimeError, w)
       end.

(** Modelled from the spec: [_eventloop.add_idle], missing from the sources,
    registers a callback that fires once the synchronous work of the pass
    has drained. *)
Definition add_idle (cb : IdleCb) : M unit :=
  modify (upd_idlers (λ l, l ++ [cb])).

(** Modelled from the spec: [_eventloop.queue_rpc], missing from the
    sources, registers the completion callback of an outbound call. *)
Definition queue_rpc (rpc : nat) (cb : RpcCb) : M unit :=
  modify (upd_rpc_queue (λ l, l ++ [(rpc, cb)])).

(** Modelled from the spec: [_remote.RemoteCall(api.X.future(request), ...)],
    missing from the sources; the outbound call is made and the result is
    the handle of the call. *)
Definition remote_call (request : RpcRequest) : M nat :=
  λ w, (Ok (length (rpc_log w)), upd_rpc_log (λ l, l ++ [request]) w).

(** Modelled from the spec: a tasklet that yields an unresolved future is
    suspended on it, missing from the sources ([tasklets.tasklet]). *)
Definition await (f : nat) (k : Cont) : M unit :=
  modify (upd_waiters (λ l, l ++ [(f, k)])).

(** ** Option handling *)

Definition _OPTIONS_SUPPORTED : list string :=
  ["transaction"; "read_consistency"; "read_policy"]%string.

Definition _OPTIONS_NOT_IMPLEMENTED : list string :=
  ["deadline"; "force_writes"; "use_cache"; "use_memcache"; "use_datastore";
   "memcache_timeout"; "max_memcache_items"; "xg"; "propagation"; "retries"]%string.

Definition str_in (k : string) (l : list string) : bool := existsb (String.eqb k) l.

Fixpoint _check_unsupported_options (options : Options) : Res unit :=
  match options with
  | [] => Ok tt
  | (key, _) :: rest =>
      if str_in key _OPTIONS_NOT_IMPLEMENTED then
        Raise (NotImplementedError NotYetImplemented key)
      else if negb (str_in key _OPTIONS_SUPPORTED) then
        Raise (NotImplementedError BadOption key)
      else _check_unsupported_options rest
  end.

(** [options.get("transaction", context.transaction)] *)
Definition _get_transaction (options : Options) (w : World) : PyVal :=
  match dict_get "transaction" options with
  | Some v => v
  | None => ctx_transaction w
  end.

(** [options.get(k)] *)
Definition options_get (k : string) (options : Options) : PyVal :=
  default PyNone (dict_get k options).

Definition _get_read_options (options : Options) : M ReadOptions :=
  do transaction <- gets (_get_transaction options);
  let read_consistency := options_get "read_consistency" options in
  let read_consistency :=
    if is_none read_consistency then options_get "read_policy" options
    else read_consistency in
  if negb (is_none transaction) && is_EVENTUAL read_consistency then
    raise (ValueError "read_consistency must be EVENTUAL when in transaction")
  else
    ret (mkReadOptions read_consistency transaction).

(** ** Outbound calls *)

Definition _datastore_lookup (keys : list Key_pb) (read_options : ReadOptions) : M nat :=
  remote_call (LookupRequest keys read_options).

Definition _datastore_commit (mutations : list Mutation) (transaction : PyVal) : M nat :=
  let mode := if is_none transaction then NON_TRANSACTIONAL else TRANSACTIONAL in
  remote_call (CommitRequest mode mutations transaction).

Definition _datastore_allocate_ids (keys : list Key_pb) : M nat :=
  remote_call (AllocateIdsRequest keys).

(** ** The lookup batch *)

Definition get_lookup_batch (b : nat) : M LookupBatch :=
  λ w, match lookup_batches w !! b with
       | Some x => (Ok x, w)
       | None => (Raise RuntimeError, w)
       end.

Definition set_todo (b : nat) (todo : list (KeyBytes * list nat)) : M unit :=
  modify (upd_lookup_batches
            (λ l, alter (λ x, mkLookupBatch (lb_options x) todo) b l)).

Fixpoint todo_get (k : KeyBytes) (todo : list (KeyBytes * list nat)) : option (list nat) :=
  match todo with
  | [] => None
  | (k', fs) :: rest => if decide (k = k') then Some fs else todo_get k rest
  end.

(** [todo.setdefault(k, []).extend(fs)] *)
Fixpoint todo_extend (k : KeyBytes) (fs : list nat) (todo : list (KeyBytes * list nat))
  : list (KeyBytes * list nat) :=
  match todo with
  | [] => [(k, fs)]
  | (k', fs') :: rest =>
      if decide (k = k') then (k', fs' ++ fs) :: rest
      else (k', fs') :: todo_extend k fs rest
  end.

(** [_LookupBatch.add] *)
Definition LookupBatch_add (b : nat) (key : Key_pb) : M nat :=
  let todo_key := SerializeToString key in
  do future <- new_future;
  do batch <- get_lookup_batch b;
  run set_todo b (todo_extend todo_key [future] (lb_todo batch));
  ret future.

(** [_LookupBatch.idle_callback] *)
Definition LookupBatch_idle_callback (b : nat) : M unit :=
  do batch <- get_lookup_batch b;
  let keys := map (λ kv, ParseFromString (fst kv)) (lb_todo batch) in
  do read_options <- _get_read_options (lb_options batch);
  do rpc <- _datastore_lookup keys read_options;
  queue_rpc rpc (CbLookup b).

(** ** The non-transactional commit batch *)

Definition get_nontx_batch (b : nat) : M NonTxBatch :=
  λ w, match nontx_batches w !! b with
       | Some x => (Ok x, w)
       | None => (Raise RuntimeError, w)
       end.

(** [_NonTransactionalCommitBatch.put] *)
Definition NonTxBatch_put (b : nat) (entity_pb : Entity) : M nat :=
  do future <- new_future;
  let mutation := Upsert entity_pb in
  run modify (upd_nontx_batches (alter (λ x,
        mkNonTxBatch (nb_options x) (nb_mutations x ++ [mutation]) (nb_futures x)) b));
  run modify (upd_nontx_batches (alter (λ x,
        mkNonTxBatch (nb_options x) (nb_mutations x) (nb_futures x ++ [future])) b));
  ret future.

(** [_NonTransactionalCommitBatch.delete] *)
Definition NonTxBatch_delete (b : nat) (key : Key_pb) : M nat :=
  do future <- new_future;
  let mutation := Delete key in
  run modify (upd_nontx_batches (alter (λ x,
        mkNonTxBatch (nb_options x) (nb_mutations x ++ [mutation]) (nb_futures x)) b));
  run modify (upd_nontx_batches (alter (λ x,
        mkNonTxBatch (nb_options x) (nb_mutations x) (nb_futures x ++ [future])) b));
  ret future.

(** [_NonTransactionalCommitBatch.idle_callback] *)
Definition NonTxBatch_idle_callback (b : nat) : M unit :=
  do batch <- get_nontx_batch b;
  do rpc <- _datastore_commit (nb_mutations batch) PyNone;
  queue_rpc rpc (CbNonTxCommit b).

(** ** The batch registry *)

Definition registry (cls : BatchCls) (w : World) : gmap OptionsKey nat :=
  default ∅ (ctx_batches w !! cls).

(** [batch_cls(options)] *)
Definition new_batch (cls : BatchCls) (options : Options) : M nat :=
  match cls with
  | LookupCls =>
      λ w, (Ok (length (lookup_batches w)),
            upd_lookup_batches (λ l, l ++ [mkLookupBatch options []]) w)
  | NonTxCommitCls =>
      run lift (_check_unsupported_options options);
      λ w, (Ok (length (nontx_batches w)),
            upd_nontx_batches (λ l, l ++ [mkNonTxBatch options [] []]) w)
  end.

Definition _get_batch (batch_cls : BatchCls) (options : Options) : M nat :=
  do batches <- gets (λ w, ctx_batches w !! batch_cls);
  run (if batches is None
       then modify (upd_ctx_batches (λ m, <[batch_cls := ∅]> m))
       else ret tt);
  let options_key := sorted_items options in
  do batch <- gets (λ w, registry batch_cls w !! options_key);
  match batch with
  | Some b => ret b
  | None =>
      do b <- new_batch batch_cls options;
      run modify (upd_ctx_batches (λ m, <[batch_cls := <[options_key := b]> (default ∅ (m !! batch_cls))]> m));
      run add_idle (IdleFlush batch_cls options_key);
      ret b
  end.

(** The closure [idle] of [_get_batch]. *)
Definition idle (batch_cls : BatchCls) (options_key : OptionsKey) : M unit :=
  do batch <- gets (λ w, registry batch_cls w !! options_key);
  match batch with
  | None => raise KeyError
  | Some b =>
      run modify (upd_ctx_batches (λ m,
            <[batch_cls := delete options_key (default ∅ (m !! batch_cls))]> m));
      match batch_cls with
      | LookupCls => LookupBatch_idle_callback b
      | NonTxCommitCls => NonTxBatch_idle_callback b
      end
  end.


(** ** The transactional commit batch and the [commit] tasklet *)

Definition get_tx_batch (b : nat) : M TxBatch :=
  λ w, match tx_batches w !! b with
       | Some x => (Ok x, w)
       | None => (Raise RuntimeError, w)
       end.

Definition upd_tx_batch (b : nat) (f : TxBatch → TxBatch) : M unit :=
  modify (upd_tx_batches (alter f b)).

Definition clear_incomplete (x : TxBatch) : TxBatch :=
  mkTxBatch (tb_options x) (tb_mutations x) (tb_futures x) (tb_transaction x)
    (tb_allocating_ids x) [] [].

Definition deref_mutations (ids : list nat) (w : World) : list Mutation :=
  omap (λ i, mutation_objs w !! i) ids.

(** The first future of [l] that is not done, with its position counted
    from [i]. *)
Fixpoint first_unresolved (l : list nat) (i : nat) (w : World) : option (nat * nat) :=
  match l with
  | [] => None
  | f :: l' => if done f w then first_unresolved l' (S i) w else Some (i, f)
  end.

(** The tail of [commit] after the loop over [allocating_ids]. *)
Definition commit_finish (b : nat) (tasklet_future : nat) : M unit :=
  run upd_tx_batch b clear_incomplete;
  do future <- new_future;
  do batch <- get_tx_batch b;
  do mutations <- gets (deref_mutations (tb_mutations batch));
  do rpc <- _datastore_commit mutations (tb_transaction batch);
  run queue_rpc rpc (CbTxCommit b future);
  await future (KCommitFinal tasklet_future).

(** The loop [for future in self.allocating_ids: if not future.done(): yield
    future], entered or re-entered at index [i] of the live list. *)
Definition commit_loop (b : nat) (i : nat) (tasklet_future : nat) : M unit :=
  do batch <- get_tx_batch b;
  do unresolved <- gets (first_unresolved (drop i (tb_allocating_ids batch)) i);
  match unresolved with
  | Some (j, future) => await future (KCommitLoop b j tasklet_future)
  | None => commit_finish b tasklet_future
  end.

(** [_TransactionalCommitBatch.commit]; the tasklet wrapper creates the
    future of the call and runs the generator to its first [yield]. *)
Definition TxBatch_commit (b : nat) : M nat :=
  do tasklet_future <- new_future;
  do batch <- get_tx_batch b;
  run (if tb_mutations batch is []
       then settle tasklet_future (Done RNone)
       else commit_loop b 0 tasklet_future);
  ret tasklet_future.

(** Modelled from the spec: resuming a suspended tasklet when the future it
    awaits is resolved, missing from the sources ([tasklets.tasklet]); an
    exception is thrown into the generator, which does not catch it. *)
Definition resume (outcome : FutState) (k : Cont) : M unit :=
  match k, outcome with
  | KCommitLoop b i tf, Failed e => settle tf (Failed e)
  | KCommitLoop b i tf, _ => commit_loop b (S i) tf
  | KCommitFinal tf, Failed e => settle tf (Failed e)
  | KCommitFinal tf, _ => settle tf (Done RNone)
  end.

Definition waits_on (f : nat) (fk : nat * Cont) : bool := Nat.eqb (fst fk) f.

(** Modelled from the spec: resolving a handle wakes the tasklets suspended
    on it. *)
Definition resolve (f : nat) (s : FutState) : M unit :=
  run settle f s;
  do woken <- gets (λ w, filter (λ fk, waits_on f fk = true) (waiters w));
  run modify (upd_waiters (filter (λ fk, waits_on f fk = false)));
  for_ woken (λ fk, resume s (snd fk)).

(** Modelled from the spec: [future.set_result(v)], missing from the
    sources. *)
Definition set_result (f : nat) (v : FutVal) : M unit := resolve f (Done v).

(** Modelled from the spec: [future.set_exception(e)], missing from the
    sources. *)
Definition set_exception (f : nat) (e : Exn) : M unit := resolve f (Failed e).

(** [_get_commit_batch] *)
Definition _get_commit_batch (transaction : PyVal) (options : Options) : M nat :=
  let options := dict_pop "transaction" options in
  match options with
  | (key, _) :: _ => raise (NotImplementedError BadOption key)
  | [] =>
      do batch <- gets (λ w, ctx_commit_batches w !! transaction);
      match batch with
      | Some b => ret b
      | None =>
          let options := [("transaction"%string, transaction)] in
          run lift (_check_unsupported_options options);
          do txn <- gets (_get_transaction options);
          do b <- (λ w, (Ok (length (tx_batches w)),
                         upd_tx_batches (λ l, l ++ [mkTxBatch options [] [] txn [] [] []]) w));
          run modify (upd_ctx_commit_batches (λ m, <[transaction := b]> m));
          ret b
      end
  end.

Definition new_mutation (m : Mutation) : M nat :=
  λ w, (Ok (length (mutation_objs w)), upd_mutation_objs (λ l, l ++ [m]) w).

Definition append_future (future : nat) (x : TxBatch) : TxBatch :=
  mkTxBatch (tb_options x) (tb_mutations x) (tb_futures x ++ [future]) (tb_transaction x)
    (tb_allocating_ids x) (tb_incomplete_mutations x) (tb_incomplete_futures x).

Definition append_mutation (mutation : nat) (x : TxBatch) : TxBatch :=
  mkTxBatch (tb_options x) (tb_mutations x ++ [mutation]) (tb_futures x) (tb_transaction x)
    (tb_allocating_ids x) (tb_incomplete_mutations x) (tb_incomplete_futures x).

Definition append_incomplete_mutation (mutation : nat) (x : TxBatch) : TxBatch :=
  mkTxBatch (tb_options x) (tb_mutations x) (tb_futures x) (tb_transaction x)
    (tb_allocating_ids x) (tb_incomplete_mutations x ++ [mutation]) (tb_incomplete_futures x).

Definition append_incomplete_future (future : nat) (x : TxBatch) : TxBatch :=
  mkTxBatch (tb_options x) (tb_mutations x) (tb_futures x) (tb_transaction x)
    (tb_allocating_ids x) (tb_incomplete_mutations x) (tb_incomplete_futures x ++ [future]).

Definition append_allocating_ids (future : nat) (x : TxBatch) : TxBatch :=
  mkTxBatch (tb_options x) (tb_mutations x) (tb_futures x) (tb_transaction x)
    (tb_allocating_ids x ++ [future]) (tb_incomplete_mutations x) (tb_incomplete_futures x).

(** [_TransactionalCommitBatch.put] *)
Definition TxBatch_put (b : nat) (entity_pb : Entity) : M nat :=
  do future <- new_future;
  run upd_tx_batch b (append_future future);
  do mutation <- new_mutation (Upsert entity_pb);
  run upd_tx_batch b (append_mutation mutation);
  run (if negb (_complete (ent_key entity_pb)) then
         do batch <- get_tx_batch b;
         run (if tb_incomplete_mutations batch is []
              then add_idle (IdleAllocate b)
              else ret tt);
         run upd_tx_batch b (append_incomplete_mutation mutation);
         upd_tx_batch b (append_incomplete_future future)
       else set_result future RNone);
  ret future.

(** [_TransactionalCommitBatch.delete], inherited from the base class. *)
Definition TxBatch_delete (b : nat) (key : Key_pb) : M nat :=
  do future <- new_future;
  do mutation <- new_mutation (Delete key);
  run upd_tx_batch b (append_mutation mutation);
  run upd_tx_batch b (append_future future);
  ret future.

(** [_TransactionalCommitBatch.idle_callback] *)
Definition TxBatch_idle_callback (b : nat) : M unit :=
  do batch <- get_tx_batch b;
  if tb_incomplete_mutations batch is [] then ret tt
  else
    do allocating_ids <- new_future;
    run upd_tx_batch b (append_allocating_ids allocating_ids);
    let mutations := tb_incomplete_mutations batch in
    let futures := tb_incomplete_futures batch in
    do ms <- gets (deref_mutations mutations);
    let keys := map upsert_key ms in
    do rpc <- _datastore_allocate_ids keys;
    run queue_rpc rpc (CbAllocate b mutations futures allocating_ids);
    upd_tx_batch b clear_incomplete.

Fixpoint zip3 {A B C} (la : list A) (lb : list B) (lc : list C) : list (A * B * C) :=
  match la, lb, lc with
  | a :: la', b :: lb', c :: lc' => (a, b, c) :: zip3 la' lb' lc'
  | _, _, _ => []
  end.

(** [_TransactionalCommitBatch.allocate_ids_callback] *)
Definition allocate_ids_callback (rpc : RpcOutcome) (mutations futures : list nat) : M unit :=
  match rpc with
  | RpcExc exception => for_ futures (λ future, set_exception future exception)
  | RpcOk (AllocateIdsResult keys) =>
      for_ (zip3 mutations keys futures) (λ '(mutation, key, future),
        run modify (upd_mutation_objs (alter (copy_key_into key) mutation));
        set_result future (RKey key))
  | RpcOk _ => raise RuntimeError
  end.

(** The closure [callback] of [idle_callback]. *)
Definition allocate_callback (rpc : RpcOutcome) (mutations futures : list nat)
    (allocating_ids : nat) : M unit :=
  run allocate_ids_callback rpc mutations futures;
  set_result allocating_ids RNone.

(** [_process_commit] *)
Definition _process_commit (rpc : RpcOutcome) (futures : list nat) : M unit :=
  match rpc with
  | RpcExc exception =>
      for_ futures (λ future,
        do d <- gets (done future);
        if d then ret tt else set_exception future exception)
  | RpcOk (CommitResult mutation_results) =>
      for_ (zip mutation_results futures) (λ '(mutation_result, future),
        do d <- gets (done future);
        if d then ret tt
        else
          let key := if key_path mutation_result is [] then RNone
                     else RKey mutation_result in
          set_result future key)
  | RpcOk _ => raise RuntimeError
  end.

(** The closure [commit_callback] of [_NonTransactionalCommitBatch.idle_callback]. *)
Definition nontx_commit_callback (b : nat) (rpc : RpcOutcome) : M unit :=
  do batch <- get_nontx_batch b;
  _process_commit rpc (nb_futures batch).

(** The closure [commit_callback] of [_TransactionalCommitBatch.commit]. *)
Definition tx_commit_callback (b : nat) (future : nat) (rpc : RpcOutcome) : M unit :=
  do batch <- get_tx_batch b;
  run _process_commit rpc (tb_futures batch);
  match rpc with
  | RpcExc exception => set_exception future exception
  | RpcOk _ => set_result future RNone
  end.

(** The block [if results.deferred: ...] of [lookup_callback]: the deferred
    keys go, with the futures of their slots, into the batch that
    [_get_batch] hands out for the options of [self]. *)
Definition resubmit_deferred (b : nat) (options : Options) (deferred : list Key_pb) : M unit :=
  if deferred is [] then ret tt
  else
    do next_batch <- _get_batch LookupCls options;
    for_ deferred (λ key,
      let todo_key := SerializeToString key in
      do next <- get_lookup_batch next_batch;
      run set_todo next_batch (todo_extend todo_key [] (lb_todo next));
      do self <- get_lookup_batch b;
      match todo_get todo_key (lb_todo self) with
      | None => raise KeyError
      | Some fs =>
          do next <- get_lookup_batch next_batch;
          set_todo next_batch (todo_extend todo_key fs (lb_todo next))
      end).

(** The loops [for result in results.missing] and [for result in
    results.found] of [lookup_callback], which differ in the value [val]
    that the futures of a slot receive. *)
Definition resolve_partition (b : nat) (results : list Entity) (val : Entity → FutVal)
  : M unit :=
  for_ results (λ result,
    let todo_key := SerializeToString (ent_key result) in
    do self <- get_lookup_batch b;
    match todo_get todo_key (lb_todo self) with
    | None => raise KeyError
    | Some fs => for_ fs (λ future, set_result future (val result))
    end).

(** [_LookupBatch.lookup_callback] *)
Definition lookup_callback (b : nat) (rpc : RpcOutcome) : M unit :=
  match rpc with
  | RpcExc exception =>
      do self <- get_lookup_batch b;
      for_ (concat (map snd (lb_todo self))) (λ future, set_exception future exception)
  | RpcOk (LookupResult results) =>
      do self <- get_lookup_batch b;
      run resubmit_deferred b (lb_options self) (deferred results);
      run resolve_partition b (missing results) (λ _, NOT_FOUND);
      resolve_partition b (found results) REntity
  | RpcOk _ => raise RuntimeError
  end.

(** ** Module-level operations

    The entry points of the module, under their own names. *)

Module ndb.

(** [lookup] *)
Definition lookup (key : Key_pb) (options : Options) : M nat :=
  run lift (_check_unsupported_options options);
  do batch <- _get_batch LookupCls options;
  LookupBatch_add batch key.

(** [put] *)
Definition put (entity_pb : Entity) (options : Options) : M nat :=
  do transaction <- gets (_get_transaction options);
  if truthy transaction then
    do batch <- _get_commit_batch transaction options;
    TxBatch_put batch entity_pb
  else
    do batch <- _get_batch NonTxCommitCls options;
    NonTxBatch_put batch entity_pb.

(** [delete] *)
Definition delete (key : Key_pb) (options : Options) : M nat :=
  do transaction <- gets (_get_transaction options);
  if truthy transaction then
    do batch <- _get_commit_batch transaction options;
    TxBatch_delete batch key
  else
    do batch <- _get_batch NonTxCommitCls options;
    NonTxBatch_delete batch key.

(** [commit] *)
Definition commit (transaction : PyVal) : M nat :=
  do batch <- _get_commit_batch transaction [];
  TxBatch_commit batch.

End ndb.

(** ** The event loop *)

(** Modelled from the spec: the scheduler ([_eventloop]) is missing from the
    sources; this is what it runs when a deferred callback fires. *)
Definition run_idle_cb (cb : IdleCb) : M unit :=
  match cb with
  | IdleFlush cls options_key => idle cls options_key
  | IdleAllocate b => TxBatch_idle_callback b
  end.

(** Modelled from the spec: the synchronous work of the pass has drained
    and the oldest deferred callback fires ([_eventloop], missing from the
    sources). *)
Definition fire_idle : M unit :=
  do l <- gets idlers;
  match l with
  | [] => ret tt
  | cb :: rest => run modify (upd_idlers (λ _, rest)); run_idle_cb cb
  end.

(** Modelled from the spec: what the scheduler runs when an outbound call
    completes ([_eventloop], missing from the sources). *)
Definition run_rpc_cb (cb : RpcCb) (rpc : RpcOutcome) : M unit :=
  match cb with
  | CbLookup b => lookup_callback b rpc
  | CbNonTxCommit b => nontx_commit_callback b rpc
  | CbAllocate b mutations futures allocating_ids =>
      allocate_callback rpc mutations futures allocating_ids
  | CbTxCommit b future => tx_commit_callback b future rpc
  end.

(** Modelled from the spec: the outbound call [rpc] completes with
    [outcome] and its callback leaves the queue ([_eventloop], missing from
    the sources). *)
Definition complete_rpc (rpc : nat) (outcome : RpcOutcome) : M unit :=
  do q <- gets rpc_queue;
  match list_find (λ e, fst e = rpc) q with
  | None => ret tt
  | Some (i, (_, cb)) =>
      run modify (upd_rpc_queue (λ q, take i q ++ drop (S i) q));
      run_rpc_cb cb outcome
  end.

(** Running a computation for its final world and for its result. *)
Definition exec {A} (c : M A) (w : World) : World := snd (c w).
Definition eval {A} (c : M A) (w : World) : Res A := fst (c w).

(** ** Well-formedness and vocabulary of the statements *)

(** The future [f] is unresolved. *)
Definition pending (f : nat) (w : World) : Prop := future_state f w = Some Pending.

(** No tasklet is suspended on the future [f]. *)
Definition unawaited (f : nat) (w : World) : Prop :=
  Forall (λ fk : nat * Cont, fst fk ≠ f) (waiters w).

(** Suspended tasklets wait on futures that exist. *)
Definition waiters_wf (w : World) : Prop :=
  Forall (λ fk : nat * Cont, fst fk < length (futures w)) (waiters w).

(** Size of the store that holds the batches of a class. *)
Definition store_size (cls : BatchCls) (w : World) : nat :=
  match cls with
  | LookupCls => length (lookup_batches w)
  | NonTxCommitCls => length (nontx_batches w)
  end.

(** Open batches are objects of the store, and no batch is open under two
    option keys. *)
Definition registry_wf (cls : BatchCls) (w : World) : Prop :=
  (∀ k b, registry cls w !! k = Some b → b < store_size cls w) ∧
  (∀ k k' b, registry cls w !! k = Some b → registry cls w !! k' = Some b → k = k').

(** The batch [b] is an object of the store that no option key leads to. *)
Definition sealed (cls : BatchCls) (b : nat) (w : World) : Prop :=
  b < store_size cls w ∧ ∀ k, registry cls w !! k ≠ Some b.

(** Transactions lead to batches that exist. *)
Definition commit_batches_wf (w : World) : Prop :=
  ∀ t b, ctx_commit_batches w !! t = Some b → b < length (tx_batches w).

(** [futures[f] := s] for every pair of [asg], in order. *)
Definition apply_asg (asg : list (nat * FutState)) (l : list FutState) : list FutState :=
  foldl (λ acc fs, <[fst fs := snd fs]> acc) l asg.

(** The futures registered in a lookup batch for a key. *)
Definition slot (batch : LookupBatch) (k : Key_pb) : list nat :=
  default [] (todo_get (SerializeToString k) (lb_todo batch)).

(** The assignments a lookup response makes for one partition. *)
Definition slot_asg (batch : LookupBatch) (val : Entity → FutVal) (results : list Entity)
  : list (nat * FutState) :=
  flat_map (λ e, map (λ f, (f, Done (val e))) (slot batch (ent_key e))) results.

(** The value [_process_commit] hands to a future. *)
Definition key_or_none (k : Key_pb) : FutVal :=
  if key_path k is [] then RNone else RKey k.

(** The loop body of [_process_commit]: a future that is done is skipped. *)
Definition guarded_resolve (p : nat * FutState) : M unit :=
  do d <- gets (done (fst p));
  if d then ret tt else resolve (fst p) (snd p).

(** ** Sample data of the worked examples *)

Definition sample_key (id : Z) : Key_pb := mkKey "" [mkElem "Kind" id ""].
Definition sample_entity (id : Z) : Entity := mkEntity (sample_key id) [].
Definition sample_txn : PyVal := PyBytes "T".

(** A world with three futures, the second already resolved. *)
Definition three_futures : World :=
  upd_futures (λ _, [Pending; Done RNone; Pending]) (empty_world PyNone).

(** [mutation.upsert.key.CopyFrom(key)] for every pair of [mks], in order. *)
Definition apply_keys (mks : list (nat * Key_pb)) (l : list Mutation) : list Mutation :=
  foldl (λ acc mk, alter (copy_key_into (snd mk)) (fst mk) acc) l mks.

(** The first part of [_TransactionalCommitBatch.put]: the future and the
    mutation are created and appended. *)
Definition put_appended (b : nat) (entity_pb : Entity) (w : World) : World :=
  upd_tx_batches (alter (append_mutation (length (mutation_objs w))) b)
    (upd_mutation_objs (λ l, l ++ [Upsert entity_pb])
       (upd_tx_batches (alter (append_future (length (futures w))) b)
          (upd_futures (λ fs, fs ++ [Pending]) w))).

(** The request that [commit] sends for a batch. *)
Definition commit_request (batch : TxBatch) (w : World) : RpcRequest :=
  CommitRequest (if is_none (tb_transaction batch) then NON_TRANSACTIONAL else TRANSACTIONAL)
    (deref_mutations (tb_mutations batch) w) (tb_transaction batch).

(** The world after [commit] has sent its request. *)
Definition commit_sent (b : nat) (batch : TxBatch) (tasklet_future : nat) (w : World) : World :=
  upd_waiters (λ l, l ++ [(length (futures w), KCommitFinal tasklet_future)])
    (upd_rpc_queue (λ q, q ++ [(length (rpc_log w), CbTxCommit b (length (futures w)))])
       (upd_rpc_log (λ l, l ++ [commit_request batch w])
          (upd_futures (λ fs, fs ++ [Pending])
             (upd_tx_batches (alter clear_incomplete b) w)))).

(** The consistency [_get_read_options] settles on: the option
    ["read_consistency"], else the legacy ["read_policy"]. *)
Definition read_consistency_of (options : Options) : PyVal :=
  if is_none (options_get "read_consistency" options)
  then options_get "read_policy" options
  else options_get "read_consistency" options.

(** The combination that [_get_read_options] rejects. *)
Definition read_options_conflict (options : Options) (w : World) : bool :=
  negb (is_none (_get_transaction options w)) && is_EVENTUAL (read_consistency_of options).

(** An open lookup batch is registered under the key of its own options. *)
Definition lookup_keys_wf (w : World) : Prop :=
  ∀ k b batch, registry LookupCls w !! k = Some b → lookup_batches w !! b = Some batch →
    sorted_items (lb_options batch) = k.

(** The futures of a lookup batch are distinct, unresolved and unawaited,
    and each key has one slot. *)
Definition batch_futures_wf (batch : LookupBatch) (w : World) : Prop :=
  NoDup (map fst (lb_todo batch)) ∧
  NoDup (concat (map snd (lb_todo batch))) ∧
  Forall (λ f, pending f w ∧ unawaited f w) (concat (map snd (lb_todo batch))).

(** A lookup response answers keys of the batch, and gives no key two
    answers. *)
Definition response_wf (batch : LookupBatch) (r : LookupResponse) : Prop :=
  NoDup (map ent_key (missing r ++ found r)) ∧
  (∀ e, e ∈ missing r ++ found r →
     is_Some (todo_get (SerializeToString (ent_key e)) (lb_todo batch))) ∧
  (∀ k, k ∈ deferred r → is_Some (todo_get (SerializeToString k) (lb_todo batch))).

(** The slots of the next batch after the deferred keys of [self] have been
    added to it. *)
Definition resubmitted (self : LookupBatch) (deferred : list Key_pb)
    (todo : list (KeyBytes * list nat)) : list (KeyBytes * list nat) :=
  foldl (λ t k, todo_extend (SerializeToString k) (slot self k)
                  (todo_extend (SerializeToString k) [] t)) todo deferred.

(** Consecutive [lookup] calls with the same options. *)
Fixpoint lookup_all (keys : list Key_pb) (options : Options) : M (list nat) :=
  match keys with
  | [] => ret []
  | key :: keys' =>
      do f <- ndb.lookup key options;
      do fs <- lookup_all keys' options;
      ret (f :: fs)
  end.

(** The world after [_get_batch] has opened a lookup batch for [options]. *)
Definition batch_opened (options : Options) (w : World) : World :=
  upd_idlers (λ l, l ++ [IdleFlush LookupCls (sorted_items options)])
    (upd_ctx_batches (λ m, <[LookupCls :=
         <[sorted_items options := length (lookup_batches w)]> (registry LookupCls w)]> m)
       (upd_lookup_batches (λ l, l ++ [mkLookupBatch options []]) w)).

(** The world after [_LookupBatch.add] has put a key into batch [b], whose
    options and slots were [options] and [todo]. *)
Definition key_added (b : nat) (options : Options) (todo : list (KeyBytes * list nat))
    (key : Key_pb) (w : World) : World :=
  upd_lookup_batches (λ l, <[b := mkLookupBatch options
        (todo_extend (SerializeToString key) [length (futures w)] todo)]> l)
    (upd_futures (λ fs, fs ++ [Pending]) w).

(** The message of the [ValueError] of [_get_read_options]. *)
Definition eventual_in_transaction_msg : string :=
  "read_consistency must be EVENTUAL when in transaction".

(** The slots of a batch after the deferred keys of [self] were added. *)
Definition resubmit_into (self : LookupBatch) (deferred : list Key_pb) (x : LookupBatch)
  : LookupBatch :=
  mkLookupBatch (lb_options x) (resubmitted self deferred (lb_todo x)).

(** The batch that takes the deferred keys of [self]: the open batch of its
    option key, or else a new one. *)
Definition next_batch_of (self : LookupBatch) (w : World) : nat :=
  default (length (lookup_batches w))
    (registry LookupCls w !! sorted_items (lb_options self)).

(** The world after [lookup_callback] has dealt with the deferred keys. *)
Definition deferred_resubmitted (self : LookupBatch) (deferred : list Key_pb) (w : World)
  : World :=
  if deferred is [] then w
  else
    upd_lookup_batches (alter (resubmit_into self deferred) (next_batch_of self w))
      (if registry LookupCls w !! sorted_items (lb_options self) is Some _ then w
       else batch_opened (lb_options self) w).

(** The slots after consecutive [add] calls for [keys], the first of which
    creates future [n]. *)
Fixpoint add_keys (keys : list Key_pb) (n : nat) (todo : list (KeyBytes * list nat))
  : list (KeyBytes * list nat) :=
  match keys with
  | [] => todo
  | key :: keys' => add_keys keys' (S n) (todo_extend (SerializeToString key) [n] todo)
  end.

(** The futures of the calls for [k] among consecutive calls for [keys], the
    first of which creates future [n]. *)
Fixpoint futures_of_key (k : Key_pb) (keys : list Key_pb) (n : nat) : list nat :=
  match keys with
  | [] => []
  | key :: keys' =>
      (if decide (key = k) then [n] else []) ++ futures_of_key k keys' (S n)
  end.

(** The world after consecutive [lookup] calls for [keys] that found no
    batch open for [options]. *)
Definition keys_added (keys : list Key_pb) (options : Options) (w : World) : World :=
  upd_lookup_batches (λ l, <[length (lookup_batches w) :=
        mkLookupBatch options (add_keys keys (length (futures w)) [])]> l)
    (upd_futures (λ fs, fs ++ replicate (length keys) Pending) (batch_opened options w)).

(** The world after the flush callback of that batch has run. *)
Definition keys_flushed (keys : list Key_pb) (options : Options) (w : World) : World :=
  upd_rpc_queue (λ q, q ++ [(length (rpc_log w), CbLookup (length (lookup_batches w)))])
    (upd_rpc_log (λ l, l ++ [LookupRequest
         (map (λ kv, ParseFromString (fst kv)) (add_keys keys (length (futures w)) []))
         (mkReadOptions (read_consistency_of options) (_get_transaction options w))])
       (upd_ctx_batches (λ m, <[LookupCls := registry LookupCls w]> m)
          (keys_added keys options w))).

(** ** The system as a whole *)

(** What can happen: a call of an entry point, a deferred callback that
    fires, an outbound call that completes. *)
Inductive Op :=
  | OpLookup (key : Key_pb) (options : Options)
  | OpPut (entity_pb : Entity) (options : Options)
  | OpDelete (key : Key_pb) (options : Options)
  | OpCommit (transaction : PyVal)
  | OpIdle (cb : IdleCb)
  | OpRpc (cb : RpcCb) (outcome : RpcOutcome).

Definition step (o : Op) : M unit :=
  match o with
  | OpLookup key options => run ndb.lookup key options; ret tt
  | OpPut entity_pb options => run ndb.put entity_pb options; ret tt
  | OpDelete key options => run ndb.delete key options; ret tt
  | OpCommit transaction => run ndb.commit transaction; ret tt
  | OpIdle cb => run_idle_cb cb
  | OpRpc cb outcome => run_rpc_cb cb outcome
  end.

(** The units of work that a batch of a class holds. *)
Definition batch_content (cls : BatchCls) (b : nat) (w : World)
  : option (LookupBatch + NonTxBatch) :=
  match cls with
  | LookupCls => inl <$> lookup_batches w !! b
  | NonTxCommitCls => inr <$> nontx_batches w !! b
  end.

(** The batch [b] is sealed and holds [c]. *)
Definition sealed_with (cls : BatchCls) (b : nat) (c : LookupBatch + NonTxBatch) (w : World)
  : Prop :=
  sealed cls b w ∧ batch_content cls b w = Some c.

(** [c] keeps [J], whether it returns or raises, and returns values in [Q]. *)
Definition keeps {A} (J : World → Prop) (c : M A) (Q : A → Prop) : Prop :=
  ∀ w, J w → J (snd (c w)) ∧ ∀ a, fst (c w) = Ok a → Q a.

(** A state predicate that only reads the batch stores and the registry. *)
Definition reads_registry (J : World → Prop) : Prop :=
  ∀ w w', lookup_batches w' = lookup_batches w → nontx_batches w' = nontx_batches w →
          ctx_batches w' = ctx_batches w → J w → J w'.

(** [c] leaves the batch stores and the registry alone. *)
Definition frames {A} (c : M A) : Prop :=
  ∀ w, lookup_batches (snd (c w)) = lookup_batches w ∧
       nontx_batches (snd (c w)) = nontx_batches w ∧
       ctx_batches (snd (c w)) = ctx_batches w.

(** The world after a sequence of steps; a step that raises leaves the
    world it had reached. *)
Fixpoint run_ops (ops : list Op) (w : World) : World :=
  match ops with
  | [] => w
  | o :: ops' => run_ops ops' (exec (step o) w)
  end.

(** A [commit] suspended in its loop waits on the marker at its index, and
    the markers before that index are done. *)
Definition loop_waiter_ok (w : World) (fk : nat * Cont) : Prop :=
  match snd fk with
  | KCommitLoop b j _ =>
      ∃ batch, tx_batches w !! b = Some batch ∧
        tb_allocating_ids batch !! j = Some (fst fk) ∧
        ∀ n g, n < j → tb_allocating_ids batch !! n = Some g → done g w = true
  | KCommitFinal _ => True
  end.

Definition waiters_ok (w : World) : Prop := Forall (loop_waiter_ok w) (waiters w).

(** Every allocation marker of batch [b] is done. *)
Definition markers_done (b : nat) (w : World) : Prop :=
  ∃ batch, tx_batches w !! b = Some batch ∧
    Forall (λ f, done f w = true) (tb_allocating_ids batch).

(** A queued write of [commit] was already queued in [Q], or the markers of
    its batch are done. *)
Definition commit_entry_ok (Q : list (nat * RpcCb)) (w : World) (e : nat * RpcCb) : Prop :=
  match snd e with
  | CbTxCommit b _ => e ∈ Q ∨ markers_done b w
  | _ => True
  end.

Definition commit_inv (Q : list (nat * RpcCb)) (w : World) : Prop :=
  waiters_ok w ∧ Forall (commit_entry_ok Q w) (rpc_queue w).

(** From [w] to [w'] no future has been unsettled and no batch has changed
    its allocation markers. *)
Definition evolves (w w' : World) : Prop :=
  (∀ f, done f w = true → done f w' = true) ∧
  (∀ b batch, tx_batches w !! b = Some batch →
     ∃ batch', tx_batches w' !! b = Some batch' ∧
       tb_allocating_ids batch' = tb_allocating_ids batch).

(** A mutation handed to the entry point that makes it: [put] for an upsert,
    [delete] for a deletion. *)
Definition submit (options : Options) (m : Mutation) : M nat :=
  match m with
  | Upsert entity_pb => ndb.put entity_pb options
  | Delete key => ndb.delete key options
  end.

(** Consecutive calls of [put] and [delete] with the same options. *)
Fixpoint submit_all (ms : list Mutation) (options : Options) : M (list nat) :=
  match ms with
  | [] => ret []
  | m :: ms' =>
      do f <- submit options m;
      do fs <- submit_all ms' options;
      ret (f :: fs)
  end.

(** The world after mutations [ms] were added to the non-transactional batch
    [b], which held [batch]. *)
Definition mutations_added (b : nat) (batch : NonTxBatch) (ms : list Mutation) (w : World)
  : World :=
  upd_nontx_batches (λ l, <[b := mkNonTxBatch (nb_options batch) (nb_mutations batch ++ ms)
        (nb_futures batch ++ seq (length (futures w)) (length ms))]> l)
    (upd_futures (λ fs, fs ++ replicate (length ms) Pending) w).

(** The lists of a batch pair each mutation with its future. *)
Definition nontx_aligned (x : NonTxBatch) : Prop :=
  length (nb_mutations x) = length (nb_futures x).

Definition tx_aligned (x : TxBatch) : Prop :=
  length (tb_mutations x) = length (tb_futures x) ∧
  length (tb_incomplete_mutations x) = length (tb_incomplete_futures x).

Definition aligned (w : World) : Prop :=
  Forall nontx_aligned (nontx_batches w) ∧ Forall tx_aligned (tx_batches w).

(** Every registered transaction leads to a batch that was made for it. *)
Definition commit_batches_own (w : World) : Prop :=
  ∀ t b, ctx_commit_batches w !! t = Some b →
    ∃ batch, tx_batches w !! b = Some batch ∧
      tb_transaction batch = t ∧ tb_options batch = [("transaction"%string, t)].

(** The registries and the stores of batches fit together. *)
Definition world_wf (w : World) : Prop :=
  registry_wf LookupCls w ∧ registry_wf NonTxCommitCls w ∧
  commit_batches_own w ∧ aligned w.

(** An update of a transactional batch that keeps its transaction, its
    options and the pairing of its lists. *)
Definition tx_update_ok (g : TxBatch → TxBatch) : Prop :=
  ∀ x, tb_transaction (g x) = tb_transaction x ∧ tb_options (g x) = tb_options x ∧
       (tx_aligned x → tx_aligned (g x)).

(** The world after [put] calls for [entities], all with incomplete keys,
    were added to the transactional batch [b], which held [batch]. *)
Definition incomplete_puts_added (b : nat) (batch : TxBatch) (entities : list Entity)
    (w : World) : World :=
  let n := length (futures w) in
  let m := length (mutation_objs w) in
  let k := length entities in
  upd_tx_batches (λ l, <[b := mkTxBatch (tb_options batch)
        (tb_mutations batch ++ seq m k) (tb_futures batch ++ seq n k)
        (tb_transaction batch) (tb_allocating_ids batch)
        (tb_incomplete_mutations batch ++ seq m k)
        (tb_incomplete_futures batch ++ seq n k)]> l)
    (upd_idlers (λ l, l ++ (if tb_incomplete_mutations batch is []
                            then (if entities is [] then [] else [IdleAllocate b])
                            else []))
       (upd_mutation_objs (λ l, l ++ map Upsert entities)
          (upd_futures (λ fs, fs ++ replicate k Pending) w))).

(** * Properties *)

Ltac wsimpl :=
  cbn [futures mutation_objs lookup_batches nontx_batches tx_batches ctx_transaction
       ctx_batches ctx_commit_batches idlers rpc_log rpc_queue waiters
       upd_futures upd_mutation_objs upd_lookup_batches upd_nontx_batches upd_tx_batches
       upd_ctx_batches upd_ctx_commit_batches upd_idlers upd_rpc_log upd_rpc_queue
       upd_waiters fst snd] in *.

Ltac munfold :=
  unfold add_idle, queue_rpc, await, remote_call, new_future, new_mutation,
    upd_tx_batch, set_todo, bind, ret, gets, modify, raise, lift in *.

Ltac elem_of_list :=
  repeat first [apply list_elem_of_here | apply list_elem_of_further].

Lemma world_eta (w : World) :
  mkWorld (futures w) (mutation_objs w) (lookup_batches w) (nontx_batches w)
    (tx_batches w) (ctx_transaction w) (ctx_batches w) (ctx_commit_batches w)
    (idlers w) (rpc_log w) (rpc_queue w) (waiters w) = w.
Proof. by destruct w. Qed.

(** *** Dictionaries *)

Lemma dict_pop_subset {V} (k : string) (d : list (string * V)) (x : string * V) :
  x ∈ dict_pop k d → x ∈ d.
Proof.
  induction d as [|[k' v] d IH]; simpl; [done|].
  destruct (String.eqb k k'); intros H.
  - by right.
  - apply elem_of_cons in H as [->|H]; [left | right; auto].
Qed.

Lemma dict_pop_other {V} (k : string) (d : list (string * V)) (k' : string) :
  k' ∈ map fst d → k' ≠ k → dict_pop k d ≠ [].
Proof.
  induction d as [|[k0 v] d IH]; simpl; intros Hin Hne.
  - by apply elem_of_nil in Hin.
  - destruct (String.eqb k k0) eqn:E; [|done].
    apply String.eqb_eq in E; subst k0.
    apply elem_of_cons in Hin as [->|Hin]; [done|].
    intros ->. by apply elem_of_nil in Hin.
Qed.

Lemma dict_pop_absent {V} (k : string) (d : list (string * V)) :
  dict_get k d = None → dict_pop k d = d.
Proof.
  induction d as [|[k0 v] d IH]; simpl; [done|].
  destruct (String.eqb k k0); [done|]. intros H. by rewrite IH.
Qed.

(** *** Futures *)

Lemma settle_pending (f : nat) (s : FutState) (w : World) :
  pending f w → settle f s w = (Ok tt, upd_futures (λ fs, <[f := s]> fs) w).
Proof. unfold pending, settle. by intros ->. Qed.

Lemma settle_not_pending (f : nat) (s : FutState) (w : World) :
  ¬ pending f w → settle f s w = (Raise RuntimeError, w).
Proof.
  unfold pending, settle. intros H.
  destruct (future_state f w) as [[]|]; done.
Qed.

Lemma unawaited_filter (f : nat) (w : World) :
  unawaited f w →
  filter (λ fk, waits_on f fk = true) (waiters w) = [] ∧
  filter (λ fk, waits_on f fk = false) (waiters w) = waiters w.
Proof.
  unfold unawaited. induction (waiters w) as [|[g k] l IH]; [done|].
  intros H. apply Forall_cons in H as [Hg Hl]. destruct (IH Hl) as [IH1 IH2].
  simpl in Hg. assert (waits_on f (g, k) = false) as E
    by (unfold waits_on; simpl; by apply Nat.eqb_neq).
  split.
  - rewrite filter_cons_False; [done | by rewrite E].
  - rewrite filter_cons_True; [by rewrite IH2 | done].
Qed.

(** Resolving a future nobody waits on only records the outcome. *)
Lemma resolve_unawaited (f : nat) (s : FutState) (w : World) :
  pending f w → unawaited f w →
  resolve f s w = (Ok tt, upd_futures (λ fs, <[f := s]> fs) w).
Proof.
  intros Hp Hu. unfold resolve, bind. rewrite (settle_pending _ _ _ Hp).
  unfold gets, modify. wsimpl.
  destruct (unawaited_filter f w Hu) as [-> E]. simpl. unfold ret.
  f_equal. unfold upd_waiters, upd_futures. wsimpl. by rewrite E.
Qed.

Lemma resolve_not_pending (f : nat) (s : FutState) (w : World) :
  ¬ pending f w → resolve f s w = (Raise RuntimeError, w).
Proof.
  intros H. unfold resolve, bind. by rewrite (settle_not_pending _ _ _ H).
Qed.

Lemma apply_asg_length (asg : list (nat * FutState)) (l : list FutState) :
  length (apply_asg asg l) = length l.
Proof.
  revert l. induction asg as [|[f s] asg IH]; intros l; [done|].
  simpl. rewrite IH. apply length_insert.
Qed.

Lemma apply_asg_other (asg : list (nat * FutState)) (l : list FutState) (f : nat) :
  f ∉ map fst asg → apply_asg asg l !! f = l !! f.
Proof.
  revert l. induction asg as [|[g s] asg IH]; intros l Hf; [done|].
  simpl in *. apply not_elem_of_cons in Hf as [Hne Hf].
  rewrite IH; [|done]. by apply list_lookup_insert_ne.
Qed.

Lemma apply_asg_in (asg : list (nat * FutState)) (l : list FutState) (f : nat) (s : FutState) :
  NoDup (map fst asg) → (f, s) ∈ asg → f < length l → apply_asg asg l !! f = Some s.
Proof.
  revert l. induction asg as [|[g t] asg IH]; intros l Hnd Hin Hlt.
  - by apply elem_of_nil in Hin.
  - simpl in *. apply NoDup_cons in Hnd as [Hg Hnd].
    apply elem_of_cons in Hin as [Heq|Hin].
    + inversion Heq; subst. rewrite apply_asg_other; [|done].
      by apply list_lookup_insert_eq.
    + apply IH; [done..|]. by rewrite length_insert.
Qed.

Lemma apply_asg_app (a1 a2 : list (nat * FutState)) (l : list FutState) :
  apply_asg (a1 ++ a2) l = apply_asg a2 (apply_asg a1 l).
Proof. unfold apply_asg. apply foldl_app. Qed.

(** A run of assignments to distinct, unresolved, unawaited futures. *)
Lemma resolve_all (asg : list (nat * FutState)) (w : World) :
  NoDup (map fst asg) →
  Forall (λ f, pending f w ∧ unawaited f w) (map fst asg) →
  for_ asg (λ fs, resolve (fst fs) (snd fs)) w = (Ok tt, upd_futures (apply_asg asg) w).
Proof.
  revert w. induction asg as [|[f s] asg IH]; intros w Hnd Hall.
  - simpl. unfold ret. by rewrite <- (world_eta w) at 1.
  - simpl in *. apply NoDup_cons in Hnd as [Hf Hnd].
    apply Forall_cons in Hall as [[Hp Hu] Hall].
    unfold bind. rewrite (resolve_unawaited _ _ _ Hp Hu).
    rewrite IH; [done | done |].
    apply Forall_forall. intros g Hg.
    rewrite Forall_forall in Hall. destruct (Hall g Hg) as [Hgp Hgu].
    split; [|done].
    unfold pending, future_state in *. wsimpl.
    rewrite list_lookup_insert_ne; [done|]. intros ->. done.
Qed.

(** *** Loops *)

Lemma for_ext {A} (l : list A) (f g : A → M unit) (w : World) :
  (∀ x w', x ∈ l → f x w' = g x w') → for_ l f w = for_ l g w.
Proof.
  revert w. induction l as [|x l IH]; intros w H; [done|].
  simpl. unfold bind. rewrite H; [|left].
  destruct (g x w) as [[[]|e] w']; [|done].
  apply IH. intros y w'' Hy. apply H. by right.
Qed.

Lemma for_map {A B} (h : A → B) (l : list A) (f : B → M unit) (w : World) :
  for_ (map h l) f w = for_ l (λ x, f (h x)) w.
Proof.
  revert w. induction l as [|x l IH]; intros w; [done|].
  simpl. unfold bind. destruct (f (h x) w) as [[[]|e] w']; [|done]. apply IH.
Qed.

Lemma done_pending f w : is_Some (future_state f w) → done f w = false ↔ pending f w.
Proof.
  unfold done, pending. intros [s Hs]. rewrite Hs. destruct s; simpl; split; done || congruence.
Qed.

Lemma filter_ext_in {A} (P Q : A → Prop) `{!∀ x, Decision (P x)} `{!∀ x, Decision (Q x)}
    (l : list A) :
  (∀ x, x ∈ l → P x ↔ Q x) → filter P l = filter Q l.
Proof.
  induction l as [|x l IH]; intros HPQ; [done|].
  assert (filter P l = filter Q l) as E by (apply IH; intros y Hy; apply HPQ; by right).
  destruct (decide (P x)) as [HP|HP].
  - rewrite !filter_cons_True; [by rewrite E | | done]. apply HPQ; [left | done].
  - rewrite !filter_cons_False; [done | | done]. intros HQ. apply HP, HPQ; [left | done].
Qed.

Lemma guarded_resolve_all (pairs : list (nat * FutState)) (w : World) :
  NoDup (map fst pairs) →
  Forall (λ f, is_Some (future_state f w) ∧ (pending f w → unawaited f w)) (map fst pairs) →
  for_ pairs guarded_resolve w =
    (Ok tt, upd_futures (apply_asg (filter (λ p, done (fst p) w = false) pairs)) w).
Proof.
  revert w. induction pairs as [|[f s] pairs IH]; intros w Hnd Hall.
  - simpl. unfold ret. by rewrite <- (world_eta w) at 1.
  - simpl in Hnd, Hall. apply NoDup_cons in Hnd as [Hf Hnd].
    apply Forall_cons in Hall as [[Hex Hu] Hall].
    assert (∀ s' g, g ∈ map fst pairs →
      future_state g (upd_futures (λ fs, <[f := s']> fs) w) = future_state g w) as Hframe.
    { intros s' g Hg. unfold future_state. wsimpl.
      apply list_lookup_insert_ne. by intros ->. }
    cbn [for_]. unfold bind at 1. unfold guarded_resolve at 1. unfold bind, gets. cbn [fst snd].
    destruct (done f w) eqn:Hd.
    + unfold ret. rewrite IH; [|done|done].
      rewrite filter_cons_False; [done|]. cbn [fst]. by rewrite Hd.
    + apply done_pending in Hd as Hp; [|done].
      rewrite (resolve_unawaited _ _ _ Hp (Hu Hp)).
      rewrite IH; [|done|].
      * rewrite (filter_cons_True _ (f, s)); [|done].
        rewrite (filter_ext_in _ (λ p, done (fst p) w = false)); [done|].
        intros [g t] Hg. cbn [fst]. unfold done. rewrite Hframe; [done|].
        apply list_elem_of_fmap. by exists (g, t).
      * apply Forall_forall. intros g Hg. rewrite Forall_forall in Hall.
        destruct (Hall g Hg) as [Hgex Hgu].
        unfold pending, unawaited. rewrite Hframe; [|done]. done.
Qed.

Lemma zip_snd_take {A B} (l : list A) (k : list B) :
  map snd (zip l k) = take (length l) k.
Proof.
  revert k. induction l as [|x l IH]; intros [|y k]; simpl; [done..|].
  by rewrite IH.
Qed.

Lemma guarded_pairs_fst (mutation_results : list Key_pb) (futs : list nat) :
  map fst (map (λ kf : Key_pb * nat, (snd kf, Done (key_or_none (fst kf))))
             (zip mutation_results futs)) = take (length mutation_results) futs.
Proof. rewrite map_map. simpl. apply zip_snd_take. Qed.

Lemma NoDup_take {A} (n : nat) (l : list A) : NoDup l → NoDup (take n l).
Proof. intros H. eapply sublist_NoDup; [done | apply sublist_take]. Qed.

Lemma Forall_take' {A} (P : A → Prop) (n : nat) (l : list A) :
  Forall P l → Forall P (take n l).
Proof. apply Forall_take. Qed.

Lemma process_commit_ok (mutation_results : list Key_pb) (futs : list nat) (w : World) :
  NoDup futs →
  Forall (λ f, is_Some (future_state f w) ∧ (pending f w → unawaited f w)) futs →
  _process_commit (RpcOk (CommitResult mutation_results)) futs w =
    (Ok tt, upd_futures (apply_asg (filter (λ p, done (fst p) w = false)
       (map (λ kf, (snd kf, Done (key_or_none (fst kf)))) (zip mutation_results futs)))) w).
Proof.
  intros Hnd Hall. unfold _process_commit.
  rewrite <- guarded_resolve_all.
  - rewrite for_map. apply for_ext. intros [k f] w' _. done.
  - rewrite guarded_pairs_fst. by apply NoDup_take.
  - rewrite guarded_pairs_fst. by apply Forall_take.
Qed.

Lemma process_commit_exc (exception : Exn) (futs : list nat) (w : World) :
  NoDup futs →
  Forall (λ f, is_Some (future_state f w) ∧ (pending f w → unawaited f w)) futs →
  _process_commit (RpcExc exception) futs w =
    (Ok tt, upd_futures (apply_asg (filter (λ p, done (fst p) w = false)
       (map (λ f, (f, Failed exception)) futs))) w).
Proof.
  intros Hnd Hall. unfold _process_commit.
  rewrite <- guarded_resolve_all.
  - rewrite for_map. apply for_ext. intros f w' _. done.
  - rewrite map_map. simpl. by rewrite map_id.
  - rewrite map_map. simpl. by rewrite map_id.
Qed.

(** C4: [_process_commit] pairs the i-th mutation result with the i-th
    future.  A future that is unresolved receives the returned key when its
    path is non-empty and [None] when it is empty, whatever the kind of the
    mutation; on an exception it receives the exception.  A future that is
    already resolved keeps its outcome, on both paths, and the call never
    raises. *)
Theorem process_commit_demux (futs : list nat) (w : World) :
  NoDup futs →
  Forall (λ f, is_Some (future_state f w) ∧ (pending f w → unawaited f w)) futs →
  (∀ mutation_results, ∃ w',
     _process_commit (RpcOk (CommitResult mutation_results)) futs w = (Ok tt, w') ∧
     ∀ i f, futs !! i = Some f →
       (¬ pending f w → future_state f w' = future_state f w) ∧
       (pending f w → ∀ k, mutation_results !! i = Some k →
          future_state f w' = Some (Done (if key_path k is [] then RNone else RKey k)))) ∧
  (∀ exception, ∃ w',
     _process_commit (RpcExc exception) futs w = (Ok tt, w') ∧
     ∀ i f, futs !! i = Some f →
       (¬ pending f w → future_state f w' = future_state f w) ∧
       (pending f w → future_state f w' = Some (Failed exception))).
Proof.
  intros Hnd Hall.
  assert (∀ i f, futs !! i = Some f → is_Some (future_state f w)) as Hex.
  { intros i f Hi. rewrite Forall_forall in Hall.
    apply Hall. by eapply list_elem_of_lookup_2. }
  split.
  - intros mrs. eexists. split; [by apply process_commit_ok|].
    intros i f Hi. unfold future_state at 1 3. wsimpl. split.
    + intros Hnp. apply apply_asg_other. intros Hin.
      apply list_elem_of_fmap in Hin as [[g s] [-> Hin]].
      apply list_elem_of_filter in Hin as [Hd _]. cbn [fst] in *.
      apply Hnp, done_pending; eauto.
    + intros Hp k Hk. apply apply_asg_in.
      * eapply sublist_NoDup; [|apply (fmap_sublist fst), sublist_filter].
        rewrite guarded_pairs_fst. by apply NoDup_take.
      * apply list_elem_of_filter. split.
        { cbn [fst]. apply done_pending; eauto. }
        apply list_elem_of_fmap. exists (k, f). split; [done|].
        apply (list_elem_of_lookup_2 _ i). apply lookup_zip_Some. done.
      * by apply lookup_lt_is_Some, (Hex i).
  - intros e. eexists. split; [by apply process_commit_exc|].
    intros i f Hi. unfold future_state at 1 3. wsimpl. split.
    + intros Hnp. apply apply_asg_other. intros Hin.
      apply list_elem_of_fmap in Hin as [[g s] [-> Hin]].
      apply list_elem_of_filter in Hin as [Hd _]. cbn [fst] in *.
      apply Hnp, done_pending; eauto.
    + intros Hp. apply apply_asg_in.
      * eapply sublist_NoDup; [|apply (fmap_sublist fst), sublist_filter].
        rewrite map_map. simpl. by rewrite map_id.
      * apply list_elem_of_filter. split.
        { cbn [fst]. apply done_pending; eauto. }
        apply list_elem_of_fmap. exists f. split; [done|].
        by apply (list_elem_of_lookup_2 _ i).
      * by apply lookup_lt_is_Some, (Hex i).
Qed.

Lemma process_commit_demux_witness :
  NoDup [0; 1; 2] ∧
  Forall (λ f, is_Some (future_state f three_futures) ∧
               (pending f three_futures → unawaited f three_futures)) [0; 1; 2] ∧
  ∃ w', _process_commit (RpcOk (CommitResult [sample_key 7; sample_key 8; empty_key]))
          [0; 1; 2] three_futures = (Ok tt, w') ∧
        future_state 0 w' = Some (Done (RKey (sample_key 7))) ∧
        future_state 1 w' = Some (Done RNone) ∧
        future_state 2 w' = Some (Done RNone).
Proof.
  assert (NoDup [0; 1; 2]) as Hnd by (apply (bool_decide_unpack _); reflexivity).
  assert (Forall (λ f, is_Some (future_state f three_futures) ∧
               (pending f three_futures → unawaited f three_futures)) [0; 1; 2]) as Hall.
  { repeat constructor; eauto. }
  split; [exact Hnd|]. split; [exact Hall|].
  destruct (process_commit_demux [0; 1; 2] three_futures Hnd Hall) as [Hok _].
  destruct (Hok [sample_key 7; sample_key 8; empty_key]) as [w' [E H]].
  exists w'. split; [exact E|].
  split; [|split].
  - destruct (H 0 0 eq_refl) as [_ H0]. exact (H0 eq_refl _ eq_refl).
  - destruct (H 1 1 eq_refl) as [H1 _]. rewrite H1; [reflexivity | discriminate].
  - destruct (H 2 2 eq_refl) as [_ H2]. exact (H2 eq_refl _ eq_refl).
Defined.

(** *** The batch registry *)

Lemma registry_Some (cls : BatchCls) (w : World) (k : OptionsKey) (b : nat) :
  registry cls w !! k = Some b → ctx_batches w !! cls = Some (registry cls w).
Proof.
  unfold registry. destruct (ctx_batches w !! cls) as [m|]; [done|].
  simpl. by rewrite lookup_empty.
Qed.

Lemma get_batch_existing (cls : BatchCls) (options : Options) (w : World) (b : nat) :
  registry cls w !! sorted_items options = Some b →
  _get_batch cls options w = (Ok b, w).
Proof.
  intros H. unfold _get_batch, bind, gets.
  rewrite (registry_Some _ _ _ _ H). unfold ret. by rewrite H.
Qed.

Lemma registry_upd_ctx_batches cls m w :
  registry cls (upd_ctx_batches (λ _, m) w) = default ∅ (m !! cls).
Proof. done. Qed.

Lemma get_batch_new_lookup (options : Options) (w : World) :
  registry LookupCls w !! sorted_items options = None →
  _get_batch LookupCls options w =
    (Ok (length (lookup_batches w)),
     upd_idlers (λ l, l ++ [IdleFlush LookupCls (sorted_items options)])
       (upd_ctx_batches (λ m, <[LookupCls :=
            <[sorted_items options := length (lookup_batches w)]> (registry LookupCls w)]> m)
          (upd_lookup_batches (λ l, l ++ [mkLookupBatch options []]) w))).
Proof.
  intros H. unfold _get_batch, bind, gets, registry in *.
  destruct (ctx_batches w !! LookupCls) as [m|] eqn:E; munfold; wsimpl.
  - rewrite E. cbn [from_option id] in *. rewrite H. cbn [new_batch]. wsimpl.
    unfold modify, upd_idlers, upd_ctx_batches, upd_lookup_batches. wsimpl. by rewrite E.
  - rewrite lookup_insert_eq. cbn [from_option id]. rewrite lookup_empty.
    cbn [new_batch]. wsimpl.
    unfold modify, upd_idlers, upd_ctx_batches, upd_lookup_batches. wsimpl.
    rewrite lookup_insert_eq, insert_insert_eq. done.
Qed.

Lemma get_batch_new_nontx (options : Options) (w : World) :
  registry NonTxCommitCls w !! sorted_items options = None →
  _check_unsupported_options options = Ok tt →
  _get_batch NonTxCommitCls options w =
    (Ok (length (nontx_batches w)),
     upd_idlers (λ l, l ++ [IdleFlush NonTxCommitCls (sorted_items options)])
       (upd_ctx_batches (λ m, <[NonTxCommitCls :=
            <[sorted_items options := length (nontx_batches w)]> (registry NonTxCommitCls w)]> m)
          (upd_nontx_batches (λ l, l ++ [mkNonTxBatch options [] []]) w))).
Proof.
  intros H Hc. unfold _get_batch, bind, gets, registry in *.
  destruct (ctx_batches w !! NonTxCommitCls) as [m|] eqn:E; munfold; wsimpl.
  - rewrite E. cbn [from_option id] in *. rewrite H. cbn [new_batch]. rewrite Hc. unfold bind, lift. wsimpl.
    unfold modify, upd_idlers, upd_ctx_batches, upd_nontx_batches. wsimpl. by rewrite E.
  - rewrite lookup_insert_eq. cbn [from_option id]. rewrite lookup_empty.
    cbn [new_batch]. rewrite Hc. unfold bind, lift. wsimpl.
    unfold modify, upd_idlers, upd_ctx_batches, upd_nontx_batches. wsimpl.
    rewrite lookup_insert_eq, insert_insert_eq. done.
Qed.

Lemma idle_pops (cls : BatchCls) (options_key : OptionsKey) (w : World) (b : nat) :
  registry cls w !! options_key = Some b →
  idle cls options_key w =
    match cls with
    | LookupCls => LookupBatch_idle_callback b
    | NonTxCommitCls => NonTxBatch_idle_callback b
    end (upd_ctx_batches (λ m, <[cls := delete options_key (registry cls w)]> m) w).
Proof.
  intros H. unfold idle, bind, gets, modify. rewrite H. reflexivity.
Qed.

Lemma idle_absent (cls : BatchCls) (options_key : OptionsKey) (w : World) :
  registry cls w !! options_key = None →
  idle cls options_key w = (Raise KeyError, w).
Proof. intros H. unfold idle, bind, gets. by rewrite H. Qed.

Lemma registry_after_insert (cls : BatchCls) (m : gmap OptionsKey nat) (w : World) :
  registry cls (upd_ctx_batches (λ c, <[cls := m]> c) w) = m.
Proof. unfold registry. wsimpl. by rewrite lookup_insert_eq. Qed.

Lemma registry_after_insert_ne (cls cls' : BatchCls) (m : gmap OptionsKey nat) (w : World) :
  cls ≠ cls' → registry cls' (upd_ctx_batches (λ c, <[cls := m]> c) w) = registry cls' w.
Proof. intros H. unfold registry. wsimpl. by rewrite lookup_insert_ne. Qed.

(** *** Transactional batches *)

Lemma get_commit_batch_existing (transaction : PyVal) (options : Options) (w : World) (b : nat) :
  dict_pop "transaction" options = [] →
  ctx_commit_batches w !! transaction = Some b →
  _get_commit_batch transaction options w = (Ok b, w).
Proof.
  intros Hp H. unfold _get_commit_batch. rewrite Hp. unfold bind, gets. by rewrite H.
Qed.

Lemma get_commit_batch_new (transaction : PyVal) (options : Options) (w : World) :
  dict_pop "transaction" options = [] →
  ctx_commit_batches w !! transaction = None →
  _get_commit_batch transaction options w =
    (Ok (length (tx_batches w)),
     upd_ctx_commit_batches (λ m, <[transaction := length (tx_batches w)]> m)
       (upd_tx_batches (λ l, l ++ [mkTxBatch [("transaction", transaction)] [] []
                                      transaction [] [] []]) w)).
Proof.
  intros Hp H. unfold _get_commit_batch. rewrite Hp. unfold bind, gets. rewrite H.
  done.
Qed.

(** *** Identifier allocation *)



Lemma zip3_lookup {A B C} (la : list A) (lb : list B) (lc : list C) i a b c :
  la !! i = Some a → lb !! i = Some b → lc !! i = Some c →
  zip3 la lb lc !! i = Some (a, b, c).
Proof.
  revert lb lc i. induction la as [|a' la IH]; intros [|b' lb] [|c' lc] [|i]; simpl;
    try done.
  - congruence.
  - apply IH.
Qed.

Lemma zip3_snd_sublist {A B C} (la : list A) (lb : list B) (lc : list C) :
  map snd (zip3 la lb lc) `sublist_of` lc.
Proof.
  revert lb lc. induction la as [|a la IH]; intros [|b lb] [|c lc]; simpl;
    try apply sublist_nil_l.
  apply sublist_skip, IH.
Qed.


Lemma allocate_loop (z : list (nat * Key_pb * nat)) (w : World) :
  NoDup (map snd z) →
  Forall (λ f, pending f w ∧ unawaited f w) (map snd z) →
  for_ z (λ '(mutation, key, future),
      run modify (upd_mutation_objs (alter (copy_key_into key) mutation));
      set_result future (RKey key)) w =
    (Ok tt,
     upd_futures (apply_asg (map (λ t, (snd t, Done (RKey (snd (fst t))))) z))
       (upd_mutation_objs (apply_keys (map fst z)) w)).
Proof.
  revert w. induction z as [|[[m k] f] z IH]; intros w Hnd Hall.
  - simpl. unfold ret. by rewrite <- (world_eta w) at 1.
  - simpl in Hnd, Hall. apply NoDup_cons in Hnd as [Hf Hnd].
    apply Forall_cons in Hall as [[Hp Hu] Hall].
    cbn [for_]. unfold bind at 1. unfold bind at 1. unfold modify at 1.
    unfold set_result. rewrite resolve_unawaited; [|done..].
    rewrite IH; [done | done |].
    apply Forall_forall. intros g Hg. rewrite Forall_forall in Hall.
    destruct (Hall g Hg) as [Hgp Hgu]. split; [|done].
    unfold pending, future_state in *. wsimpl.
    rewrite list_lookup_insert_ne; [done|]. by intros ->.
Qed.

Lemma fresh_future_unawaited (w w' : World) :
  waiters_wf w → waiters w' = waiters w → unawaited (length (futures w)) w'.
Proof.
  unfold waiters_wf, unawaited. intros H ->. eapply Forall_impl; [exact H|].
  intros [g k] Hg. simpl in *. lia.
Qed.

Lemma lookup_snoc_length {A} (l : list A) (x : A) : (l ++ [x]) !! length l = Some x.
Proof. by rewrite lookup_app_r, Nat.sub_diag. Qed.

Lemma TxBatch_put_complete (b : nat) (entity_pb : Entity) (w : World) :
  waiters_wf w → _complete (ent_key entity_pb) = true →
  TxBatch_put b entity_pb w =
    (Ok (length (futures w)),
     upd_futures (λ fs, <[length (futures w) := Done RNone]> fs) (put_appended b entity_pb w)).
Proof.
  intros Hw Hc. unfold TxBatch_put. rewrite Hc. cbn [negb].
  munfold. wsimpl. unfold set_result. rewrite resolve_unawaited.
  - done.
  - unfold pending, future_state. wsimpl. apply lookup_snoc_length.
  - by apply fresh_future_unawaited.
Qed.

Lemma TxBatch_put_incomplete (b : nat) (entity_pb : Entity) (w : World) (batch : TxBatch) :
  tx_batches w !! b = Some batch → _complete (ent_key entity_pb) = false →
  TxBatch_put b entity_pb w =
    (Ok (length (futures w)),
     upd_tx_batches (alter (append_incomplete_future (length (futures w))) b)
       (upd_tx_batches (alter (append_incomplete_mutation (length (mutation_objs w))) b)
          (upd_idlers (λ l, l ++ (if tb_incomplete_mutations batch is []
                                  then [IdleAllocate b] else []))
             (put_appended b entity_pb w)))).
Proof.
  intros Hb Hc. unfold TxBatch_put. rewrite Hc. cbn [negb].
  munfold. unfold get_tx_batch. wsimpl.
  rewrite !list_lookup_alter_eq, Hb. cbn [fmap option_fmap option_map].
  cbn [append_mutation append_future tb_incomplete_mutations].
  destruct (tb_incomplete_mutations batch); wsimpl.
  - done.
  - unfold put_appended, upd_idlers, upd_tx_batches. wsimpl. by rewrite app_nil_r.
Qed.

(** *** The allocation round and the commit tasklet *)

Lemma TxBatch_idle_callback_nothing (b : nat) (batch : TxBatch) (w : World) :
  tx_batches w !! b = Some batch → tb_incomplete_mutations batch = [] →
  TxBatch_idle_callback b w = (Ok tt, w).
Proof.
  intros Hb He. unfold TxBatch_idle_callback, bind, get_tx_batch. by rewrite Hb, He.
Qed.

Lemma TxBatch_idle_callback_round (b : nat) (batch : TxBatch) (w : World) :
  tx_batches w !! b = Some batch → tb_incomplete_mutations batch ≠ [] →
  TxBatch_idle_callback b w =
    (Ok tt,
     upd_tx_batches (alter clear_incomplete b)
       (upd_rpc_queue (λ q, q ++ [(length (rpc_log w),
            CbAllocate b (tb_incomplete_mutations batch) (tb_incomplete_futures batch)
              (length (futures w)))])
          (upd_rpc_log (λ l, l ++ [AllocateIdsRequest
               (map upsert_key (deref_mutations (tb_incomplete_mutations batch) w))])
             (upd_tx_batches (alter (append_allocating_ids (length (futures w))) b)
                (upd_futures (λ fs, fs ++ [Pending]) w))))).
Proof.
  intros Hb He. unfold TxBatch_idle_callback, bind, get_tx_batch. rewrite Hb.
  destruct (tb_incomplete_mutations batch) eqn:E; [done|].
  unfold _datastore_allocate_ids. munfold. wsimpl. done.
Qed.

Lemma done_new_future (f : nat) (w : World) :
  done f (upd_futures (λ fs, fs ++ [Pending]) w) = done f w.
Proof.
  unfold done, future_state. wsimpl.
  destruct (decide (f < length (futures w))) as [Hlt|Hge].
  - by rewrite lookup_app_l.
  - rewrite (lookup_ge_None_2 (futures w)); [|lia].
    destruct (decide (f = length (futures w))) as [->|Hne].
    + by rewrite lookup_snoc_length.
    + rewrite lookup_ge_None_2; [done|]. rewrite length_app. simpl. lia.
Qed.

Lemma first_unresolved_ext (l : list nat) (i : nat) (w w' : World) :
  (∀ f, done f w' = done f w) → first_unresolved l i w' = first_unresolved l i w.
Proof.
  intros H. revert i. induction l as [|f l IH]; intros i; [done|].
  simpl. rewrite H. by rewrite IH.
Qed.

Lemma first_unresolved_None (l : list nat) (i : nat) (w : World) :
  first_unresolved l i w = None ↔ Forall (λ f, done f w = true) l.
Proof.
  revert i. induction l as [|f l IH]; intros i; simpl.
  - split; [constructor | done].
  - destruct (done f w) eqn:E.
    + rewrite IH. split; [by constructor | by inversion 1].
    + split; [done|]. inversion 1; congruence.
Qed.

Lemma first_unresolved_Some (l : list nat) (i j f : nat) (w : World) :
  first_unresolved l i w = Some (j, f) →
  i ≤ j ∧ l !! (j - i) = Some f ∧ done f w = false ∧
  ∀ n g, n < j - i → l !! n = Some g → done g w = true.
Proof.
  revert i. induction l as [|g l IH]; intros i; simpl; [done|].
  destruct (done g w) eqn:E.
  - intros H. destruct (IH _ H) as (Hle & Hl & Hd & Hbefore).
    split; [lia|]. replace (j - i) with (S (j - S i)) by lia.
    split; [done|]. split; [done|].
    intros [|n] g' Hn Hg'; simpl in Hg'; [congruence|].
    apply (Hbefore n); [lia | done].
  - intros [= <- <-]. rewrite Nat.sub_diag. repeat split; [done|done|]. lia.
Qed.

Lemma commit_finish_eq (b : nat) (batch : TxBatch) (tf : nat) (w : World) :
  tx_batches w !! b = Some batch →
  commit_finish b tf w = (Ok tt, commit_sent b batch tf w).
Proof.
  intros Hb. unfold commit_finish, _datastore_commit, get_tx_batch. munfold. wsimpl.
  rewrite list_lookup_alter_eq, Hb. cbn [fmap option_fmap option_map]. wsimpl.
  done.
Qed.

Lemma commit_loop_suspends (b : nat) (batch : TxBatch) (i j f tf : nat) (w : World) :
  tx_batches w !! b = Some batch →
  first_unresolved (drop i (tb_allocating_ids batch)) i w = Some (j, f) →
  commit_loop b i tf w = (Ok tt, upd_waiters (λ l, l ++ [(f, KCommitLoop b j tf)]) w).
Proof.
  intros Hb H. unfold commit_loop, get_tx_batch. munfold. by rewrite Hb, H.
Qed.

Lemma commit_loop_finishes (b : nat) (batch : TxBatch) (i tf : nat) (w : World) :
  tx_batches w !! b = Some batch →
  first_unresolved (drop i (tb_allocating_ids batch)) i w = None →
  commit_loop b i tf w = (Ok tt, commit_sent b batch tf w).
Proof.
  intros Hb H. unfold commit_loop, get_tx_batch, bind, gets. rewrite Hb, H.
  by apply commit_finish_eq.
Qed.

Lemma TxBatch_commit_enters (b : nat) (batch : TxBatch) (w : World) :
  tx_batches w !! b = Some batch → tb_mutations batch ≠ [] →
  TxBatch_commit b w =
    (let (r, w') := commit_loop b 0 (length (futures w))
                      (upd_futures (λ fs, fs ++ [Pending]) w) in
     (match r with Ok _ => Ok (length (futures w)) | Raise e => Raise e end, w')).
Proof.
  intros Hb Hm. unfold TxBatch_commit, get_tx_batch. munfold. wsimpl. rewrite Hb.
  destruct (tb_mutations batch); [done|].
  destruct (commit_loop _ _ _ _) as [[[]|e] w']; done.
Qed.

Lemma Forall_sublist {A} (P : A → Prop) (l1 l2 : list A) :
  Forall P l2 → l1 `sublist_of` l2 → Forall P l1.
Proof.
  rewrite !Forall_forall. intros H Hs x Hx. apply H. by eapply elem_of_sublist.
Qed.

Lemma put_appended_batch (b : nat) (batch : TxBatch) (entity_pb : Entity) (w : World) :
  tx_batches w !! b = Some batch →
  tx_batches (put_appended b entity_pb w) !! b =
    Some (append_mutation (length (mutation_objs w))
            (append_future (length (futures w)) batch)).
Proof.
  intros Hb. unfold put_appended. wsimpl. by rewrite !list_lookup_alter_eq, Hb.
Qed.

(** What [_TransactionalCommitBatch.put] does to a batch. *)
Lemma TxBatch_put_spec (b : nat) (batch : TxBatch) (entity_pb : Entity) (w : World) :
  tx_batches w !! b = Some batch → waiters_wf w →
  let f := length (futures w) in
  let m := length (mutation_objs w) in
  ∃ w' batch',
     TxBatch_put b entity_pb w = (Ok f, w') ∧
     tx_batches w' !! b = Some batch' ∧
     mutation_objs w' = mutation_objs w ++ [Upsert entity_pb] ∧
     tb_mutations batch' = tb_mutations batch ++ [m] ∧
     tb_futures batch' = tb_futures batch ++ [f] ∧
     rpc_log w' = rpc_log w ∧
     if _complete (ent_key entity_pb) then
       future_state f w' = Some (Done RNone) ∧
       idlers w' = idlers w ∧
       tb_incomplete_mutations batch' = tb_incomplete_mutations batch ∧
       tb_incomplete_futures batch' = tb_incomplete_futures batch
     else
       future_state f w' = Some Pending ∧
       tb_incomplete_mutations batch' = tb_incomplete_mutations batch ++ [m] ∧
       tb_incomplete_futures batch' = tb_incomplete_futures batch ++ [f] ∧
       idlers w' = idlers w ++ (if tb_incomplete_mutations batch is []
                                then [IdleAllocate b] else []).
Proof.
  intros Hb Hw f m.
  destruct (_complete (ent_key entity_pb)) eqn:Hc.
  - eexists _, _. split; [by apply TxBatch_put_complete|].
    split. { wsimpl. by apply put_appended_batch. }
    unfold put_appended, future_state. wsimpl.
    repeat split; try done.
    rewrite list_lookup_insert_eq; [done|]. rewrite length_app. simpl. lia.
  - eexists _, _. split; [by eapply TxBatch_put_incomplete|].
    split.
    { wsimpl. rewrite !list_lookup_alter_eq.
      rewrite (put_appended_batch _ _ _ _ Hb). reflexivity. }
    unfold put_appended, future_state. wsimpl.
    repeat split; try done. apply lookup_snoc_length.
Qed.

Lemma TxBatch_put_frame (b : nat) (entity_pb : Entity) (w : World) :
  let w' := snd (TxBatch_put b entity_pb w) in
  waiters_wf w → is_Some (tx_batches w !! b) →
  ctx_batches w' = ctx_batches w ∧ ctx_commit_batches w' = ctx_commit_batches w ∧
  nontx_batches w' = nontx_batches w ∧ lookup_batches w' = lookup_batches w ∧
  length (tx_batches w') = length (tx_batches w).
Proof.
  intros w' Hw [batch Hb]. subst w'.
  destruct (_complete (ent_key entity_pb)) eqn:Hc.
  - rewrite TxBatch_put_complete; [|done..]. unfold put_appended. wsimpl.
    by rewrite !length_alter.
  - erewrite TxBatch_put_incomplete; [|done..]. unfold put_appended. wsimpl.
    by rewrite !length_alter.
Qed.



(** *** Routing of mutations *)

Lemma NonTxBatch_put_eq (b : nat) (entity_pb : Entity) (w : World) :
  NonTxBatch_put b entity_pb w =
    (Ok (length (futures w)),
     upd_nontx_batches (alter (λ x, mkNonTxBatch (nb_options x) (nb_mutations x)
                                       (nb_futures x ++ [length (futures w)])) b)
       (upd_nontx_batches (alter (λ x, mkNonTxBatch (nb_options x)
                                         (nb_mutations x ++ [Upsert entity_pb])
                                         (nb_futures x)) b)
          (upd_futures (λ fs, fs ++ [Pending]) w))).
Proof. done. Qed.

Lemma NonTxBatch_delete_eq (b : nat) (key : Key_pb) (w : World) :
  NonTxBatch_delete b key w =
    (Ok (length (futures w)),
     upd_nontx_batches (alter (λ x, mkNonTxBatch (nb_options x) (nb_mutations x)
                                       (nb_futures x ++ [length (futures w)])) b)
       (upd_nontx_batches (alter (λ x, mkNonTxBatch (nb_options x)
                                         (nb_mutations x ++ [Delete key])
                                         (nb_futures x)) b)
          (upd_futures (λ fs, fs ++ [Pending]) w))).
Proof. done. Qed.

(** The non-transactional batch that [_get_batch] hands out exists. *)
Lemma get_batch_nontx (options : list (string * PyVal)) (w : World) :
  registry_wf NonTxCommitCls w → _check_unsupported_options options = Ok tt →
  ∃ b w' batch,
    _get_batch NonTxCommitCls options w = (Ok b, w') ∧
    registry NonTxCommitCls w' !! sorted_items options = Some b ∧
    nontx_batches w' !! b = Some batch ∧
    futures w' = futures w ∧ tx_batches w' = tx_batches w ∧
    ctx_commit_batches w' = ctx_commit_batches w.
Proof.
  intros [Hlt _] Hc.
  destruct (registry NonTxCommitCls w !! sorted_items options) as [b|] eqn:E.
  - destruct (lookup_lt_is_Some_2 (nontx_batches w) b (Hlt _ _ E)) as [batch Hb].
    exists b, w, batch. by rewrite (get_batch_existing _ _ _ _ E).
  - eexists _, _, _. rewrite (get_batch_new_nontx _ _ E Hc).
    split; [done|]. split.
    { unfold registry. wsimpl. rewrite lookup_insert_eq. apply lookup_insert_eq. }
    wsimpl. split; [apply lookup_snoc_length | done].
Qed.

Lemma get_commit_batch_ok (transaction : PyVal) (w : World) :
  commit_batches_wf w →
  ∃ b w' batch,
    _get_commit_batch transaction [] w = (Ok b, w') ∧
    ctx_commit_batches w' !! transaction = Some b ∧
    tx_batches w' !! b = Some batch ∧
    (tx_batches w !! b = None → tb_transaction batch = transaction) ∧
    futures w' = futures w ∧ mutation_objs w' = mutation_objs w ∧
    waiters w' = waiters w ∧ idlers w' = idlers w ∧ rpc_log w' = rpc_log w ∧
    ctx_batches w' = ctx_batches w ∧ nontx_batches w' = nontx_batches w.
Proof.
  intros Hwf.
  destruct (ctx_commit_batches w !! transaction) as [b|] eqn:E.
  - destruct (lookup_lt_is_Some_2 (tx_batches w) b (Hwf _ _ E)) as [batch Hb].
    exists b, w, batch. rewrite (get_commit_batch_existing _ _ _ b); [|done..].
    repeat split; try done. by rewrite Hb.
  - eexists _, _, _. rewrite get_commit_batch_new; [|done..].
    split; [done|]. wsimpl.
    split; [apply lookup_insert_eq|]. split; [apply lookup_snoc_length|]. done.
Qed.

(** C10: acquiring a transactional commit batch with any option key other
    than ["transaction"] raises [NotImplementedError] and leaves the world,
    hence the per-transaction registry, as it was; [put] and [delete]
    routed through a transaction fail in the same way. *)
Theorem commit_batch_rejects_options
    (transaction : PyVal) (options : list (string * PyVal)) (key : string) (w : World) :
  key ∈ map fst options → key ≠ "transaction" →
  ∃ bad, bad ∈ map fst options ∧
    _get_commit_batch transaction options w = (Raise (NotImplementedError BadOption bad), w) ∧
    (truthy (_get_transaction options w) = true →
       ∀ entity_pb key_pb,
         ndb.put entity_pb options w = (Raise (NotImplementedError BadOption bad), w) ∧
         ndb.delete key_pb options w = (Raise (NotImplementedError BadOption bad), w)).
Proof.
  intros Hin Hne.
  pose proof (dict_pop_other "transaction" options key Hin Hne) as Hpop.
  destruct (dict_pop "transaction" options) as [|[k v] rest] eqn:E; [done|].
  assert (∀ t, _get_commit_batch t options w = (Raise (NotImplementedError BadOption k), w))
    as Hraise.
  { intros t. unfold _get_commit_batch. by rewrite E. }
  exists k. split; [|split].
  - assert ((k, v) ∈ options) as H by (apply (dict_pop_subset "transaction"); rewrite E; left).
    apply list_elem_of_fmap. by exists (k, v).
  - apply Hraise.
  - intros Ht entity_pb key_pb.
    unfold ndb.put, ndb.delete, bind, gets. rewrite Ht, Hraise. done.
Qed.

Lemma commit_batch_rejects_options_witness :
  ∃ bad, bad ∈ map fst [("transaction", sample_txn); ("read_consistency", EVENTUAL)] ∧
    _get_commit_batch sample_txn [("transaction", sample_txn); ("read_consistency", EVENTUAL)]
      (empty_world PyNone)
    = (Raise (NotImplementedError BadOption bad), empty_world PyNone) ∧
    _check_unsupported_options [("transaction", sample_txn); ("read_consistency", EVENTUAL)]
    = Ok tt.
Proof.
  destruct (commit_batch_rejects_options sample_txn
              [("transaction", sample_txn); ("read_consistency", EVENTUAL)]
              "read_consistency" (empty_world PyNone))
    as (bad & Hin & Hraise & _).
  - apply (bool_decide_unpack _). reflexivity.
  - discriminate.
  - exists bad. split; [exact Hin|]. split; [exact Hraise | reflexivity].
Defined.

(** C9: without a ["transaction"] option the transaction of a [put] or
    [delete] is the one of the context.  When the context has an open
    transaction, the mutation goes to the commit batch that the context
    keeps for that transaction, and the option-keyed registry does not
    change.  When the context has none, it goes to the open
    non-transactional batch of the option key, and the per-transaction
    batches do not change.  The code tests [if transaction:], so an open
    transaction is a non-empty identifier, and none is [None] or the empty
    identifier that an unset protocol buffer field reads as. *)
Theorem context_transaction_routes
    (options : list (string * PyVal)) (entity_pb : Entity) (key_pb : Key_pb) (w : World) :
  dict_get "transaction" options = None →
  _get_transaction options w = ctx_transaction w ∧
  (truthy (ctx_transaction w) = true →
     ndb.put entity_pb options w =
       (do batch <- _get_commit_batch (ctx_transaction w) options;
        TxBatch_put batch entity_pb) w ∧
     ndb.delete key_pb options w =
       (do batch <- _get_commit_batch (ctx_transaction w) options;
        TxBatch_delete batch key_pb) w) ∧
  (truthy (ctx_transaction w) = true → options = [] →
   commit_batches_wf w → waiters_wf w →
     ∃ b f m w' batch,
       ndb.put entity_pb options w = (Ok f, w') ∧
       ctx_commit_batches w' !! ctx_transaction w = Some b ∧
       tx_batches w' !! b = Some batch ∧
       last (tb_mutations batch) = Some m ∧
       mutation_objs w' !! m = Some (Upsert entity_pb) ∧
       last (tb_futures batch) = Some f ∧
       ctx_batches w' = ctx_batches w ∧ nontx_batches w' = nontx_batches w) ∧
  (truthy (ctx_transaction w) = false →
     ndb.put entity_pb options w =
       (do batch <- _get_batch NonTxCommitCls options;
        NonTxBatch_put batch entity_pb) w ∧
     ndb.delete key_pb options w =
       (do batch <- _get_batch NonTxCommitCls options;
        NonTxBatch_delete batch key_pb) w) ∧
  (truthy (ctx_transaction w) = false → _check_unsupported_options options = Ok tt →
   registry_wf NonTxCommitCls w →
     ∃ b f w' batch,
       ndb.put entity_pb options w = (Ok f, w') ∧
       registry NonTxCommitCls w' !! sorted_items options = Some b ∧
       nontx_batches w' !! b = Some batch ∧
       last (nb_mutations batch) = Some (Upsert entity_pb) ∧
       last (nb_futures batch) = Some f ∧
       ctx_commit_batches w' = ctx_commit_batches w ∧ tx_batches w' = tx_batches w).
Proof.
  intros Hno.
  assert (_get_transaction options w = ctx_transaction w) as Ht
    by (unfold _get_transaction; by rewrite Hno).
  split; [exact Ht|].
  split; [|split; [|split]].
  - intros Htr. unfold ndb.put, ndb.delete, bind, gets. rewrite Ht, Htr. done.
  - intros Htr -> Hcb Hw.
    destruct (get_commit_batch_ok (ctx_transaction w) w Hcb)
      as (b & w1 & batch1 & Hget & Hreg & Hb1 & _ & Hf & Hm & Hwt & _ & _ & Hctx & Hnt).
    assert (waiters_wf w1) as Hw1 by (unfold waiters_wf; by rewrite Hwt, Hf).
    destruct (TxBatch_put_spec b batch1 entity_pb w1 Hb1 Hw1)
      as (w' & batch' & Hput & Hb' & Hmo & Hms & Hfs & _).
    pose proof (TxBatch_put_frame b entity_pb w1 Hw1 (mk_is_Some _ _ Hb1)) as Hframe.
    rewrite Hput in Hframe. cbn [snd] in Hframe.
    destruct Hframe as (Hc1 & Hc2 & Hc3 & _).
    exists b, (length (futures w1)), (length (mutation_objs w1)), w', batch'.
    split.
    { unfold ndb.put, bind, gets. rewrite Ht, Htr, Hget. exact Hput. }
    split; [by rewrite Hc2|]. split; [done|].
    split; [rewrite Hms; apply last_snoc|].
    split; [rewrite Hmo; apply lookup_snoc_length|].
    split; [rewrite Hfs; apply last_snoc|].
    split; congruence.
  - intros Hnone. unfold ndb.put, ndb.delete, bind, gets. rewrite Ht, Hnone. done.
  - intros Hnone Hc Hwf.
    destruct (get_batch_nontx options w Hwf Hc)
      as (b & w1 & batch1 & Hget & Hreg & Hb1 & Hf & Htx & Hcb).
    eexists b, _, _, _. split.
    { unfold ndb.put, bind, gets. rewrite Ht, Hnone, Hget.
      apply NonTxBatch_put_eq. }
    wsimpl. split; [done|].
    split. { rewrite !list_lookup_alter_eq, Hb1. reflexivity. }
    cbn [nb_mutations nb_futures].
    split; [apply last_snoc|]. split; [apply last_snoc|]. done.
Qed.

Lemma context_transaction_routes_witness :
  ∃ b f w' batch,
    ndb.put (sample_entity 1) [] (empty_world PyNone) = (Ok f, w') ∧
    registry NonTxCommitCls w' !! sorted_items [] = Some b ∧
    nontx_batches w' !! b = Some batch ∧
    last (nb_mutations batch) = Some (Upsert (sample_entity 1)).
Proof.
  destruct (context_transaction_routes [] (sample_entity 1) (sample_key 1)
              (empty_world PyNone) eq_refl) as (_ & _ & _ & _ & H).
  destruct (H eq_refl eq_refl) as (b & f & w' & batch & H1 & H2 & H3 & H4 & _).
  - split.
    + intros k b. unfold registry. cbn. rewrite lookup_empty. discriminate.
    + intros k k' b. unfold registry. cbn. rewrite lookup_empty. discriminate.
  - by exists b, f, w', batch.
Defined.

(** *** Option keys *)

Lemma leb_refl (s : string) : String.leb s s = true.
Proof. destruct (String.leb_total s s); done. Qed.

Lemma dict_get_insert_sorted (k : string) (kv : string * PyVal) (l : list (string * PyVal)) :
  dict_get k (insert_sorted kv l) = if String.eqb k (fst kv) then Some (snd kv) else dict_get k l.
Proof.
  destruct kv as [k' v]. induction l as [|[k'' v''] l IH]; simpl; [done|].
  destruct (String.leb k' k'') eqn:E; simpl; [done|].
  rewrite IH. simpl.
  destruct (String.eqb k k') eqn:E1, (String.eqb k k'') eqn:E2; try done.
  apply String.eqb_eq in E1, E2. subst. by rewrite leb_refl in E.
Qed.

(** Sorting the items does not change what a key is bound to. *)
Lemma dict_get_sorted_items (k : string) (options : list (string * PyVal)) :
  dict_get k (sorted_items options) = dict_get k options.
Proof.
  induction options as [|[k' v] options IH]; [done|].
  unfold sorted_items in *. simpl. rewrite dict_get_insert_sorted. simpl. by rewrite IH.
Qed.

Lemma dict_get_same_key (k : string) (o1 o2 : list (string * PyVal)) :
  sorted_items o1 = sorted_items o2 → dict_get k o1 = dict_get k o2.
Proof.
  intros H. by rewrite <- (dict_get_sorted_items k o1), H, dict_get_sorted_items.
Qed.

Lemma read_options_conflict_same_key (o1 o2 : list (string * PyVal)) (w : World) :
  sorted_items o1 = sorted_items o2 →
  read_options_conflict o1 w = read_options_conflict o2 w.
Proof.
  intros H. unfold read_options_conflict, read_consistency_of, _get_transaction, options_get.
  by rewrite !(dict_get_same_key _ o1 o2 H).
Qed.

Lemma get_read_options_eq (options : list (string * PyVal)) (w : World) :
  _get_read_options options w =
    (if read_options_conflict options w
     then Raise (ValueError "read_consistency must be EVENTUAL when in transaction")
     else Ok (mkReadOptions (read_consistency_of options) (_get_transaction options w)), w).
Proof.
  unfold _get_read_options, read_options_conflict, read_consistency_of, bind, gets.
  destruct (negb (is_none (_get_transaction options w)) && _); done.
Qed.

(** *** The lookup batch *)

Lemma todo_get_extend_eq (k : KeyBytes) (fs : list nat) (todo : list (KeyBytes * list nat)) :
  todo_get k (todo_extend k fs todo) = Some (default [] (todo_get k todo) ++ fs).
Proof.
  induction todo as [|[k' fs'] todo IH]; simpl.
  - by rewrite decide_True.
  - destruct (decide (k = k')) as [->|Hne]; simpl.
    + by rewrite decide_True.
    + by rewrite decide_False.
Qed.

Lemma todo_get_extend_ne (k k' : KeyBytes) (fs : list nat) (todo : list (KeyBytes * list nat)) :
  k ≠ k' → todo_get k' (todo_extend k fs todo) = todo_get k' todo.
Proof.
  intros Hne. induction todo as [|[k'' fs'] todo IH]; simpl.
  - by rewrite decide_False.
  - destruct (decide (k = k'')) as [->|Hne']; simpl.
    + by rewrite !decide_False.
    + destruct (decide (k' = k'')); done.
Qed.

Lemma todo_get_None (k : KeyBytes) (todo : list (KeyBytes * list nat)) :
  todo_get k todo = None ↔ k ∉ map fst todo.
Proof.
  induction todo as [|[k' fs'] todo IH]; simpl.
  - split; [intros _; apply not_elem_of_nil | done].
  - destruct (decide (k = k')) as [->|Hne].
    + split; [done|]. intros H. exfalso. apply H. left.
    + rewrite IH, not_elem_of_cons. tauto.
Qed.

Lemma todo_extend_keys (k : KeyBytes) (fs : list nat) (todo : list (KeyBytes * list nat)) :
  map fst (todo_extend k fs todo) =
    map fst todo ++ (if todo_get k todo is Some _ then [] else [k]).
Proof.
  induction todo as [|[k' fs'] todo IH]; simpl; [done|].
  destruct (decide (k = k')) as [->|Hne]; simpl.
  - by rewrite app_nil_r.
  - by rewrite IH.
Qed.

Lemma todo_extend_NoDup (k : KeyBytes) (fs : list nat) (todo : list (KeyBytes * list nat)) :
  NoDup (map fst todo) → NoDup (map fst (todo_extend k fs todo)).
Proof.
  intros H. rewrite todo_extend_keys.
  destruct (todo_get k todo) eqn:E; [by rewrite app_nil_r|].
  apply NoDup_app. split; [done|]. split; [|apply NoDup_singleton].
  intros x Hx Hin. apply list_elem_of_singleton in Hin as ->.
  by apply todo_get_None in E.
Qed.

Lemma todo_extend_futures (k : KeyBytes) (fs : list nat) (todo : list (KeyBytes * list nat)) :
  concat (map snd (todo_extend k fs todo)) ≡ₚ concat (map snd todo) ++ fs.
Proof.
  induction todo as [|[k' fs'] todo IH]; simpl.
  - by rewrite app_nil_r.
  - destruct (decide (k = k')) as [->|Hne]; simpl.
    + rewrite <- !app_assoc. f_equiv. apply Permutation_app_comm.
    + rewrite IH. by rewrite app_assoc.
Qed.

Lemma LookupBatch_add_eq (b : nat) (batch : LookupBatch) (key : Key_pb) (w : World) :
  lookup_batches w !! b = Some batch →
  LookupBatch_add b key w =
    (Ok (length (futures w)),
     upd_lookup_batches (λ l, <[b := mkLookupBatch (lb_options batch)
           (todo_extend (SerializeToString key) [length (futures w)] (lb_todo batch))]> l)
       (upd_futures (λ fs, fs ++ [Pending]) w)).
Proof.
  intros Hb. unfold LookupBatch_add, get_lookup_batch. munfold. wsimpl. rewrite Hb.
  f_equal. unfold upd_lookup_batches, upd_futures. wsimpl. f_equal.
  apply list_eq. intros i. destruct (decide (i = b)) as [->|Hne].
  - rewrite list_lookup_alter_eq, Hb, list_lookup_insert_eq; [done|].
    by apply lookup_lt_is_Some; rewrite Hb.
  - by rewrite list_lookup_alter_ne, list_lookup_insert_ne.
Qed.

Lemma LookupBatch_idle_callback_eq (b : nat) (batch : LookupBatch) (w : World) :
  lookup_batches w !! b = Some batch →
  LookupBatch_idle_callback b w =
    if read_options_conflict (lb_options batch) w
    then (Raise (ValueError "read_consistency must be EVENTUAL when in transaction"), w)
    else (Ok tt,
          upd_rpc_queue (λ q, q ++ [(length (rpc_log w), CbLookup b)])
            (upd_rpc_log (λ l, l ++ [LookupRequest
                 (map (λ kv, ParseFromString (fst kv)) (lb_todo batch))
                 (mkReadOptions (read_consistency_of (lb_options batch))
                    (_get_transaction (lb_options batch) w))]) w)).
Proof.
  intros Hb. unfold LookupBatch_idle_callback, get_lookup_batch, bind. rewrite Hb.
  rewrite get_read_options_eq.
  destruct (read_options_conflict (lb_options batch) w); done.
Qed.

Lemma lookup_existing (key : Key_pb) (options : list (string * PyVal)) (w : World)
    (b : nat) (batch : LookupBatch) :
  registry LookupCls w !! sorted_items options = Some b →
  lookup_batches w !! b = Some batch →
  _check_unsupported_options options = Ok tt →
  ndb.lookup key options w =
    (Ok (length (futures w)), key_added b (lb_options batch) (lb_todo batch) key w).
Proof.
  intros Hr Hb Hc. unfold ndb.lookup, bind, lift. rewrite Hc.
  rewrite (get_batch_existing _ _ _ _ Hr). by apply LookupBatch_add_eq.
Qed.

Lemma lookup_new (key : Key_pb) (options : list (string * PyVal)) (w : World) :
  registry LookupCls w !! sorted_items options = None →
  _check_unsupported_options options = Ok tt →
  ndb.lookup key options w =
    (Ok (length (futures w)),
     key_added (length (lookup_batches w)) options [] key (batch_opened options w)).
Proof.
  intros Hr Hc. unfold ndb.lookup, bind, lift. rewrite Hc.
  rewrite (get_batch_new_lookup _ _ Hr).
  rewrite (LookupBatch_add_eq _ (mkLookupBatch options [])); [done|].
  wsimpl. apply lookup_snoc_length.
Qed.

Lemma read_options_conflict_ctx (options : list (string * PyVal)) (w w' : World) :
  ctx_transaction w' = ctx_transaction w →
  read_options_conflict options w' = read_options_conflict options w.
Proof.
  intros H. unfold read_options_conflict, _get_transaction. by rewrite H.
Qed.

(** C2 (amended): a lookup whose effective options combine a transaction
    with eventual consistency is accepted by [lookup]: the batch of its
    option key is acquired (and opened if there was none), the key is put
    into it and an unresolved future comes back, with no outbound call.  The
    [ValueError] is raised by [_get_read_options] later, when the flush
    callback of the batch runs: the batch has left the registry by then, no
    read call is made, and the future stays unresolved. *)
Theorem eventual_in_transaction_fails_at_flush
    (key : Key_pb) (options : list (string * PyVal)) (w : World) :
  registry_wf LookupCls w → lookup_keys_wf w →
  _check_unsupported_options options = Ok tt →
  read_options_conflict options w = true →
  ∃ b f w' batch,
    ndb.lookup key options w = (Ok f, w') ∧
    registry LookupCls w' !! sorted_items options = Some b ∧
    lookup_batches w' !! b = Some batch ∧
    f ∈ slot batch key ∧
    future_state f w' = Some Pending ∧
    rpc_log w' = rpc_log w ∧
    ∃ w'',
      idle LookupCls (sorted_items options) w' =
        (Raise (ValueError eventual_in_transaction_msg), w'') ∧
      rpc_log w'' = rpc_log w ∧ rpc_queue w'' = rpc_queue w ∧
      registry LookupCls w'' !! sorted_items options = None ∧
      future_state f w'' = Some Pending.
Proof.
  intros [Hlt _] Hkeys Hc Hconf.
  destruct (registry LookupCls w !! sorted_items options) as [b|] eqn:Hr.
  - destruct (lookup_lt_is_Some_2 (lookup_batches w) b (Hlt _ _ Hr)) as [batch Hb].
    eexists b, _, _, _. split; [by apply (lookup_existing _ _ _ b batch)|].
    assert (length (futures w) < length (futures w ++ [Pending])) as Hlen
      by (rewrite length_app; simpl; lia).
    unfold key_added. split; [done|]. wsimpl.
    split. { apply list_lookup_insert_eq. by apply lookup_lt_is_Some; rewrite Hb. }
    split. { unfold slot. cbn [lb_todo]. rewrite todo_get_extend_eq. set_solver. }
    split. { unfold future_state. wsimpl. apply lookup_snoc_length. }
    split; [done|].
    eexists. erewrite idle_pops; [|exact Hr].
    erewrite LookupBatch_idle_callback_eq;
      [|wsimpl; apply list_lookup_insert_eq; by apply lookup_lt_is_Some; rewrite Hb].
    cbn [lb_options].
    rewrite (read_options_conflict_ctx _ w); [|done].
    rewrite (read_options_conflict_same_key _ options); [|by apply (Hkeys _ b)].
    rewrite Hconf. split; [done|]. wsimpl. split; [done|]. split; [done|].
    split.
    + unfold registry. wsimpl. rewrite lookup_insert_eq. apply lookup_delete_eq.
    + unfold future_state. wsimpl. apply lookup_snoc_length.
  - eexists _, _, _, _. split; [by apply lookup_new|].
    unfold key_added, batch_opened. wsimpl.
    split. { unfold registry. wsimpl. rewrite lookup_insert_eq. apply lookup_insert_eq. }
    split. { apply list_lookup_insert_eq. rewrite length_app. simpl. lia. }
    split. { unfold slot. cbn. rewrite decide_True; [|done]. set_solver. }
    split. { unfold future_state. wsimpl. apply lookup_snoc_length. }
    split; [done|].
    eexists. erewrite idle_pops;
      [|unfold registry; wsimpl; rewrite lookup_insert_eq; apply lookup_insert_eq].
    erewrite LookupBatch_idle_callback_eq;
      [|wsimpl; apply list_lookup_insert_eq; rewrite length_app; simpl; lia].
    cbn [lb_options].
    rewrite (read_options_conflict_ctx _ w); [|done].
    rewrite Hconf. split; [done|]. wsimpl. split; [done|]. split; [done|].
    split.
    + unfold registry. wsimpl. rewrite lookup_insert_eq. apply lookup_delete_eq.
    + unfold future_state. wsimpl. apply lookup_snoc_length.
Qed.

Lemma registry_wf_empty (cls : BatchCls) (transaction : PyVal) :
  registry_wf cls (empty_world transaction).
Proof.
  split.
  - intros k b. unfold registry. cbn. rewrite lookup_empty. discriminate.
  - intros k k' b. unfold registry. cbn. rewrite lookup_empty. discriminate.
Qed.

Lemma lookup_keys_wf_empty (transaction : PyVal) : lookup_keys_wf (empty_world transaction).
Proof. intros k b batch. unfold registry. cbn. rewrite lookup_empty. discriminate. Qed.

Lemma eventual_in_transaction_fails_at_flush_witness :
  let options := [("transaction", sample_txn); ("read_consistency", EVENTUAL)] in
  ∃ f w' w'',
    ndb.lookup (sample_key 1) options (empty_world PyNone) = (Ok f, w') ∧
    idle LookupCls (sorted_items options) w' =
      (Raise (ValueError eventual_in_transaction_msg), w'').
Proof.
  intros options.
  destruct (eventual_in_transaction_fails_at_flush (sample_key 1) options
              (empty_world PyNone) (registry_wf_empty _ _) (lookup_keys_wf_empty _)
              eq_refl eq_refl)
    as (b & f & w' & batch & H1 & _ & _ & _ & _ & _ & w'' & H2 & _).
  by exists f, w', w''.
Defined.

(** C2, as stated, fails: with a transaction and eventual consistency in
    its options, [lookup] returns a future, opens a batch for the option key
    and puts the key into it. *)
Lemma lookup_accepts_eventual_in_transaction :
  let options := [("transaction", sample_txn); ("read_consistency", EVENTUAL)] in
  let r := ndb.lookup (sample_key 1) options (empty_world PyNone) in
  fst r = Ok 0 ∧
  lookup_batches (snd r) = [mkLookupBatch options [(Serialized (sample_key 1), [0])]] ∧
  idlers (snd r) = [IdleFlush LookupCls (sorted_items options)].
Proof. vm_compute. done. Qed.

(** *** Slots of a lookup batch *)

Lemma todo_get_elem (k : KeyBytes) (todo : list (KeyBytes * list nat)) (fs : list nat) :
  todo_get k todo = Some fs → (k, fs) ∈ todo.
Proof.
  induction todo as [|[k' fs'] todo IH]; simpl; [done|].
  destruct (decide (k = k')) as [->|Hne].
  - intros [= ->]. left.
  - intros H. right. auto.
Qed.

Lemma slot_subset (k : KeyBytes) (todo : list (KeyBytes * list nat)) (fs : list nat) (f : nat) :
  todo_get k todo = Some fs → f ∈ fs → f ∈ concat (map snd todo).
Proof.
  intros H Hf. apply todo_get_elem in H.
  apply list_elem_of_In, in_concat. exists fs. split; [|by apply list_elem_of_In].
  apply list_elem_of_In. apply list_elem_of_fmap. by exists (k, fs).
Qed.

Lemma slot_NoDup (k : KeyBytes) (todo : list (KeyBytes * list nat)) (fs : list nat) :
  NoDup (concat (map snd todo)) → todo_get k todo = Some fs → NoDup fs.
Proof.
  induction todo as [|[k' fs'] todo IH]; simpl; [done|].
  intros Hnd. apply NoDup_app in Hnd as (H1 & _ & H2).
  destruct (decide (k = k')) as [->|Hne]; [by intros [= <-] | auto].
Qed.

Lemma slots_disjoint (k1 k2 : KeyBytes) (todo : list (KeyBytes * list nat))
    (fs1 fs2 : list nat) (f : nat) :
  NoDup (concat (map snd todo)) → k1 ≠ k2 →
  todo_get k1 todo = Some fs1 → todo_get k2 todo = Some fs2 →
  f ∈ fs1 → f ∉ fs2.
Proof.
  induction todo as [|[k' fs'] todo IH]; simpl; [done|].
  intros Hnd Hne. apply NoDup_app in Hnd as (H1 & Hdisj & H2).
  destruct (decide (k1 = k')) as [->|Hne1], (decide (k2 = k')) as [->|Hne2]; try done.
  - intros [= <-] H Hf1 Hf2. apply (Hdisj f Hf1). by eapply slot_subset.
  - intros H [= <-] Hf1 Hf2. apply (Hdisj f Hf2). by eapply slot_subset.
  - auto.
Qed.

Lemma slot_asg_fst (batch : LookupBatch) (val : Entity → FutVal) (results : list Entity) :
  map fst (slot_asg batch val results) = flat_map (λ e, slot batch (ent_key e)) results.
Proof.
  unfold slot_asg. induction results as [|e results IH]; [done|].
  simpl. rewrite map_app, IH, map_map. simpl. by rewrite map_id.
Qed.

Lemma slots_subset (batch : LookupBatch) (results : list Entity) (f : nat) :
  f ∈ flat_map (λ e, slot batch (ent_key e)) results →
  f ∈ concat (map snd (lb_todo batch)).
Proof.
  induction results as [|e results IH]; simpl; [by intros ?%elem_of_nil|].
  intros [H|H]%elem_of_app; [|auto].
  unfold slot in H. destruct (todo_get _ _) as [fs|] eqn:E; [|by apply elem_of_nil in H].
  by eapply slot_subset.
Qed.

Lemma slots_NoDup (batch : LookupBatch) (results : list Entity) :
  NoDup (concat (map snd (lb_todo batch))) → NoDup (map ent_key results) →
  NoDup (flat_map (λ e, slot batch (ent_key e)) results).
Proof.
  intros Hnd. induction results as [|e results IH]; simpl; [constructor|].
  intros [He Hr]%NoDup_cons. apply NoDup_app. split; [|split; [|auto]].
  - unfold slot. destruct (todo_get _ _) eqn:E; [by eapply slot_NoDup | constructor].
  - intros f Hf Hin.
    apply list_elem_of_In, in_flat_map in Hin as (e' & He' & Hf').
    apply list_elem_of_In in He', Hf'.
    unfold slot in Hf, Hf'.
    destruct (todo_get (SerializeToString (ent_key e)) _) as [fs|] eqn:E;
      [|by apply elem_of_nil in Hf].
    destruct (todo_get (SerializeToString (ent_key e')) _) as [fs'|] eqn:E';
      [|by apply elem_of_nil in Hf'].
    simpl in *. revert Hf'. eapply slots_disjoint; [exact Hnd | | exact E | exact E' | exact Hf].
    unfold SerializeToString. intros [= Heq]. apply He.
    apply list_elem_of_fmap. by exists e'.
Qed.

Lemma slot_asg_cons (batch : LookupBatch) (val : Entity → FutVal) (e : Entity)
    (results : list Entity) :
  slot_asg batch val (e :: results) =
    map (λ f, (f, Done (val e))) (slot batch (ent_key e)) ++ slot_asg batch val results.
Proof. done. Qed.

(** The loops of [lookup_callback] over one partition of the response. *)
Lemma resolve_slots (b : nat) (batch : LookupBatch) (val : Entity → FutVal)
    (results : list Entity) (w : World) :
  lookup_batches w !! b = Some batch →
  (∀ e, e ∈ results → is_Some (todo_get (SerializeToString (ent_key e)) (lb_todo batch))) →
  NoDup (map fst (slot_asg batch val results)) →
  Forall (λ f, pending f w ∧ unawaited f w) (map fst (slot_asg batch val results)) →
  resolve_partition b results val w =
    (Ok tt, upd_futures (apply_asg (slot_asg batch val results)) w).
Proof.
  unfold resolve_partition.
  revert w. induction results as [|e results IH]; intros w Hb Hin Hnd Hall.
  - simpl. unfold ret. by rewrite <- (world_eta w) at 1.
  - rewrite slot_asg_cons in *.
    rewrite map_app in Hnd, Hall. apply NoDup_app in Hnd as (Hnd1 & Hdisj & Hnd2).
    apply Forall_app in Hall as [Hall1 Hall2].
    destruct (Hin e) as [fs Hfs]; [left|].
    assert (slot batch (ent_key e) = fs) as Hslot by (unfold slot; by rewrite Hfs).
    rewrite Hslot in *.
    cbn [for_]. unfold bind at 1. unfold bind at 1. unfold get_lookup_batch at 1.
    rewrite Hb, Hfs.
    assert (for_ fs (λ future, set_result future (val e)) w =
            (Ok tt, upd_futures (apply_asg (map (λ f, (f, Done (val e))) fs)) w)) as ->.
    { rewrite <- resolve_all; [|done..]. rewrite for_map. by apply for_ext. }
    rewrite IH.
    + unfold upd_futures. wsimpl. by rewrite apply_asg_app.
    + done.
    + intros e' He'. apply Hin. by right.
    + done.
    + apply Forall_forall. intros g Hg. rewrite Forall_forall in Hall2.
      destruct (Hall2 g Hg) as [Hgp Hgu]. split; [|done].
      unfold pending, future_state in *. wsimpl.
      rewrite apply_asg_other; [done|]. intros Hg'. by apply (Hdisj g).
Qed.

Lemma lookup_callback_exception (b : nat) (batch : LookupBatch) (exception : Exn) (w : World) :
  lookup_batches w !! b = Some batch →
  NoDup (concat (map snd (lb_todo batch))) →
  Forall (λ f, pending f w ∧ unawaited f w) (concat (map snd (lb_todo batch))) →
  lookup_callback b (RpcExc exception) w =
    (Ok tt, upd_futures (apply_asg (map (λ f, (f, Failed exception))
                                      (concat (map snd (lb_todo batch))))) w).
Proof.
  intros Hb Hnd Hall. unfold lookup_callback, bind, get_lookup_batch. rewrite Hb.
  rewrite <- resolve_all.
  - rewrite for_map. by apply for_ext.
  - rewrite map_map. simpl. by rewrite map_id.
  - rewrite map_map. simpl. by rewrite map_id.
Qed.

(** *** Deferred keys *)

Lemma resubmitted_cons (self : LookupBatch) (k : Key_pb) (deferred : list Key_pb)
    (todo : list (KeyBytes * list nat)) :
  resubmitted self (k :: deferred) todo =
    resubmitted self deferred
      (todo_extend (SerializeToString k) (slot self k)
         (todo_extend (SerializeToString k) [] todo)).
Proof. done. Qed.

Lemma resubmit_loop (b nb : nat) (self next : LookupBatch) (deferred : list Key_pb)
    (w : World) :
  nb ≠ b →
  lookup_batches w !! b = Some self → lookup_batches w !! nb = Some next →
  (∀ k, k ∈ deferred → is_Some (todo_get (SerializeToString k) (lb_todo self))) →
  for_ deferred (λ key,
      let todo_key := SerializeToString key in
      do next <- get_lookup_batch nb;
      run set_todo nb (todo_extend todo_key [] (lb_todo next));
      do self <- get_lookup_batch b;
      match todo_get todo_key (lb_todo self) with
      | None => raise KeyError
      | Some fs =>
          do next <- get_lookup_batch nb;
          set_todo nb (todo_extend todo_key fs (lb_todo next))
      end) w =
    (Ok tt, upd_lookup_batches (alter (resubmit_into self deferred) nb) w).
Proof.
  intros Hne. revert w next. induction deferred as [|k deferred IH]; intros w next Hb Hnb Hin.
  - simpl. unfold ret. f_equal. unfold upd_lookup_batches. wsimpl.
    rewrite list_alter_id; [by rewrite world_eta|]. by intros [].
  - destruct (Hin k) as [fs Hfs]; [left|].
    cbn [for_]. unfold bind at 1. unfold get_lookup_batch, set_todo. munfold. wsimpl.
    rewrite Hnb. rewrite list_lookup_alter_ne; [|done]. rewrite Hb, Hfs. wsimpl.
    rewrite list_lookup_alter_eq, Hnb. cbn [fmap option_fmap option_map lb_todo lb_options].
    erewrite (IH _ _); [| |wsimpl; by rewrite !list_lookup_alter_eq, Hnb |].
    + f_equal. unfold upd_lookup_batches. wsimpl. f_equal.
      rewrite !list_alter_alter_eq. apply list_alter_ext; [|done].
      intros x Hx. rewrite Hnb in Hx. injection Hx as <-.
      unfold compose, resubmit_into. cbn [lb_options lb_todo from_option id].
      rewrite resubmitted_cons. unfold slot. by rewrite Hfs.
    + wsimpl. by rewrite !list_lookup_alter_ne.
    + intros k' Hk'. apply Hin. by right.
Qed.

Lemma resubmit_deferred_eq (b : nat) (self : LookupBatch) (deferred : list Key_pb)
    (w : World) :
  lookup_batches w !! b = Some self →
  (∀ k, k ∈ deferred → is_Some (todo_get (SerializeToString k) (lb_todo self))) →
  registry_wf LookupCls w →
  registry LookupCls w !! sorted_items (lb_options self) ≠ Some b →
  resubmit_deferred b (lb_options self) deferred w =
    (Ok tt, deferred_resubmitted self deferred w).
Proof.
  intros Hb Hdin [Hlt _] Hsealed.
  unfold resubmit_deferred, deferred_resubmitted, next_batch_of.
  destruct deferred as [|k0 ds] eqn:Ed; [done|].
  unfold bind at 1.
  destruct (registry LookupCls w !! sorted_items (lb_options self)) as [nb|] eqn:E.
  - rewrite (get_batch_existing _ _ _ _ E).
    destruct (lookup_lt_is_Some_2 (lookup_batches w) nb (Hlt _ _ E)) as [next Hnext].
    cbn [from_option id]. apply (resubmit_loop b nb self next); [|done..].
    by intros ->.
  - rewrite (get_batch_new_lookup _ _ E). cbn [from_option id].
    apply (resubmit_loop b _ self (mkLookupBatch (lb_options self) [])).
    + apply lookup_lt_Some in Hb. lia.
    + unfold batch_opened. wsimpl. rewrite lookup_app_l; [done|].
      by apply lookup_lt_is_Some; rewrite Hb.
    + unfold batch_opened. wsimpl. apply lookup_snoc_length.
    + done.
Qed.

(** The deferral touches the registry, the store of lookup batches and the
    deferred callbacks, and nothing else. *)
Lemma deferred_resubmitted_frame (b : nat) (self : LookupBatch) (deferred : list Key_pb)
    (w : World) :
  lookup_batches w !! b = Some self →
  registry LookupCls w !! sorted_items (lb_options self) ≠ Some b →
  let wd := deferred_resubmitted self deferred w in
  lookup_batches wd !! b = Some self ∧
  futures wd = futures w ∧ waiters wd = waiters w ∧
  rpc_log wd = rpc_log w ∧ rpc_queue wd = rpc_queue w ∧
  mutation_objs wd = mutation_objs w ∧ tx_batches wd = tx_batches w ∧
  nontx_batches wd = nontx_batches w ∧ ctx_commit_batches wd = ctx_commit_batches w ∧
  ctx_transaction wd = ctx_transaction w.
Proof.
  intros Hb Hsealed wd. subst wd.
  unfold deferred_resubmitted, next_batch_of, batch_opened.
  destruct deferred; [done|].
  destruct (registry LookupCls w !! _) as [nb|] eqn:E; wsimpl; cbn [from_option id].
  - split; [|done]. rewrite list_lookup_alter_ne; [done|]. by intros ->.
  - split; [|done]. rewrite list_lookup_alter_ne.
    + rewrite lookup_app_l; [done|]. by apply lookup_lt_is_Some; rewrite Hb.
    + intros Heq. apply lookup_lt_Some in Hb. lia.
Qed.

(** The whole of [lookup_callback] on a well-formed response. *)
Lemma lookup_callback_ok (b : nat) (self : LookupBatch) (r : LookupResponse) (w : World) :
  lookup_batches w !! b = Some self →
  batch_futures_wf self w → response_wf self r →
  registry_wf LookupCls w →
  registry LookupCls w !! sorted_items (lb_options self) ≠ Some b →
  lookup_callback b (RpcOk (LookupResult r)) w =
    (Ok tt,
     upd_futures (apply_asg (slot_asg self (λ _, NOT_FOUND) (missing r) ++
                             slot_asg self REntity (found r)))
       (deferred_resubmitted self (deferred r) w)).
Proof.
  intros Hb (Hkeys & Hnd & Hall) (Hrnd & Hrin & Hdin) [Hlt Hinj] Hsealed.
  set (wd := deferred_resubmitted self (deferred r) w).
  destruct (deferred_resubmitted_frame b self (deferred r) w Hb Hsealed)
    as (Hbd & Hfd & Hwd & _).
  fold wd in Hbd, Hfd, Hwd.
  assert (Forall (λ f, pending f wd ∧ unawaited f wd) (concat (map snd (lb_todo self))))
    as Halld.
  { eapply Forall_impl; [exact Hall|]. intros f [Hp Hu].
    unfold pending, future_state, unawaited in *. by rewrite Hfd, Hwd. }
  assert (NoDup (map fst (slot_asg self (λ _, NOT_FOUND) (missing r) ++
                          slot_asg self REntity (found r)))) as Hasg.
  { rewrite map_app, !slot_asg_fst, <- flat_map_app. by apply slots_NoDup. }
  rewrite map_app in Hasg. apply NoDup_app in Hasg as (Hnd1 & Hdisj & Hnd2).
  assert (∀ val results, Forall (λ f, pending f wd ∧ unawaited f wd)
            (map fst (slot_asg self val results))) as Hsl.
  { intros val results. rewrite slot_asg_fst. apply Forall_forall. intros f Hf.
    rewrite Forall_forall in Halld. apply Halld. by eapply slots_subset. }
  unfold lookup_callback. unfold bind at 1. unfold get_lookup_batch at 1. rewrite Hb.
  unfold bind at 1.
  rewrite (resubmit_deferred_eq b self (deferred r) w Hb Hdin (conj Hlt Hinj) Hsealed).
  fold wd.
  unfold bind at 1.
  rewrite (resolve_slots b self (λ _, NOT_FOUND) (missing r) wd); [|done| |done|done].
  2: { intros e He. apply Hrin. apply elem_of_app. by left. }
  rewrite (resolve_slots b self REntity (found r)).
  - unfold upd_futures. wsimpl. by rewrite apply_asg_app.
  - done.
  - intros e He. apply Hrin. apply elem_of_app. by right.
  - done.
  - apply Forall_forall. intros f Hf.
    pose proof (Hsl REntity (found r)) as H. rewrite Forall_forall in H.
    destruct (H f Hf) as [Hp Hu]. split; [|done].
    unfold pending, future_state in *. wsimpl.
    rewrite apply_asg_other; [done|]. intros Hf'. by apply (Hdisj f).
Qed.

(** *** Outcomes of a lookup *)

Lemma slot_asg_in (batch : LookupBatch) (val : Entity → FutVal) (results : list Entity)
    (e : Entity) (f : nat) :
  e ∈ results → f ∈ slot batch (ent_key e) → (f, Done (val e)) ∈ slot_asg batch val results.
Proof.
  intros He Hf. unfold slot_asg. apply list_elem_of_In, in_flat_map.
  exists e. split; [by apply list_elem_of_In|].
  apply list_elem_of_In, list_elem_of_fmap. by exists f.
Qed.

Lemma slots_in (batch : LookupBatch) (results : list Entity) (f : nat) :
  f ∈ flat_map (λ e, slot batch (ent_key e)) results →
  ∃ e, e ∈ results ∧ f ∈ slot batch (ent_key e).
Proof.
  intros H. apply list_elem_of_In, in_flat_map in H as (e & He & Hf).
  exists e. by rewrite !list_elem_of_In.
Qed.

Lemma slot_in_batch (batch : LookupBatch) (k : Key_pb) (f : nat) :
  f ∈ slot batch k → f ∈ concat (map snd (lb_todo batch)).
Proof.
  unfold slot. destruct (todo_get _ _) as [fs|] eqn:E; [|by intros ?%elem_of_nil].
  by eapply slot_subset.
Qed.

Lemma response_asg_NoDup (self : LookupBatch) (r : LookupResponse) :
  NoDup (concat (map snd (lb_todo self))) →
  NoDup (map ent_key (missing r ++ found r)) →
  NoDup (map fst (slot_asg self (λ _, NOT_FOUND) (missing r) ++
                  slot_asg self REntity (found r))).
Proof.
  intros Hnd Hr. rewrite map_app, !slot_asg_fst, <- flat_map_app. by apply slots_NoDup.
Qed.

(** The state of the futures of a batch after [lookup_callback] has dealt
    with a well-formed response. *)
Lemma lookup_callback_states (b : nat) (self : LookupBatch) (r : LookupResponse) (w : World) :
  lookup_batches w !! b = Some self →
  batch_futures_wf self w → response_wf self r →
  registry_wf LookupCls w →
  registry LookupCls w !! sorted_items (lb_options self) ≠ Some b →
  ∃ w', lookup_callback b (RpcOk (LookupResult r)) w = (Ok tt, w') ∧
    (∀ e f, e ∈ found r → f ∈ slot self (ent_key e) →
       future_state f w' = Some (Done (REntity e))) ∧
    (∀ e f, e ∈ missing r → f ∈ slot self (ent_key e) →
       future_state f w' = Some (Done NOT_FOUND)) ∧
    (∀ k f, k ∉ map ent_key (missing r ++ found r) → f ∈ slot self k →
       future_state f w' = Some Pending).
Proof.
  intros Hb Hwf Hr Hreg Hsealed.
  destruct Hwf as (Hkeys & Hnd & Hall). destruct Hr as (Hrnd & Hrin & Hdin).
  destruct (deferred_resubmitted_frame b self (deferred r) w Hb Hsealed) as (_ & Hfd & _).
  pose proof (response_asg_NoDup self r Hnd Hrnd) as Hasg.
  assert (∀ f, f ∈ concat (map snd (lb_todo self)) → futures w !! f = Some Pending) as Hpend.
  { intros f Hf. rewrite Forall_forall in Hall. by destruct (Hall f Hf). }
  eexists. split.
  { apply lookup_callback_ok; [done | by repeat split | by repeat split | done..]. }
  unfold future_state. wsimpl. rewrite Hfd.
  split; [|split].
  - intros e f He Hf. apply apply_asg_in; [done| |].
    + apply elem_of_app. right. by apply slot_asg_in.
    + apply lookup_lt_is_Some. rewrite (Hpend f); [done|]. by eapply slot_in_batch.
  - intros e f He Hf. apply apply_asg_in; [done| |].
    + apply elem_of_app. left.
      by apply (slot_asg_in self (λ _, NOT_FOUND) (missing r) e f).
    + apply lookup_lt_is_Some. rewrite (Hpend f); [done|]. by eapply slot_in_batch.
  - intros k f Hk Hf. rewrite apply_asg_other; [by eapply Hpend, slot_in_batch|].
    rewrite map_app, !slot_asg_fst, <- flat_map_app.
    intros (e & He & Hfe)%slots_in.
    destruct (decide (ent_key e = k)) as [<-|Hne].
    + apply Hk. apply list_elem_of_fmap. by exists e.
    + unfold slot in Hf, Hfe.
      destruct (todo_get (SerializeToString k) _) as [fs|] eqn:E;
        [|by apply elem_of_nil in Hf].
      destruct (todo_get (SerializeToString (ent_key e)) _) as [fs'|] eqn:E';
        [|by apply elem_of_nil in Hfe].
      simpl in *. revert Hfe.
      eapply (slots_disjoint (SerializeToString k)); [exact Hnd | | exact E | exact E' | exact Hf].
      unfold SerializeToString. by intros [= ->].
Qed.

(** C5: when the lookup RPC carries an exception, every future of every key
    of the batch receives that exception.  Otherwise the futures of a key of
    the found partition are resolved with the found entity, and those of a
    key of the missing partition with the [_NOT_FOUND] sentinel, as a
    result and not as an error. *)
Theorem lookup_response_demux (b : nat) (self : LookupBatch) (w : World) :
  lookup_batches w !! b = Some self → batch_futures_wf self w →
  (∀ exception, ∃ w',
     lookup_callback b (RpcExc exception) w = (Ok tt, w') ∧
     ∀ k f, f ∈ slot self k → future_state f w' = Some (Failed exception)) ∧
  (∀ r, response_wf self r → registry_wf LookupCls w →
     registry LookupCls w !! sorted_items (lb_options self) ≠ Some b →
     ∃ w', lookup_callback b (RpcOk (LookupResult r)) w = (Ok tt, w') ∧
       (∀ e f, e ∈ found r → f ∈ slot self (ent_key e) →
          future_state f w' = Some (Done (REntity e))) ∧
       (∀ e f, e ∈ missing r → f ∈ slot self (ent_key e) →
          future_state f w' = Some (Done NOT_FOUND))).
Proof.
  intros Hb Hwf. split.
  - intros e. destruct Hwf as (Hkeys & Hnd & Hall).
    eexists. split; [by apply lookup_callback_exception|].
    intros k f Hf. apply slot_in_batch in Hf.
    unfold future_state. wsimpl. apply apply_asg_in.
    + rewrite map_map. simpl. by rewrite map_id.
    + apply list_elem_of_fmap. by exists f.
    + rewrite Forall_forall in Hall. destruct (Hall f Hf) as [Hp _].
      apply lookup_lt_is_Some. by rewrite Hp.
  - intros r Hr Hreg Hsealed.
    destruct (lookup_callback_states b self r w Hb Hwf Hr Hreg Hsealed)
      as (w' & H1 & H2 & H3 & _).
    by exists w'.
Qed.

Lemma lookup_response_demux_witness :
  let w := exec (run ndb.lookup (sample_key 1) []; run ndb.lookup (sample_key 2) [];
                 run ndb.lookup (sample_key 1) []; fire_idle) (empty_world PyNone) in
  (∃ w', lookup_callback 0 (RpcExc (RpcFailure 14)) w = (Ok tt, w') ∧
         future_state 0 w' = Some (Failed (RpcFailure 14)) ∧
         future_state 1 w' = Some (Failed (RpcFailure 14)) ∧
         future_state 2 w' = Some (Failed (RpcFailure 14))) ∧
  (∃ w', lookup_callback 0
           (RpcOk (LookupResult (mkLookupResponse [sample_entity 1] [sample_entity 2] []))) w
         = (Ok tt, w') ∧
         future_state 0 w' = Some (Done (REntity (sample_entity 1))) ∧
         future_state 1 w' = Some (Done NOT_FOUND) ∧
         future_state 2 w' = Some (Done (REntity (sample_entity 1)))).
Proof.
  intros w.
  set (self := mkLookupBatch [] [(Serialized (sample_key 1), [0; 2]);
                                 (Serialized (sample_key 2), [1])]).
  assert (lookup_batches w !! 0 = Some self) as Hb by (vm_compute; reflexivity).
  assert (batch_futures_wf self w) as Hwf.
  { split; [|split].
    - apply (bool_decide_unpack _). vm_compute. reflexivity.
    - apply (bool_decide_unpack _). vm_compute. reflexivity.
    - repeat constructor; unfold unawaited; vm_compute; constructor. }
  destruct (lookup_response_demux 0 self w Hb Hwf) as [Hexc Hok].
  split.
  - destruct (Hexc (RpcFailure 14)) as (w' & E & H). exists w'. split; [exact E|].
    split; [|split].
    + apply (H (sample_key 1)). vm_compute. elem_of_list.
    + apply (H (sample_key 2)). vm_compute. elem_of_list.
    + apply (H (sample_key 1)). vm_compute. elem_of_list.
  - assert (registry LookupCls w = ∅) as Hreg by (vm_compute; reflexivity).
    destruct (Hok (mkLookupResponse [sample_entity 1] [sample_entity 2] []))
      as (w' & E & Hf & Hm).
    + split; [|split].
      * apply (bool_decide_unpack _). vm_compute. reflexivity.
      * intros e He. cbn in He.
        apply elem_of_cons in He as [->|He]; [vm_compute; eauto|].
        apply elem_of_cons in He as [->|He]; [vm_compute; eauto|].
        by apply elem_of_nil in He.
      * intros k Hk. by apply elem_of_nil in Hk.
    + split.
      * intros k b. rewrite Hreg, lookup_empty. discriminate.
      * intros k k' b. rewrite Hreg, lookup_empty. discriminate.
    + rewrite Hreg, lookup_empty. discriminate.
    + exists w'. split; [exact E|]. split; [|split].
      * apply (Hf (sample_entity 1)); [elem_of_list|]. vm_compute. elem_of_list.
      * apply (Hm (sample_entity 2)); [elem_of_list|]. vm_compute. elem_of_list.
      * apply (Hf (sample_entity 1)); [elem_of_list|]. vm_compute. elem_of_list.
Defined.










(** *** Consecutive lookups *)

Lemma add_keys_NoDup (keys : list Key_pb) (n : nat) (todo : list (KeyBytes * list nat)) :
  NoDup (map fst todo) → NoDup (map fst (add_keys keys n todo)).
Proof.
  revert n todo. induction keys as [|k keys IH]; intros n todo H; [done|].
  simpl. by apply IH, todo_extend_NoDup.
Qed.

Lemma add_keys_slot (keys : list Key_pb) (n : nat) (todo : list (KeyBytes * list nat))
    (k : Key_pb) :
  default [] (todo_get (SerializeToString k) (add_keys keys n todo)) =
    default [] (todo_get (SerializeToString k) todo) ++ futures_of_key k keys n.
Proof.
  revert n todo. induction keys as [|k' keys IH]; intros n todo; simpl.
  - by rewrite app_nil_r.
  - rewrite IH. destruct (decide (k' = k)) as [->|Hne].
    + rewrite todo_get_extend_eq. simpl. by rewrite <- app_assoc.
    + rewrite todo_get_extend_ne; [done|]. unfold SerializeToString. by intros [= ->].
Qed.

Lemma add_keys_member (keys : list Key_pb) (n : nat) (todo : list (KeyBytes * list nat))
    (k : Key_pb) :
  SerializeToString k ∈ map fst (add_keys keys n todo) ↔
  SerializeToString k ∈ map fst todo ∨ k ∈ keys.
Proof.
  revert n todo. induction keys as [|k' keys IH]; intros n todo; simpl.
  - rewrite elem_of_nil. tauto.
  - rewrite IH, todo_extend_keys, elem_of_app, elem_of_cons.
    destruct (todo_get (SerializeToString k') todo) eqn:E.
    + rewrite elem_of_nil. split; [tauto|]. intros [H|[->|H]]; [tauto| |tauto].
      left. left. apply todo_get_elem in E. apply list_elem_of_fmap.
      by eexists (_, _).
    + rewrite list_elem_of_singleton. unfold SerializeToString. split.
      * intros [[H|[= ->]]|H]; tauto.
      * intros [H|[->|H]]; tauto.
Qed.

Lemma add_keys_futures (keys : list Key_pb) (n : nat) (todo : list (KeyBytes * list nat)) :
  concat (map snd (add_keys keys n todo)) ≡ₚ
    concat (map snd todo) ++ seq n (length keys).
Proof.
  revert n todo. induction keys as [|k keys IH]; intros n todo; simpl.
  - by rewrite app_nil_r.
  - rewrite IH, todo_extend_futures. by rewrite <- app_assoc.
Qed.

Lemma futures_of_key_call (k : Key_pb) (keys : list Key_pb) (n i : nat) :
  keys !! i = Some k → n + i ∈ futures_of_key k keys n.
Proof.
  revert n i. induction keys as [|k' keys IH]; intros n [|i] H; simpl in *; try done.
  - injection H as ->. rewrite decide_True; [|done]. rewrite Nat.add_0_r. left.
  - apply elem_of_app. right. replace (n + S i) with (S n + i) by lia. by apply IH.
Qed.

Lemma lookup_all_existing (keys : list Key_pb) (options : list (string * PyVal)) (w : World)
    (b : nat) (batch : LookupBatch) :
  registry LookupCls w !! sorted_items options = Some b →
  lookup_batches w !! b = Some batch →
  _check_unsupported_options options = Ok tt →
  lookup_all keys options w =
    (Ok (seq (length (futures w)) (length keys)),
     upd_lookup_batches (λ l, <[b := mkLookupBatch (lb_options batch)
           (add_keys keys (length (futures w)) (lb_todo batch))]> l)
       (upd_futures (λ fs, fs ++ replicate (length keys) Pending) w)).
Proof.
  intros Hr Hb Hc. revert w batch Hr Hb.
  induction keys as [|k keys IH]; intros w batch Hr Hb.
  - simpl. unfold ret. f_equal. unfold upd_lookup_batches, upd_futures. wsimpl.
    rewrite app_nil_r, list_insert_id; [by rewrite world_eta|]. by destruct batch.
  - cbn [lookup_all]. unfold bind at 1.
    rewrite (lookup_existing k options w b batch Hr Hb Hc).
    unfold bind at 1. unfold key_added.
    erewrite IH; [| done |].
    2: { wsimpl. apply list_lookup_insert_eq. by apply lookup_lt_is_Some; rewrite Hb. }
    unfold ret. wsimpl. rewrite length_app, Nat.add_1_r. cbn [lb_options lb_todo].
    f_equal. unfold upd_lookup_batches, upd_futures. wsimpl.
    rewrite list_insert_insert_eq, <- app_assoc. done.
Qed.

Lemma lookup_all_new (keys : list Key_pb) (options : list (string * PyVal)) (w : World) :
  registry LookupCls w !! sorted_items options = None →
  _check_unsupported_options options = Ok tt →
  keys ≠ [] →
  lookup_all keys options w =
    (Ok (seq (length (futures w)) (length keys)), keys_added keys options w).
Proof.
  intros Hr Hc Hk. destruct keys as [|k keys]; [done|].
  cbn [lookup_all]. unfold bind at 1. rewrite (lookup_new k options w Hr Hc).
  unfold bind at 1. unfold key_added, batch_opened.
  erewrite lookup_all_existing; [| | | done].
  2: { unfold registry. wsimpl. rewrite lookup_insert_eq. apply lookup_insert_eq. }
  2: { wsimpl. apply list_lookup_insert_eq. rewrite length_app. simpl. lia. }
  unfold ret, keys_added, batch_opened. wsimpl. rewrite length_app, Nat.add_1_r.
  cbn [lb_options lb_todo add_keys].
  f_equal. unfold upd_lookup_batches, upd_futures. wsimpl.
  rewrite list_insert_insert_eq, <- app_assoc. done.
Qed.

Lemma idle_flush_new (keys : list Key_pb) (options : list (string * PyVal)) (w : World) :
  registry LookupCls w !! sorted_items options = None →
  read_options_conflict options w = false →
  idle LookupCls (sorted_items options) (keys_added keys options w) =
    (Ok tt, keys_flushed keys options w).
Proof.
  intros Hr Hconf.
  assert (registry LookupCls (keys_added keys options w) =
          <[sorted_items options := length (lookup_batches w)]> (registry LookupCls w)) as Hreg.
  { unfold keys_added, batch_opened, registry. wsimpl. by rewrite lookup_insert_eq. }
  erewrite idle_pops; [|rewrite Hreg; apply lookup_insert_eq].
  erewrite LookupBatch_idle_callback_eq.
  2: { unfold keys_added, batch_opened. wsimpl. apply list_lookup_insert_eq.
       rewrite length_app. simpl. lia. }
  cbn [lb_options lb_todo].
  rewrite (read_options_conflict_ctx _ w); [|done]. rewrite Hconf.
  rewrite Hreg, delete_insert_eq. rewrite (delete_id _ _ Hr).
  reflexivity.
Qed.

Lemma keys_flushed_batch (keys : list Key_pb) (options : list (string * PyVal)) (w : World) :
  lookup_batches (keys_flushed keys options w) !! length (lookup_batches w) =
    Some (mkLookupBatch options (add_keys keys (length (futures w)) [])).
Proof.
  unfold keys_flushed, keys_added, batch_opened. wsimpl.
  apply list_lookup_insert_eq. rewrite length_app. simpl. lia.
Qed.

Lemma keys_flushed_futures_wf (keys : list Key_pb) (options : list (string * PyVal))
    (w : World) :
  waiters_wf w →
  batch_futures_wf (mkLookupBatch options (add_keys keys (length (futures w)) []))
    (keys_flushed keys options w).
Proof.
  intros Hw. unfold batch_futures_wf. cbn [lb_todo].
  pose proof (add_keys_futures keys (length (futures w)) []) as Hperm. simpl in Hperm.
  split; [|split].
  - apply add_keys_NoDup. constructor.
  - rewrite Hperm. apply NoDup_seq.
  - rewrite Hperm. apply Forall_forall. intros f Hf.
    apply elem_of_seq in Hf as [Hge Hlt]. split.
    + unfold pending, future_state, keys_flushed, keys_added, batch_opened. wsimpl.
      rewrite lookup_app_r; [|done]. apply lookup_replicate_2. lia.
    + unfold unawaited, keys_flushed, keys_added, batch_opened. wsimpl.
      eapply Forall_impl; [exact Hw|]. intros [g c] Hg. simpl in *. lia.
Qed.

Lemma keys_flushed_registry (keys : list Key_pb) (options : list (string * PyVal))
    (w : World) :
  registry LookupCls (keys_flushed keys options w) = registry LookupCls w.
Proof. unfold keys_flushed, registry. wsimpl. by rewrite lookup_insert_eq. Qed.

(** C3: lookup calls made one after the other with the same options, when
    no batch is open for them, all land in one batch, opened by the first
    call together with its single flush callback.  The batch has one slot
    per distinct key, holding the futures of all the calls for that key, in
    call order.  The flush makes exactly one read call, whose request names
    each distinct key once.  On a response that answers keys of the batch,
    each once, the futures of two calls for the same key end in the same
    state: the found entity, the sentinel for a missing key, or still
    unresolved when the key was not answered. *)
Theorem concurrent_lookups_coalesce
    (keys : list Key_pb) (options : list (string * PyVal)) (w : World) :
  registry_wf LookupCls w → waiters_wf w →
  _check_unsupported_options options = Ok tt →
  read_options_conflict options w = false →
  registry LookupCls w !! sorted_items options = None →
  keys ≠ [] →
  let n := length (futures w) in
  let b := length (lookup_batches w) in
  let okey := sorted_items options in
  ∃ w1 batch w2 request_keys,
    lookup_all keys options w = (Ok (seq n (length keys)), w1) ∧
    registry LookupCls w1 !! okey = Some b ∧
    idlers w1 = idlers w ++ [IdleFlush LookupCls okey] ∧
    rpc_log w1 = rpc_log w ∧
    lookup_batches w1 !! b = Some batch ∧
    NoDup (map fst (lb_todo batch)) ∧
    (∀ k, slot batch k = futures_of_key k keys n) ∧
    (∀ i k, keys !! i = Some k → n + i ∈ slot batch k) ∧
    idle LookupCls okey w1 = (Ok tt, w2) ∧
    rpc_log w2 =
      rpc_log w ++ [LookupRequest request_keys
                      (mkReadOptions (read_consistency_of options)
                         (_get_transaction options w))] ∧
    NoDup request_keys ∧ (∀ k, k ∈ request_keys ↔ k ∈ keys) ∧
    rpc_queue w2 = rpc_queue w ++ [(length (rpc_log w), CbLookup b)] ∧
    registry LookupCls w2 !! okey = None ∧
    ∀ r, response_wf batch r →
      ∃ w3, lookup_callback b (RpcOk (LookupResult r)) w2 = (Ok tt, w3) ∧
        (∀ e i, e ∈ found r → keys !! i = Some (ent_key e) →
           future_state (n + i) w3 = Some (Done (REntity e))) ∧
        (∀ e i, e ∈ missing r → keys !! i = Some (ent_key e) →
           future_state (n + i) w3 = Some (Done NOT_FOUND)) ∧
        (∀ i j k, keys !! i = Some k → keys !! j = Some k →
           future_state (n + i) w3 = future_state (n + j) w3).
Proof.
  intros Hreg Hw Hc Hconf Hr Hk n b okey.
  set (batch := mkLookupBatch options (add_keys keys n [])).
  assert (∀ k, slot batch k = futures_of_key k keys n) as Hslot.
  { intros k. unfold slot, batch. cbn [lb_todo]. by rewrite add_keys_slot. }
  assert (∀ i k, keys !! i = Some k → n + i ∈ slot batch k) as Hcall.
  { intros i k Hi. rewrite Hslot. by apply futures_of_key_call. }
  assert (NoDup (map fst (lb_todo batch))) as Hnd.
  { apply add_keys_NoDup. constructor. }
  exists (keys_added keys options w), batch, (keys_flushed keys options w),
    (map (λ kv, ParseFromString (fst kv)) (lb_todo batch)).
  split; [by apply lookup_all_new|].
  split. { unfold keys_added, batch_opened, registry. wsimpl.
           rewrite lookup_insert_eq. apply lookup_insert_eq. }
  split; [done|]. split; [done|].
  split. { unfold keys_added, batch_opened. wsimpl. apply list_lookup_insert_eq.
           rewrite length_app. simpl. lia. }
  split; [done|]. split; [done|]. split; [done|].
  split; [by apply idle_flush_new|].
  split; [done|].
  split.
  { rewrite <- (map_map fst ParseFromString). apply NoDup_fmap_2_strong; [|done].
    intros [x] [y] _ _. simpl. by intros ->. }
  split.
  { intros k. rewrite <- (map_map fst ParseFromString). rewrite list_elem_of_fmap. split.
    - intros ([x] & -> & Hx). apply (add_keys_member keys n [] x) in Hx as [Hx|Hx]; [|done].
      by apply elem_of_nil in Hx.
    - intros Hin. exists (SerializeToString k). split; [done|].
      apply add_keys_member. by right. }
  split; [done|].
  split; [by rewrite keys_flushed_registry|].
  intros r Hresp.
  destruct (lookup_callback_states b batch r (keys_flushed keys options w))
    as (w3 & E & Hf & Hm & Hp).
  { apply keys_flushed_batch. }
  { by apply keys_flushed_futures_wf. }
  { done. }
  { destruct Hreg as [Hlt Hinj]. split.
    - intros k b'. rewrite keys_flushed_registry. intros H. apply Hlt in H.
      unfold keys_flushed, keys_added, batch_opened. cbn in *.
      rewrite length_insert, length_app. lia.
    - intros k k' b'. rewrite keys_flushed_registry. apply Hinj. }
  { rewrite keys_flushed_registry. unfold batch. cbn [lb_options]. by rewrite Hr. }
  exists w3. split; [done|]. split; [|split].
  - intros e i He Hi. apply (Hf e); [done|]. by apply Hcall.
  - intros e i He Hi. apply (Hm e); [done|]. by apply Hcall.
  - intros i j k Hi Hj.
    pose proof (Hcall i k Hi) as Hfi. pose proof (Hcall j k Hj) as Hfj.
    destruct (decide (k ∈ map ent_key (missing r))) as [Hin|Hnm].
    { apply list_elem_of_fmap in Hin as (e & -> & He).
      by rewrite (Hm e (n + i)), (Hm e (n + j)). }
    destruct (decide (k ∈ map ent_key (found r))) as [Hin|Hnf].
    { apply list_elem_of_fmap in Hin as (e & -> & He).
      by rewrite (Hf e (n + i)), (Hf e (n + j)). }
    assert (k ∉ map ent_key (missing r ++ found r)) as Hnone.
    { rewrite map_app, elem_of_app. tauto. }
    by rewrite (Hp k (n + i)), (Hp k (n + j)).
Qed.

Lemma waiters_wf_empty (transaction : PyVal) : waiters_wf (empty_world transaction).
Proof. constructor. Qed.

Lemma concurrent_lookups_coalesce_witness :
  ∃ w1 w2 request_keys,
    lookup_all [sample_key 1; sample_key 2; sample_key 1] [] (empty_world PyNone)
      = (Ok [0; 1; 2], w1) ∧
    idle LookupCls [] w1 = (Ok tt, w2) ∧
    rpc_log w2 = [LookupRequest request_keys (mkReadOptions PyNone PyNone)] ∧
    NoDup request_keys ∧
    (∀ k, k ∈ request_keys ↔ k ∈ [sample_key 1; sample_key 2; sample_key 1]).
Proof.
  destruct (concurrent_lookups_coalesce [sample_key 1; sample_key 2; sample_key 1] []
              (empty_world PyNone) (registry_wf_empty _ _) (waiters_wf_empty _)
              eq_refl eq_refl)
    as (w1 & batch & w2 & request_keys & H1 & _ & _ & _ & _ & _ & _ & _ & H2 & H3 & H4 & H5
        & _).
  - vm_compute. reflexivity.
  - discriminate.
  - exists w1, w2, request_keys. repeat split; try done; by apply H5.
Defined.

(** *** Invariants of the whole system *)

Section keeps.
Context (J : World → Prop).

Lemma keeps_weaken {A} (c : M A) (Q Q' : A → Prop) :
  keeps J c Q → (∀ a, Q a → Q' a) → keeps J c Q'.
Proof. intros H HQ w Hw. destruct (H w Hw) as [H1 H2]. split; [done|]. eauto. Qed.

Lemma keeps_bind {A B} (c : M A) (k : A → M B) (Q : A → Prop) (R : B → Prop) :
  keeps J c Q → (∀ a, Q a → keeps J (k a) R) → keeps J (bind c k) R.
Proof.
  intros Hc Hk w Hw. destruct (Hc w Hw) as [H1 H2]. unfold bind.
  destruct (c w) as [[a|e] w']; simpl in *; [|split; [done|discriminate]].
  apply Hk; [by apply H2 | done].
Qed.

Lemma keeps_ret {A} (a : A) : keeps J (ret a) (λ _, True).
Proof. intros w Hw. by split. Qed.

Lemma keeps_raise {A} (e : Exn) : keeps J (raise (A := A) e) (λ _, True).
Proof. intros w Hw. by split. Qed.

Lemma keeps_gets {A} (f : World → A) : keeps J (gets f) (λ _, True).
Proof. intros w Hw. by split. Qed.

Lemma keeps_lift {A} (r : Res A) : keeps J (lift r) (λ _, True).
Proof. intros w Hw. by split. Qed.

Lemma keeps_modify (f : World → World) :
  (∀ w, J w → J (f w)) → keeps J (modify f) (λ _, True).
Proof. intros H w Hw. split; [by apply H | done]. Qed.

Lemma keeps_for {A} (l : list A) (body : A → M unit) :
  (∀ x, keeps J (body x) (λ _, True)) → keeps J (for_ l body) (λ _, True).
Proof.
  intros H. induction l as [|x l IH]; [apply keeps_ret|].
  simpl. eapply keeps_bind; [apply H | by intros].
Qed.
End keeps.

Lemma frames_bind {A B} (c : M A) (k : A → M B) :
  frames c → (∀ a, frames (k a)) → frames (bind c k).
Proof.
  intros Hc Hk w. unfold bind. specialize (Hc w).
  destruct (c w) as [[a|e] w']; [|done].
  specialize (Hk a w'). simpl in *. destruct Hc as (<- & <- & <-). done.
Qed.

Lemma frames_ret {A} (a : A) : frames (ret a).
Proof. done. Qed.

Lemma frames_raise {A} (e : Exn) : frames (raise (A := A) e).
Proof. done. Qed.

Lemma frames_gets {A} (f : World → A) : frames (gets f).
Proof. done. Qed.

Lemma frames_lift {A} (r : Res A) : frames (lift r).
Proof. done. Qed.

Lemma frames_for {A} (l : list A) (body : A → M unit) :
  (∀ x, frames (body x)) → frames (for_ l body).
Proof.
  intros H. induction l as [|x l IH]; [done|].
  simpl. apply frames_bind; [apply H | by intros].
Qed.

Lemma frames_keeps {A} (J : World → Prop) (c : M A) :
  reads_registry J → frames c → keeps J c (λ _, True).
Proof.
  intros HJ Hc w Hw. split; [|done]. destruct (Hc w) as (H1 & H2 & H3). by eapply HJ.
Qed.

Create HintDb frames discriminated.

Ltac frames_step :=
  first
    [ apply frames_bind; [|intros ?]
    | apply frames_ret
    | apply frames_raise
    | apply frames_gets
    | apply frames_lift
    | apply frames_for; intros ?
    | solve [auto with frames nocore]
    | progress cbv zeta
    | match goal with
      | |- frames (match ?x with _ => _ end) => destruct x
      | |- frames (let (_, _) := ?x in _) => destruct x
      end
    | (intros ?; done) ].

Ltac frames_auto := repeat frames_step.

Lemma frames_new_future : frames new_future.
Proof. done. Qed.
Lemma frames_settle f s : frames (settle f s).
Proof. intros w. unfold settle. by repeat case_match. Qed.
Lemma frames_add_idle cb : frames (add_idle cb).
Proof. done. Qed.
Lemma frames_queue_rpc rpc cb : frames (queue_rpc rpc cb).
Proof. done. Qed.
Lemma frames_remote_call request : frames (remote_call request).
Proof. done. Qed.
Lemma frames_await f k : frames (await f k).
Proof. done. Qed.
Lemma frames_new_mutation m : frames (new_mutation m).
Proof. done. Qed.
Lemma frames_upd_tx_batch b f : frames (upd_tx_batch b f).
Proof. done. Qed.
Lemma frames_get_tx_batch b : frames (get_tx_batch b).
Proof. intros w. unfold get_tx_batch. by case_match. Qed.
Lemma frames_get_lookup_batch b : frames (get_lookup_batch b).
Proof. intros w. unfold get_lookup_batch. by case_match. Qed.
Lemma frames_get_nontx_batch b : frames (get_nontx_batch b).
Proof. intros w. unfold get_nontx_batch. by case_match. Qed.
#[local] Hint Resolve frames_new_future frames_settle frames_add_idle frames_queue_rpc
  frames_remote_call frames_await frames_new_mutation frames_upd_tx_batch
  frames_get_tx_batch frames_get_lookup_batch frames_get_nontx_batch : frames.

Lemma frames_get_read_options options : frames (_get_read_options options).
Proof. unfold _get_read_options. frames_auto. Qed.
Lemma frames_datastore_lookup keys ro : frames (_datastore_lookup keys ro).
Proof. done. Qed.
Lemma frames_datastore_commit ms t : frames (_datastore_commit ms t).
Proof. done. Qed.
Lemma frames_datastore_allocate_ids keys : frames (_datastore_allocate_ids keys).
Proof. done. Qed.
#[local] Hint Resolve frames_get_read_options frames_datastore_lookup
  frames_datastore_commit frames_datastore_allocate_ids : frames.

Lemma frames_LookupBatch_idle_callback b : frames (LookupBatch_idle_callback b).
Proof. unfold LookupBatch_idle_callback. frames_auto. Qed.
Lemma frames_NonTxBatch_idle_callback b : frames (NonTxBatch_idle_callback b).
Proof. unfold NonTxBatch_idle_callback. frames_auto. Qed.
Lemma frames_commit_finish b tf : frames (commit_finish b tf).
Proof. unfold commit_finish. frames_auto. Qed.
#[local] Hint Resolve frames_LookupBatch_idle_callback frames_NonTxBatch_idle_callback
  frames_commit_finish : frames.
Lemma frames_commit_loop b i tf : frames (commit_loop b i tf).
Proof. unfold commit_loop. frames_auto. Qed.
#[local] Hint Resolve frames_commit_loop : frames.
Lemma frames_TxBatch_commit b : frames (TxBatch_commit b).
Proof. unfold TxBatch_commit. frames_auto. Qed.
Lemma frames_resume s k : frames (resume s k).
Proof. unfold resume. frames_auto. Qed.
#[local] Hint Resolve frames_TxBatch_commit frames_resume : frames.
Lemma frames_resolve f s : frames (resolve f s).
Proof. unfold resolve. frames_auto. Qed.
#[local] Hint Resolve frames_resolve : frames.
Lemma frames_set_result f v : frames (set_result f v).
Proof. unfold set_result. frames_auto. Qed.
Lemma frames_set_exception f e : frames (set_exception f e).
Proof. unfold set_exception. frames_auto. Qed.
#[local] Hint Resolve frames_set_result frames_set_exception : frames.
Lemma frames_get_commit_batch t options : frames (_get_commit_batch t options).
Proof. unfold _get_commit_batch. frames_auto. Qed.
Lemma frames_TxBatch_put b e : frames (TxBatch_put b e).
Proof. unfold TxBatch_put. frames_auto. Qed.
Lemma frames_TxBatch_delete b k : frames (TxBatch_delete b k).
Proof. unfold TxBatch_delete. frames_auto. Qed.
Lemma frames_TxBatch_idle_callback b : frames (TxBatch_idle_callback b).
Proof. unfold TxBatch_idle_callback. frames_auto. Qed.
Lemma frames_allocate_ids_callback rpc ms fs : frames (allocate_ids_callback rpc ms fs).
Proof. unfold allocate_ids_callback. frames_auto. Qed.
#[local] Hint Resolve frames_get_commit_batch frames_TxBatch_put frames_TxBatch_delete
  frames_TxBatch_idle_callback frames_allocate_ids_callback : frames.
Lemma frames_allocate_callback rpc ms fs a : frames (allocate_callback rpc ms fs a).
Proof. unfold allocate_callback. frames_auto. Qed.
Lemma frames_process_commit rpc fs : frames (_process_commit rpc fs).
Proof. unfold _process_commit. frames_auto. Qed.
#[local] Hint Resolve frames_allocate_callback frames_process_commit : frames.
Lemma frames_nontx_commit_callback b rpc : frames (nontx_commit_callback b rpc).
Proof. unfold nontx_commit_callback. frames_auto. Qed.
Lemma frames_tx_commit_callback b f rpc : frames (tx_commit_callback b f rpc).
Proof. unfold tx_commit_callback. frames_auto. Qed.
Lemma frames_resolve_partition b results val : frames (resolve_partition b results val).
Proof. unfold resolve_partition. frames_auto. Qed.
Lemma frames_commit t : frames (ndb.commit t).
Proof. unfold ndb.commit. frames_auto. Qed.

Lemma get_batch_nontx_unsupported (options : list (string * PyVal)) (w : World) (e : Exn) :
  registry NonTxCommitCls w !! sorted_items options = None →
  _check_unsupported_options options = Raise e →
  _get_batch NonTxCommitCls options w =
    (Raise e,
     if ctx_batches w !! NonTxCommitCls is None
     then upd_ctx_batches (λ m, <[NonTxCommitCls := ∅]> m) w else w).
Proof.
  intros H Hc. unfold _get_batch, bind, gets, registry in *.
  destruct (ctx_batches w !! NonTxCommitCls) as [m|] eqn:E; munfold; wsimpl.
  - rewrite E. cbn [from_option id] in *. rewrite H. cbn [new_batch]. by rewrite Hc.
  - rewrite lookup_insert_eq. cbn [from_option id]. rewrite lookup_empty.
    cbn [new_batch]. by rewrite Hc.
Qed.

(** *** A sealed batch stays sealed and keeps its content *)

Section sealed.
Context (cls : BatchCls) (b : nat) (c : LookupBatch + NonTxBatch).

Lemma sealed_with_reads : reads_registry (sealed_with cls b c).
Proof.
  intros w w' H1 H2 H3.
  unfold sealed_with, sealed, store_size, registry, batch_content.
  rewrite H1, H2, H3. done.
Qed.

Lemma keeps_frames {A} (m : M A) : frames m → keeps (sealed_with cls b c) m (λ _, True).
Proof. apply frames_keeps, sealed_with_reads. Qed.

Lemma keeps_get_batch (cls' : BatchCls) (options : list (string * PyVal)) :
  keeps (sealed_with cls b c) (_get_batch cls' options) (λ b', cls' = cls → b' ≠ b).
Proof.
  intros w (Hs & Hc). destruct Hs as [Hlt Hreg].
  destruct (registry cls' w !! sorted_items options) as [b'|] eqn:E.
  { rewrite (get_batch_existing _ _ _ _ E). split; [done|].
    intros a [= <-] -> ->. by apply (Hreg (sorted_items options)). }
  assert (∀ m w', ctx_batches w' = <[cls' := m]> (ctx_batches w) →
            (cls' = cls → ∀ k, m !! k ≠ Some b) →
            ∀ k, registry cls w' !! k ≠ Some b) as Hins.
  { intros m w' Hctx Hm k. unfold registry. rewrite Hctx.
    destruct (decide (cls' = cls)) as [->|Hne].
    - rewrite lookup_insert_eq. by apply Hm.
    - rewrite lookup_insert_ne; [|done]. apply Hreg. }
  destruct cls'.
  - rewrite (get_batch_new_lookup _ _ E). split.
    + split; [split|].
      * unfold store_size in *. destruct cls; wsimpl; rewrite ?length_app; lia.
      * eapply Hins; [done|]. intros <- k. unfold store_size in Hlt.
        destruct (decide (k = sorted_items options)) as [->|Hne].
        -- rewrite lookup_insert_eq. intros [= Hfresh]. lia.
        -- rewrite lookup_insert_ne; [|done]. apply Hreg.
      * unfold batch_content in *. destruct cls; wsimpl; [|done].
        destruct (lookup_batches w !! b) eqn:Eb; [|done].
        by rewrite (lookup_app_l_Some _ _ _ _ Eb).
    + intros a [= <-] <-. unfold store_size in Hlt. lia.
  - destruct (_check_unsupported_options options) as [[]|e] eqn:Ec.
    + rewrite (get_batch_new_nontx options w E Ec). split.
      * split; [split|].
        -- unfold store_size in *. destruct cls; wsimpl; rewrite ?length_app; lia.
        -- eapply Hins; [done|]. intros <- k. unfold store_size in Hlt.
           destruct (decide (k = sorted_items options)) as [->|Hne].
           ++ rewrite lookup_insert_eq. intros [= Hfresh]. lia.
           ++ rewrite lookup_insert_ne; [|done]. apply Hreg.
        -- unfold batch_content in *. destruct cls; wsimpl; [done|].
           destruct (nontx_batches w !! b) eqn:Eb; [|done].
           by rewrite (lookup_app_l_Some _ _ _ _ Eb).
      * intros a [= <-] <-. unfold store_size in Hlt. lia.
    + rewrite (get_batch_nontx_unsupported options w e E Ec).
      split; [|discriminate].
      destruct (ctx_batches w !! NonTxCommitCls) as [m|] eqn:Em; [done|].
      split; [split|]; [done | | done].
      eapply (Hins ∅); [done|]. intros <- k. unfold registry in Hreg.
      specialize (Hreg k). by rewrite Em in Hreg.
Qed.

Lemma keeps_set_todo (b' : nat) (todo : list (KeyBytes * list nat)) :
  (cls = LookupCls → b' ≠ b) →
  keeps (sealed_with cls b c) (set_todo b' todo) (λ _, True).
Proof.
  intros Hne. apply keeps_modify. intros w [[Hlt Hreg] Hc].
  unfold sealed_with, sealed, store_size, batch_content, registry in *.
  destruct cls; wsimpl; [|done].
  rewrite length_alter, list_lookup_alter_ne; [done|]. by apply Hne.
Qed.

Lemma keeps_LookupBatch_add (b' : nat) (key : Key_pb) :
  (cls = LookupCls → b' ≠ b) →
  keeps (sealed_with cls b c) (LookupBatch_add b' key) (λ _, True).
Proof.
  intros Hne. unfold LookupBatch_add.
  eapply keeps_bind; [apply keeps_frames; frames_auto | intros future _].
  eapply keeps_bind; [apply keeps_frames; frames_auto | intros batch _].
  eapply keeps_bind; [by apply keeps_set_todo | intros _ _]. apply keeps_ret.
Qed.

Lemma keeps_alter_nontx (b' : nat) (f : NonTxBatch → NonTxBatch) :
  (cls = NonTxCommitCls → b' ≠ b) →
  keeps (sealed_with cls b c) (modify (upd_nontx_batches (alter f b'))) (λ _, True).
Proof.
  intros Hne. apply keeps_modify. intros w [[Hlt Hreg] Hc].
  unfold sealed_with, sealed, store_size, batch_content, registry in *.
  destruct cls; wsimpl; [done|].
  rewrite length_alter, list_lookup_alter_ne; [done|]. by apply Hne.
Qed.

Lemma keeps_NonTxBatch_put (b' : nat) (entity_pb : Entity) :
  (cls = NonTxCommitCls → b' ≠ b) →
  keeps (sealed_with cls b c) (NonTxBatch_put b' entity_pb) (λ _, True).
Proof.
  intros Hne. unfold NonTxBatch_put.
  eapply keeps_bind; [apply keeps_frames; frames_auto | intros future _].
  eapply keeps_bind; [by apply keeps_alter_nontx | intros _ _].
  eapply keeps_bind; [by apply keeps_alter_nontx | intros _ _]. apply keeps_ret.
Qed.

Lemma keeps_NonTxBatch_delete (b' : nat) (key : Key_pb) :
  (cls = NonTxCommitCls → b' ≠ b) →
  keeps (sealed_with cls b c) (NonTxBatch_delete b' key) (λ _, True).
Proof.
  intros Hne. unfold NonTxBatch_delete.
  eapply keeps_bind; [apply keeps_frames; frames_auto | intros future _].
  eapply keeps_bind; [by apply keeps_alter_nontx | intros _ _].
  eapply keeps_bind; [by apply keeps_alter_nontx | intros _ _]. apply keeps_ret.
Qed.

Lemma keeps_idle (cls' : BatchCls) (options_key : list (string * PyVal)) :
  keeps (sealed_with cls b c) (idle cls' options_key) (λ _, True).
Proof.
  unfold idle.
  eapply keeps_bind; [apply keeps_gets | intros [b'|] _]; [|apply keeps_raise].
  eapply keeps_bind; [|intros _ _; apply keeps_frames; destruct cls'; frames_auto].
  apply keeps_modify. intros w [[Hlt Hreg] Hc].
  unfold sealed_with, sealed, store_size, batch_content, registry in *. wsimpl.
  split; [|done]. split; [done|]. intros k.
  destruct (decide (cls' = cls)) as [->|Hne].
  - rewrite lookup_insert_eq. cbn [from_option id].
    destruct (decide (k = options_key)) as [->|Hk].
    + by rewrite lookup_delete_eq.
    + rewrite lookup_delete_ne; [|done]. apply Hreg.
  - rewrite lookup_insert_ne; [|done]. apply Hreg.
Qed.

Lemma keeps_resubmit_deferred (b0 : nat) (options : list (string * PyVal))
    (deferred : list Key_pb) :
  keeps (sealed_with cls b c) (resubmit_deferred b0 options deferred) (λ _, True).
Proof.
  unfold resubmit_deferred. destruct deferred as [|k ds]; [apply keeps_ret|].
  eapply keeps_bind; [apply keeps_get_batch | intros nb Hnb].
  apply keeps_for. intros key. cbv zeta.
  eapply keeps_bind; [apply keeps_frames; frames_auto | intros next _].
  eapply keeps_bind; [apply keeps_set_todo; intros ->; by apply Hnb | intros _ _].
  eapply keeps_bind; [apply keeps_frames; frames_auto | intros self _].
  destruct (todo_get _ _); [|apply keeps_raise].
  eapply keeps_bind; [apply keeps_frames; frames_auto | intros next' _].
  apply keeps_set_todo. intros ->. by apply Hnb.
Qed.

Lemma keeps_lookup_callback (b0 : nat) (rpc : RpcOutcome) :
  keeps (sealed_with cls b c) (lookup_callback b0 rpc) (λ _, True).
Proof.
  unfold lookup_callback. destruct rpc as [e|[r|mr|ks]];
    try (apply keeps_frames; solve [frames_auto]).
  eapply keeps_bind; [apply keeps_frames; frames_auto | intros self _].
  eapply keeps_bind; [apply keeps_resubmit_deferred | intros _ _].
  apply keeps_frames.
  apply frames_bind; [apply frames_resolve_partition | intros _].
  apply frames_resolve_partition.
Qed.

Lemma keeps_lookup (key : Key_pb) (options : list (string * PyVal)) :
  keeps (sealed_with cls b c) (ndb.lookup key options) (λ _, True).
Proof.
  unfold ndb.lookup.
  eapply keeps_bind; [apply keeps_lift | intros _ _].
  eapply keeps_bind; [apply keeps_get_batch | intros nb Hnb].
  apply keeps_LookupBatch_add. intros ->. by apply Hnb.
Qed.

Lemma keeps_put (entity_pb : Entity) (options : list (string * PyVal)) :
  keeps (sealed_with cls b c) (ndb.put entity_pb options) (λ _, True).
Proof.
  unfold ndb.put.
  eapply keeps_bind; [apply keeps_gets | intros t _].
  destruct (truthy t).
  - apply keeps_frames. frames_auto.
  - eapply keeps_bind; [apply keeps_get_batch | intros nb Hnb].
    apply keeps_NonTxBatch_put. intros ->. by apply Hnb.
Qed.

Lemma keeps_delete (key : Key_pb) (options : list (string * PyVal)) :
  keeps (sealed_with cls b c) (ndb.delete key options) (λ _, True).
Proof.
  unfold ndb.delete.
  eapply keeps_bind; [apply keeps_gets | intros t _].
  destruct (truthy t).
  - apply keeps_frames. frames_auto.
  - eapply keeps_bind; [apply keeps_get_batch | intros nb Hnb].
    apply keeps_NonTxBatch_delete. intros ->. by apply Hnb.
Qed.

(** Every step of the system keeps a sealed batch sealed, with its
    content. *)
Lemma keeps_step (o : Op) : keeps (sealed_with cls b c) (step o) (λ _, True).
Proof.
  destruct o as [key options|entity_pb options|key options|t|cb|cb outcome]; cbn [step].
  - eapply keeps_bind; [apply keeps_lookup | intros; apply keeps_ret].
  - eapply keeps_bind; [apply keeps_put | intros; apply keeps_ret].
  - eapply keeps_bind; [apply keeps_delete | intros; apply keeps_ret].
  - eapply keeps_bind; [apply keeps_frames, frames_commit | intros; apply keeps_ret].
  - destruct cb; cbn [run_idle_cb]; [apply keeps_idle|].
    apply keeps_frames. frames_auto.
  - destruct cb; cbn [run_rpc_cb].
    + apply keeps_lookup_callback.
    + apply keeps_frames, frames_nontx_commit_callback.
    + apply keeps_frames. frames_auto.
    + apply keeps_frames, frames_tx_commit_callback.
Qed.
End sealed.

Lemma sealed_with_run_ops (cls : BatchCls) (b : nat) (c : LookupBatch + NonTxBatch)
    (ops : list Op) (w : World) :
  sealed_with cls b c w → sealed_with cls b c (run_ops ops w).
Proof.
  revert w. induction ops as [|o ops IH]; intros w H; [done|].
  simpl. apply IH. by apply (keeps_step cls b c o w).
Qed.

(** C8: the registry maps a (class, option key) pair to at most one open
    batch.  [_get_batch] returns the open batch of the key when there is
    one, and changes nothing; otherwise it creates a batch, registers it
    under the key and schedules one flush callback for it.  That callback
    takes the batch out of the registry and then runs its flush, so the
    flush runs on a batch that no key leads to; and whatever happens
    afterwards (calls of the entry points, callbacks that fire, outbound
    calls that complete), the batch stays out of the registry and its
    content stays what it was. *)
Theorem registry_one_open_batch
    (cls : BatchCls) (options : list (string * PyVal)) (w : World) :
  registry_wf cls w →
  let okey := sorted_items options in
  (∀ b, registry cls w !! okey = Some b → _get_batch cls options w = (Ok b, w)) ∧
  (registry cls w !! okey = None →
   (cls = NonTxCommitCls → _check_unsupported_options options = Ok tt) →
     ∃ w', _get_batch cls options w = (Ok (store_size cls w), w') ∧
       registry cls w' = <[okey := store_size cls w]> (registry cls w) ∧
       idlers w' = idlers w ++ [IdleFlush cls okey] ∧
       store_size cls w' = S (store_size cls w) ∧
       registry_wf cls w') ∧
  (∀ b, registry cls w !! okey = Some b →
     let popped := upd_ctx_batches (λ m, <[cls := delete okey (registry cls w)]> m) w in
     idle cls okey w =
       match cls with
       | LookupCls => LookupBatch_idle_callback b
       | NonTxCommitCls => NonTxBatch_idle_callback b
       end popped ∧
     sealed cls b popped ∧
     ∀ c ops, batch_content cls b w = Some c →
       sealed_with cls b c (run_ops ops (exec (idle cls okey) w))).
Proof.
  intros [Hlt Hinj] okey. split; [|split].
  - intros b Hb. by apply get_batch_existing.
  - intros Hnone Hc.
    assert (∀ w', registry cls w' = <[okey := store_size cls w]> (registry cls w) →
              store_size cls w' = S (store_size cls w) → registry_wf cls w') as Hwf.
    { intros w' Hr Hs. split.
      - intros k b. rewrite Hr, Hs. destruct (decide (k = okey)) as [->|Hne].
        + rewrite lookup_insert_eq. intros [= <-]. lia.
        + rewrite lookup_insert_ne; [|done]. intros H%Hlt. lia.
      - intros k k' b. rewrite Hr.
        destruct (decide (k = okey)) as [->|Hne], (decide (k' = okey)) as [->|Hne'];
          rewrite ?lookup_insert_eq, ?lookup_insert_ne; try done.
        + intros [= <-] H%Hlt. lia.
        + intros H%Hlt [= <-]. lia.
        + apply Hinj. }
    destruct cls.
    + eexists. split; [by apply get_batch_new_lookup|].
      assert (registry LookupCls (batch_opened options w) =
              <[okey := store_size LookupCls w]> (registry LookupCls w)) as Hr.
      { unfold registry, batch_opened. wsimpl. by rewrite lookup_insert_eq. }
      split; [exact Hr|]. split; [done|].
      assert (store_size LookupCls (batch_opened options w) = S (store_size LookupCls w))
        as Hs by (unfold store_size, batch_opened; wsimpl; rewrite length_app; simpl; lia).
      split; [exact Hs|]. by apply Hwf.
    + eexists. split; [by apply get_batch_new_nontx; [|apply Hc]|].
      split. { unfold registry. wsimpl. by rewrite lookup_insert_eq. }
      split; [done|].
      split. { unfold store_size. wsimpl. rewrite length_app. simpl. lia. }
      apply Hwf.
      * unfold registry. wsimpl. by rewrite lookup_insert_eq.
      * unfold store_size. wsimpl. rewrite length_app. simpl. lia.
  - intros b Hb popped.
    assert (sealed cls b popped) as Hsealed.
    { split; [by apply (Hlt okey)|]. intros k. subst popped. unfold registry at 1. wsimpl.
      rewrite lookup_insert_eq. cbn [from_option id].
      destruct (decide (k = okey)) as [->|Hne].
      - by rewrite lookup_delete_eq.
      - rewrite lookup_delete_ne; [|done]. intros Hk. apply Hne. by apply (Hinj _ _ b). }
    split; [by apply idle_pops|]. split; [exact Hsealed|].
    intros c ops Hc. apply sealed_with_run_ops.
    unfold exec. rewrite (idle_pops _ _ _ _ Hb). fold popped.
    assert (sealed_with cls b c popped) as Hsw by (split; [exact Hsealed | exact Hc]).
    apply (keeps_frames cls b c
             (match cls with
              | LookupCls => LookupBatch_idle_callback b
              | NonTxCommitCls => NonTxBatch_idle_callback b
              end)); [|exact Hsw].
    destruct cls; frames_auto.
Qed.

Lemma registry_one_open_batch_witness :
  ∃ w', _get_batch LookupCls [] (empty_world PyNone) = (Ok 0, w') ∧
        idlers w' = [IdleFlush LookupCls []] ∧
        registry_wf LookupCls w'.
Proof.
  destruct (registry_one_open_batch LookupCls [] (empty_world PyNone)
              (registry_wf_empty _ _)) as (_ & Hnew & _).
  destruct Hnew as (w' & H1 & _ & H2 & _ & H3).
  - vm_compute. reflexivity.
  - discriminate.
  - by exists w'.
Defined.

(** *** The write of [commit] comes after the allocation rounds *)

Lemma evolves_refl (w : World) : evolves w w.
Proof. split; [done|]. intros b batch H. by exists batch. Qed.

Lemma evolves_trans (w1 w2 w3 : World) : evolves w1 w2 → evolves w2 w3 → evolves w1 w3.
Proof.
  intros [Hd1 Hb1] [Hd2 Hb2]. split; [by auto|].
  intros b batch H. destruct (Hb1 b batch H) as (batch2 & H2 & E2).
  destruct (Hb2 b batch2 H2) as (batch3 & H3 & E3).
  exists batch3. split; [done|]. congruence.
Qed.

Lemma loop_waiter_ok_evolves (w w' : World) (fk : nat * Cont) :
  evolves w w' → loop_waiter_ok w fk → loop_waiter_ok w' fk.
Proof.
  intros [Hd Hb]. unfold loop_waiter_ok. destruct (snd fk) as [b j t|t]; [|done].
  intros (batch & H1 & H2 & H3). destruct (Hb b batch H1) as (batch' & H1' & E).
  exists batch'. rewrite E. split; [done|]. split; [done|]. eauto.
Qed.

Lemma markers_done_evolves (w w' : World) (b : nat) :
  evolves w w' → markers_done b w → markers_done b w'.
Proof.
  intros [Hd Hb] (batch & H1 & H2). destruct (Hb b batch H1) as (batch' & H1' & E).
  exists batch'. rewrite E. split; [done|]. eapply Forall_impl; [exact H2|]. auto.
Qed.

Lemma commit_entry_ok_evolves (Q : list (nat * RpcCb)) (w w' : World) (e : nat * RpcCb) :
  evolves w w' → commit_entry_ok Q w e → commit_entry_ok Q w' e.
Proof.
  intros Hev. unfold commit_entry_ok. destruct (snd e); try done.
  intros [H|H]; [by left | right; by eapply markers_done_evolves].
Qed.

Lemma commit_inv_evolves (Q : list (nat * RpcCb)) (w w' : World) :
  evolves w w' → waiters w' = waiters w → rpc_queue w' = rpc_queue w →
  commit_inv Q w → commit_inv Q w'.
Proof.
  intros Hev Hw Hq [H1 H2]. unfold commit_inv, waiters_ok. rewrite Hw, Hq. split.
  - eapply Forall_impl; [exact H1|]. intros fk. by apply loop_waiter_ok_evolves.
  - eapply Forall_impl; [exact H2|]. intros e. by apply commit_entry_ok_evolves.
Qed.

Lemma evolves_settle (f : nat) (s : FutState) (w : World) :
  evolves w (snd (settle f s w)).
Proof.
  unfold settle. destruct (future_state f w) as [[]|] eqn:E; try apply evolves_refl.
  split; [|intros b batch H; by exists batch].
  intros g Hg. unfold done, future_state in *. wsimpl.
  destruct (decide (g = f)) as [->|Hne]; [by rewrite E in Hg|].
  by rewrite list_lookup_insert_ne.
Qed.

Lemma evolves_new_future (w : World) : evolves w (upd_futures (λ fs, fs ++ [Pending]) w).
Proof.
  split; [|intros b batch H; by exists batch].
  intros g Hg. by rewrite done_new_future.
Qed.

Lemma evolves_alter_tx (b : nat) (g : TxBatch → TxBatch) (w : World) :
  (∀ x, tb_allocating_ids (g x) = tb_allocating_ids x) →
  evolves w (upd_tx_batches (alter g b) w).
Proof.
  intros Hg. split; [done|]. intros b' batch H. wsimpl.
  destruct (decide (b' = b)) as [->|Hne].
  - exists (g batch). by rewrite list_lookup_alter_eq, H.
  - exists batch. by rewrite list_lookup_alter_ne.
Qed.

Lemma evolves_new_tx_batch (x : TxBatch) (w : World) :
  evolves w (upd_tx_batches (λ l, l ++ [x]) w).
Proof.
  split; [done|]. intros b batch H. exists batch. wsimpl.
  by rewrite (lookup_app_l_Some _ _ _ _ H).
Qed.

(** A state predicate that only reads the futures, the transactional
    batches, the waiters and the queue of outbound calls. *)
Lemma commit_inv_reads (Q : list (nat * RpcCb)) (w w' : World) :
  futures w' = futures w → tx_batches w' = tx_batches w →
  waiters w' = waiters w → rpc_queue w' = rpc_queue w →
  commit_inv Q w → commit_inv Q w'.
Proof.
  intros Hf Ht Hw Hq. apply commit_inv_evolves; [|done..].
  split.
  - intros f. unfold done, future_state. by rewrite Hf.
  - intros b batch H. exists batch. by rewrite Ht.
Qed.

Lemma evolves_reads (w w' w'' : World) :
  futures w'' = futures w' → tx_batches w'' = tx_batches w' →
  evolves w w' → evolves w w''.
Proof.
  intros Hf Ht [H1 H2]. split.
  - intros f Hd. specialize (H1 f Hd). unfold done, future_state in *. by rewrite Hf.
  - intros b batch H. rewrite Ht. auto.
Qed.

Lemma settle_waiters (f : nat) (s : FutState) (w : World) :
  waiters (snd (settle f s w)) = waiters w ∧ rpc_queue (snd (settle f s w)) = rpc_queue w.
Proof. unfold settle. by repeat case_match. Qed.

Section commit_inv.
Context (Q : list (nat * RpcCb)).

Lemma commit_inv_await (f : nat) (k : Cont) (w : World) :
  commit_inv Q w → loop_waiter_ok w (f, k) →
  commit_inv Q (upd_waiters (λ l, l ++ [(f, k)]) w).
Proof.
  intros [H1 H2] Hk. split; [|exact H2].
  unfold waiters_ok. wsimpl. apply Forall_app. split; [exact H1|].
  constructor; [exact Hk | constructor].
Qed.

Lemma commit_inv_queue (rpc : nat) (cb : RpcCb) (w : World) :
  commit_inv Q w → commit_entry_ok Q w (rpc, cb) →
  commit_inv Q (upd_rpc_queue (λ l, l ++ [(rpc, cb)]) w).
Proof.
  intros [H1 H2] Hk. split; [exact H1|].
  wsimpl. apply Forall_app. split; [exact H2|].
  constructor; [exact Hk | constructor].
Qed.

Lemma commit_sent_inv (b : nat) (batch : TxBatch) (tf : nat) (w : World) :
  commit_inv Q w → markers_done b w →
  commit_inv Q (commit_sent b batch tf w) ∧ evolves w (commit_sent b batch tf w).
Proof.
  intros HJ Hm.
  assert (Hev : evolves w (upd_futures (λ fs, fs ++ [Pending])
                             (upd_tx_batches (alter clear_incomplete b) w))).
  { eapply evolves_trans; [by apply (evolves_alter_tx b clear_incomplete)|].
    apply evolves_new_future. }
  split; [|exact Hev].
  unfold commit_sent. apply commit_inv_await; [|exact I].
  apply commit_inv_queue.
  - revert HJ. by apply commit_inv_evolves.
  - right. revert Hm. by apply markers_done_evolves.
Qed.

Lemma commit_loop_inv (b i tf : nat) (w : World) :
  commit_inv Q w →
  (∀ batch n g, tx_batches w !! b = Some batch → n < i →
     tb_allocating_ids batch !! n = Some g → done g w = true) →
  commit_inv Q (snd (commit_loop b i tf w)) ∧ evolves w (snd (commit_loop b i tf w)).
Proof.
  intros HJ Hpre. destruct (tx_batches w !! b) as [batch|] eqn:Hb.
  2:{ unfold commit_loop, get_tx_batch, bind. rewrite Hb. simpl.
      split; [done | apply evolves_refl]. }
  destruct (first_unresolved (drop i (tb_allocating_ids batch)) i w) as [[j f]|] eqn:F.
  - rewrite (commit_loop_suspends _ _ _ _ _ _ _ Hb F). simpl.
    split; [|by apply (evolves_reads w w); [..|apply evolves_refl]].
    apply first_unresolved_Some in F as (Hle & Hl & _ & Hbefore).
    rewrite lookup_drop in Hl. replace (i + (j - i)) with j in Hl by lia.
    apply commit_inv_await; [done|].
    exists batch. split; [done|]. split; [done|].
    intros n g Hn Hg. destruct (decide (n < i)) as [Hlt|Hge]; [by eapply Hpre|].
    apply (Hbefore (n - i)); [lia|].
    rewrite lookup_drop. by replace (i + (n - i)) with n by lia.
  - rewrite (commit_loop_finishes _ _ _ _ _ Hb F). simpl.
    apply commit_sent_inv; [done|].
    exists batch. split; [done|]. apply Forall_lookup. intros n g Hg.
    destruct (decide (n < i)) as [Hlt|Hge]; [by eapply Hpre|].
    apply first_unresolved_None in F.
    apply (proj1 (Forall_lookup _ _) F (n - i)).
    rewrite lookup_drop. by replace (i + (n - i)) with n by lia.
Qed.

Lemma settle_inv (f : nat) (s : FutState) (w : World) :
  commit_inv Q w →
  commit_inv Q (snd (settle f s w)) ∧ evolves w (snd (settle f s w)).
Proof.
  intros HJ. split; [|apply evolves_settle].
  destruct (settle_waiters f s w) as [H1 H2].
  revert HJ. apply commit_inv_evolves; [apply evolves_settle | done..].
Qed.

Lemma resume_inv (s : FutState) (f : nat) (k : Cont) (w : World) :
  commit_inv Q w → loop_waiter_ok w (f, k) → done f w = true →
  commit_inv Q (snd (resume s k w)) ∧ evolves w (snd (resume s k w)).
Proof.
  intros HJ Hk Hd.
  assert (Hloop : ∀ b i tf, k = KCommitLoop b i tf →
            commit_inv Q (snd (commit_loop b (S i) tf w)) ∧
            evolves w (snd (commit_loop b (S i) tf w))).
  { intros b i tf ->. apply commit_loop_inv; [done|].
    destruct Hk as (batch & H1 & H2 & H3). simpl in H2.
    intros batch' n g Hb Hn Hg. assert (batch' = batch) as -> by congruence.
    destruct (decide (n = i)) as [->|Hne]; [congruence|].
    apply (H3 n); [lia | done]. }
  destruct k as [b i tf|tf]; destruct s; simpl;
    solve [by apply settle_inv | by eapply Hloop].
Qed.

Lemma resume_all_inv (s : FutState) (woken : list (nat * Cont)) (w : World) :
  commit_inv Q w →
  Forall (λ fk, loop_waiter_ok w fk ∧ done (fst fk) w = true) woken →
  commit_inv Q (snd (for_ woken (λ fk, resume s (snd fk)) w)).
Proof.
  revert w. induction woken as [|[f k] woken IH]; intros w HJ Hw; [done|].
  inversion Hw as [|? ? [Hk Hd] Hrest]; subst. simpl in Hd.
  destruct (resume_inv s f k w HJ Hk Hd) as [HJ' Hev].
  cbn [for_]. unfold bind. cbn [snd].
  destruct (resume s k w) as [[[]|e] w']; simpl in *; [|done].
  apply IH; [done|].
  eapply Forall_impl; [exact Hrest|]. intros fk [H1 H2]. split.
  - by eapply loop_waiter_ok_evolves.
  - by apply Hev.
Qed.

Lemma resolve_inv (f : nat) (s : FutState) (w : World) :
  fut_done s = true → commit_inv Q w → commit_inv Q (snd (resolve f s w)).
Proof.
  intros Hs HJ. unfold resolve, bind, gets, modify.
  destruct (settle_inv f s w HJ) as [HJ1 _].
  unfold settle in *. destruct (future_state f w) as [[]|] eqn:E; simpl in *; try done.
  set (w1 := upd_futures (λ fs, <[f:=s]> fs) w) in *.
  destruct HJ1 as [Hw Hq].
  apply resume_all_inv.
  - split; [|exact Hq]. unfold waiters_ok in *. wsimpl.
    apply Forall_forall. intros fk Hin. apply list_elem_of_filter in Hin as [_ Hin].
    by apply (proj1 (Forall_forall _ _) Hw).
  - apply Forall_forall. intros fk Hin. apply list_elem_of_filter in Hin as [Hf Hin].
    split; [by apply (proj1 (Forall_forall _ _) Hw)|].
    unfold waits_on in Hf. apply Nat.eqb_eq in Hf. rewrite Hf.
    unfold done, future_state, w1. wsimpl. unfold future_state in E.
    rewrite list_lookup_insert_eq; [done|]. by eapply lookup_lt_Some.
Qed.

Lemma keeps_commit_inv_quiet {A} (c : M A) :
  (∀ w, futures (snd (c w)) = futures w ∧ tx_batches (snd (c w)) = tx_batches w ∧
        waiters (snd (c w)) = waiters w ∧ rpc_queue (snd (c w)) = rpc_queue w) →
  keeps (commit_inv Q) c (λ _, True).
Proof.
  intros H w HJ. split; [|done]. destruct (H w) as (H1 & H2 & H3 & H4).
  revert HJ. by apply commit_inv_reads.
Qed.
End commit_inv.

Create HintDb commit_inv discriminated.

Ltac ci_step :=
  first
    [ solve [auto with commit_inv nocore]
    | eapply keeps_bind; [|intros ? _]
    | apply keeps_ret
    | apply keeps_raise
    | apply keeps_gets
    | apply keeps_lift
    | apply keeps_for; intros ?
    | progress cbv zeta
    | match goal with
      | |- keeps _ (modify _) _ => apply keeps_commit_inv_quiet; intros ?; by repeat split
      | |- keeps _ (match ?x with _ => _ end) _ => destruct x
      | |- keeps _ (let (_, _) := ?x in _) _ => destruct x
      end ].

Ltac ci_auto := repeat ci_step.

Section commit_inv_keeps.
Context (Q : list (nat * RpcCb)).

Lemma ci_new_future : keeps (commit_inv Q) new_future (λ _, True).
Proof.
  intros w HJ. split; [|done]. revert HJ.
  by apply commit_inv_evolves; [apply evolves_new_future|..].
Qed.

Lemma ci_settle (f : nat) (s : FutState) : keeps (commit_inv Q) (settle f s) (λ _, True).
Proof. intros w HJ. split; [|done]. by apply settle_inv. Qed.

Lemma ci_add_idle (cb : IdleCb) : keeps (commit_inv Q) (add_idle cb) (λ _, True).
Proof. by apply keeps_commit_inv_quiet. Qed.

Lemma ci_remote_call (request : RpcRequest) :
  keeps (commit_inv Q) (remote_call request) (λ _, True).
Proof. by apply keeps_commit_inv_quiet. Qed.

Lemma ci_new_mutation (m : Mutation) : keeps (commit_inv Q) (new_mutation m) (λ _, True).
Proof. by apply keeps_commit_inv_quiet. Qed.

Lemma ci_set_todo (b : nat) (todo : list (KeyBytes * list nat)) :
  keeps (commit_inv Q) (set_todo b todo) (λ _, True).
Proof. by apply keeps_commit_inv_quiet. Qed.

Lemma ci_get_tx_batch (b : nat) : keeps (commit_inv Q) (get_tx_batch b) (λ _, True).
Proof.
  apply keeps_commit_inv_quiet. intros w. unfold get_tx_batch. by case_match.
Qed.

Lemma ci_get_lookup_batch (b : nat) : keeps (commit_inv Q) (get_lookup_batch b) (λ _, True).
Proof.
  apply keeps_commit_inv_quiet. intros w. unfold get_lookup_batch. by case_match.
Qed.

Lemma ci_get_nontx_batch (b : nat) : keeps (commit_inv Q) (get_nontx_batch b) (λ _, True).
Proof.
  apply keeps_commit_inv_quiet. intros w. unfold get_nontx_batch. by case_match.
Qed.

Lemma ci_new_batch (cls : BatchCls) (options : list (string * PyVal)) :
  keeps (commit_inv Q) (new_batch cls options) (λ _, True).
Proof.
  apply keeps_commit_inv_quiet. intros w. destruct cls; [done|].
  unfold new_batch, bind, lift. by case_match.
Qed.

Lemma ci_queue_rpc (rpc : nat) (cb : RpcCb) :
  (∀ b f, cb ≠ CbTxCommit b f) → keeps (commit_inv Q) (queue_rpc rpc cb) (λ _, True).
Proof.
  intros Hcb w HJ. split; [|done]. apply commit_inv_queue; [done|].
  unfold commit_entry_ok. simpl. destruct cb as [| | |b' f]; try done.
  by destruct (Hcb b' f).
Qed.

Lemma ci_upd_tx_batch (b : nat) (g : TxBatch → TxBatch) :
  (∀ x, tb_allocating_ids (g x) = tb_allocating_ids x) →
  keeps (commit_inv Q) (upd_tx_batch b g) (λ _, True).
Proof.
  intros Hg w HJ. split; [|done]. revert HJ.
  by apply commit_inv_evolves; [apply evolves_alter_tx|..].
Qed.

Lemma ci_new_tx_batch (x : TxBatch) :
  keeps (commit_inv Q)
    (λ w, (Ok (length (tx_batches w)), upd_tx_batches (λ l, l ++ [x]) w)) (λ _, True).
Proof.
  intros w HJ. split; [|done]. revert HJ.
  by apply commit_inv_evolves; [apply evolves_new_tx_batch|..].
Qed.

Lemma ci_resolve (f : nat) (s : FutState) :
  fut_done s = true → keeps (commit_inv Q) (resolve f s) (λ _, True).
Proof. intros Hs w HJ. split; [|done]. by apply resolve_inv. Qed.

Lemma ci_set_result (f : nat) (v : FutVal) : keeps (commit_inv Q) (set_result f v) (λ _, True).
Proof. by apply ci_resolve. Qed.

Lemma ci_set_exception (f : nat) (e : Exn) :
  keeps (commit_inv Q) (set_exception f e) (λ _, True).
Proof. by apply ci_resolve. Qed.

Lemma ci_commit_loop_0 (b tf : nat) : keeps (commit_inv Q) (commit_loop b 0 tf) (λ _, True).
Proof.
  intros w HJ. split; [|done]. apply commit_loop_inv; [done|]. intros; lia.
Qed.
End commit_inv_keeps.

#[local] Hint Resolve ci_new_future ci_settle ci_add_idle ci_remote_call ci_new_mutation
  ci_set_todo ci_get_tx_batch ci_get_lookup_batch ci_get_nontx_batch ci_new_batch
  ci_set_result ci_set_exception ci_commit_loop_0 ci_new_tx_batch : commit_inv.
#[local] Hint Extern 1 (keeps _ (queue_rpc _ _) _) =>
  apply ci_queue_rpc; intros; discriminate : commit_inv.
#[local] Hint Extern 1 (keeps _ (upd_tx_batch _ _) _) =>
  apply ci_upd_tx_batch; intros; reflexivity : commit_inv.

Lemma ci_get_batch Q (cls : BatchCls) (options : list (string * PyVal)) :
  keeps (commit_inv Q) (_get_batch cls options) (λ _, True).
Proof. unfold _get_batch. ci_auto. Qed.

Lemma ci_get_commit_batch Q (t : PyVal) (options : list (string * PyVal)) :
  keeps (commit_inv Q) (_get_commit_batch t options) (λ _, True).
Proof. unfold _get_commit_batch. ci_auto. Qed.

Lemma ci_LookupBatch_add Q (b : nat) (key : Key_pb) :
  keeps (commit_inv Q) (LookupBatch_add b key) (λ _, True).
Proof. unfold LookupBatch_add. ci_auto. Qed.

Lemma ci_LookupBatch_idle_callback Q (b : nat) :
  keeps (commit_inv Q) (LookupBatch_idle_callback b) (λ _, True).
Proof.
  unfold LookupBatch_idle_callback, _get_read_options, _datastore_lookup. ci_auto.
Qed.

Lemma ci_NonTxBatch_put Q (b : nat) (e : Entity) :
  keeps (commit_inv Q) (NonTxBatch_put b e) (λ _, True).
Proof. unfold NonTxBatch_put. ci_auto. Qed.

Lemma ci_NonTxBatch_delete Q (b : nat) (k : Key_pb) :
  keeps (commit_inv Q) (NonTxBatch_delete b k) (λ _, True).
Proof. unfold NonTxBatch_delete. ci_auto. Qed.

Lemma ci_NonTxBatch_idle_callback Q (b : nat) :
  keeps (commit_inv Q) (NonTxBatch_idle_callback b) (λ _, True).
Proof. unfold NonTxBatch_idle_callback, _datastore_commit. ci_auto. Qed.

Lemma ci_TxBatch_put Q (b : nat) (e : Entity) :
  keeps (commit_inv Q) (TxBatch_put b e) (λ _, True).
Proof. unfold TxBatch_put. ci_auto. Qed.

Lemma ci_TxBatch_delete Q (b : nat) (k : Key_pb) :
  keeps (commit_inv Q) (TxBatch_delete b k) (λ _, True).
Proof. unfold TxBatch_delete. ci_auto. Qed.

Lemma ci_TxBatch_commit Q (b : nat) : keeps (commit_inv Q) (TxBatch_commit b) (λ _, True).
Proof. unfold TxBatch_commit. ci_auto. Qed.

Lemma ci_process_commit Q (rpc : RpcOutcome) (fs : list nat) :
  keeps (commit_inv Q) (_process_commit rpc fs) (λ _, True).
Proof. unfold _process_commit. ci_auto. Qed.

Lemma ci_allocate_callback Q (rpc : RpcOutcome) (ms fs : list nat) (a : nat) :
  keeps (commit_inv Q) (allocate_callback rpc ms fs a) (λ _, True).
Proof. unfold allocate_callback, allocate_ids_callback. ci_auto. Qed.

#[local] Hint Resolve ci_get_batch ci_get_commit_batch ci_LookupBatch_add
  ci_LookupBatch_idle_callback ci_NonTxBatch_put ci_NonTxBatch_delete
  ci_NonTxBatch_idle_callback ci_TxBatch_put ci_TxBatch_delete ci_TxBatch_commit
  ci_process_commit ci_allocate_callback : commit_inv.

Lemma ci_idle Q (cls : BatchCls) (k : list (string * PyVal)) :
  keeps (commit_inv Q) (idle cls k) (λ _, True).
Proof. unfold idle. ci_auto. Qed.

Lemma ci_lookup_callback Q (b : nat) (rpc : RpcOutcome) :
  keeps (commit_inv Q) (lookup_callback b rpc) (λ _, True).
Proof. unfold lookup_callback, resubmit_deferred, resolve_partition. ci_auto. Qed.

#[local] Hint Resolve ci_idle ci_lookup_callback : commit_inv.

(** Every step but the allocation idle callback keeps the markers of the
    batches as they are; that callback appends a marker and is looked at on
    its own. *)
Lemma step_commit_inv Q (o : Op) :
  (∀ b, o ≠ OpIdle (IdleAllocate b)) → keeps (commit_inv Q) (step o) (λ _, True).
Proof.
  intros Ho. destruct o as [key options|e options|key options|t|cb|cb rpc]; simpl.
  - unfold ndb.lookup. ci_auto.
  - unfold ndb.put. ci_auto.
  - unfold ndb.delete. ci_auto.
  - unfold ndb.commit. ci_auto.
  - destruct cb as [cls k|b]; [apply ci_idle | by destruct (Ho b)].
  - destruct cb as [b|b|b ms fs a|b f]; simpl.
    + apply ci_lookup_callback.
    + unfold nontx_commit_callback. ci_auto.
    + apply ci_allocate_callback.
    + unfold tx_commit_callback. ci_auto.
Qed.

Lemma loop_waiter_ok_grows (w w' : World) (fk : nat * Cont) :
  (∀ f, done f w = true → done f w' = true) →
  (∀ b batch, tx_batches w !! b = Some batch →
     ∃ batch', tx_batches w' !! b = Some batch' ∧
       tb_allocating_ids batch `prefix_of` tb_allocating_ids batch') →
  loop_waiter_ok w fk → loop_waiter_ok w' fk.
Proof.
  intros Hd Hb. unfold loop_waiter_ok. destruct (snd fk) as [b j t|t]; [|done].
  intros (batch & H1 & H2 & H3).
  destruct (Hb b batch H1) as (batch' & H1' & [tl E]).
  exists batch'. rewrite E. split; [done|]. split; [by apply lookup_app_l_Some|].
  intros n g Hn Hg. apply Hd, (H3 n); [done|].
  rewrite lookup_app_l in Hg; [done|]. apply lookup_lt_Some in H2. lia.
Qed.

(** The allocation idle callback queues no write of [commit]. *)
Lemma TxBatch_idle_callback_waiters (b : nat) (w : World) :
  waiters_ok w →
  waiters_ok (exec (TxBatch_idle_callback b) w) ∧
  ∀ e b' cf, e ∈ rpc_queue (exec (TxBatch_idle_callback b) w) →
    snd e = CbTxCommit b' cf → e ∈ rpc_queue w.
Proof.
  intros Hw. unfold exec. destruct (tx_batches w !! b) as [batch|] eqn:Hb.
  2:{ unfold TxBatch_idle_callback, get_tx_batch, bind. by rewrite Hb. }
  destruct (decide (tb_incomplete_mutations batch = [])) as [He|Hne].
  { by rewrite (TxBatch_idle_callback_nothing _ _ _ Hb He). }
  rewrite (TxBatch_idle_callback_round _ _ _ Hb Hne). cbn [snd]. split.
  - unfold waiters_ok in *. wsimpl. eapply Forall_impl; [exact Hw|]. intros fk.
    apply loop_waiter_ok_grows.
    + intros f Hf. change (done f (upd_futures (λ fs, fs ++ [Pending]) w) = true).
      by rewrite done_new_future.
    + intros b0 batch0 H0. wsimpl. destruct (decide (b0 = b)) as [->|Hb0].
      * rewrite !list_lookup_alter_eq, H0. eexists. split; [done|]. simpl.
        by apply prefix_app_r.
      * rewrite !list_lookup_alter_ne by done. exists batch0. by split.
  - intros e b' cf He Hcb. wsimpl. apply elem_of_app in He as [He|He]; [done|].
    apply list_elem_of_singleton in He. subst e. discriminate.
Qed.

(** A step of the system keeps the suspended [commit]s in order, and a write
    of [commit] that it queues comes when every marker of the batch is
    done. *)
Lemma step_waiters_ok (o : Op) (w : World) :
  waiters_ok w →
  waiters_ok (exec (step o) w) ∧
  ∀ e b cf, e ∈ rpc_queue (exec (step o) w) → snd e = CbTxCommit b cf →
    e ∈ rpc_queue w ∨ markers_done b (exec (step o) w).
Proof.
  intros Hw.
  assert (Hcase : (∃ b, o = OpIdle (IdleAllocate b)) ∨ ∀ b, o ≠ OpIdle (IdleAllocate b)).
  { destruct o as [| | | |[|b]|]; try (by right). left. by exists b. }
  destruct Hcase as [[b ->]|Ho].
  { destruct (TxBatch_idle_callback_waiters b w Hw) as [H1 H2].
    split; [exact H1|]. intros e b' cf He Hcb. left. by eapply H2. }
  assert (HJ : commit_inv (rpc_queue w) w).
  { split; [done|]. apply Forall_forall. intros e He. unfold commit_entry_ok.
    destruct (snd e); try done. by left. }
  destruct (step_commit_inv (rpc_queue w) o Ho w HJ) as [[H1 H2] _].
  split; [exact H1|]. intros e b cf He Hcb.
  pose proof (proj1 (Forall_forall _ _) H2 e He) as H. unfold commit_entry_ok in H.
  by rewrite Hcb in H.
Qed.

Lemma waiters_ok_run_ops (ops : list Op) (w : World) :
  waiters_ok w → waiters_ok (run_ops ops w).
Proof.
  revert w. induction ops as [|o ops IH]; intros w Hw; [done|].
  simpl. apply IH. by apply step_waiters_ok.
Qed.

Lemma waiters_ok_empty (t : PyVal) : waiters_ok (empty_world t).
Proof. constructor. Qed.

(** C1 (amended): [commit] on a batch with mutations looks at the markers of
    [allocating_ids] in order.  At the first unresolved one it suspends on
    it and sends nothing; when that marker is resolved it goes on from the
    next index of the live list, so markers appended in the meantime are
    awaited too.  Once no marker from the current index on is unresolved it
    clears the pending-incomplete lists and sends one Commit request with
    the transaction of the batch and all its mutations, in order.  The lists
    are cleared at that point and not when the await begins: from then on
    the allocation idle callback returns without a request.  In the running
    system, whatever the calls, the callbacks fired and the requests
    completed so far, a step that queues the write of a [commit] leaves a
    world in which every marker of its batch is done. *)
Theorem commit_awaits_allocation (b : nat) (batch : TxBatch) (w : World) :
  tx_batches w !! b = Some batch →
  let ids := tb_allocating_ids batch in
  let tf := length (futures w) in
  let started := upd_futures (λ fs, fs ++ [Pending]) w in
  (tb_mutations batch ≠ [] →
     TxBatch_commit b w =
       match first_unresolved ids 0 w with
       | Some (j, marker) =>
           (Ok tf, upd_waiters (λ l, l ++ [(marker, KCommitLoop b j tf)]) started)
       | None => (Ok tf, commit_sent b batch tf started)
       end) ∧
  (∀ i t v,
     resume (Done v) (KCommitLoop b i t) w =
       match first_unresolved (drop (S i) ids) (S i) w with
       | Some (j, marker) =>
           (Ok tt, upd_waiters (λ l, l ++ [(marker, KCommitLoop b j t)]) w)
       | None => (Ok tt, commit_sent b batch t w)
       end) ∧
  (∀ i,
     match first_unresolved (drop i ids) i w with
     | Some (j, marker) =>
         i ≤ j ∧ ids !! j = Some marker ∧ done marker w = false ∧
         ∀ n f, i ≤ n < j → ids !! n = Some f → done f w = true
     | None => ∀ n f, i ≤ n → ids !! n = Some f → done f w = true
     end) ∧
  (∀ t,
     rpc_log (commit_sent b batch t w) =
       rpc_log w ++ [CommitRequest
                       (if is_none (tb_transaction batch) then NON_TRANSACTIONAL
                        else TRANSACTIONAL)
                       (deref_mutations (tb_mutations batch) w) (tb_transaction batch)] ∧
     TxBatch_idle_callback b (commit_sent b batch t w) =
       (Ok tt, commit_sent b batch t w)) ∧
  (∀ ops o t,
     let reached := run_ops ops (empty_world t) in
     ∀ e b' cf, e ∈ rpc_queue (exec (step o) reached) → snd e = CbTxCommit b' cf →
       e ∈ rpc_queue reached ∨ markers_done b' (exec (step o) reached)).
Proof.
  intros Hb ids tf started.
  assert (∀ i, match first_unresolved (drop i ids) i w with
     | Some (j, marker) =>
         i ≤ j ∧ ids !! j = Some marker ∧ done marker w = false ∧
         ∀ n f, i ≤ n < j → ids !! n = Some f → done f w = true
     | None => ∀ n f, i ≤ n → ids !! n = Some f → done f w = true
     end) as Hmeaning.
  { intros i. destruct (first_unresolved (drop i ids) i w) as [[j marker]|] eqn:E.
    - apply first_unresolved_Some in E as (Hle & Hl & Hd & Hbefore).
      rewrite lookup_drop in Hl. replace (i + (j - i)) with j in Hl by lia.
      repeat split; [done..|].
      intros n f [Hin Hnj] Hn. apply (Hbefore (n - i)); [lia|].
      rewrite lookup_drop. by replace (i + (n - i)) with n by lia.
    - apply first_unresolved_None in E. intros n f Hin Hn.
      rewrite Forall_forall in E. apply E.
      apply (list_elem_of_lookup_2 _ (n - i)). rewrite lookup_drop.
      by replace (i + (n - i)) with n by lia. }
  split; [|split; [|split; [|split]]].
  - intros Hm. rewrite (TxBatch_commit_enters _ _ _ Hb Hm).
    fold started. fold tf.
    assert (first_unresolved (drop 0 ids) 0 started = first_unresolved ids 0 w) as E.
    { rewrite drop_0. apply first_unresolved_ext. intros f. apply done_new_future. }
    destruct (first_unresolved ids 0 w) as [[j marker]|].
    + by rewrite (commit_loop_suspends b batch 0 j marker tf started Hb E).
    + by rewrite (commit_loop_finishes b batch 0 tf started Hb E).
  - intros i t v. cbn [resume].
    destruct (first_unresolved (drop (S i) ids) (S i) w) as [[j marker]|] eqn:E.
    + by apply (commit_loop_suspends b batch).
    + by apply commit_loop_finishes.
  - exact Hmeaning.
  - intros t. split; [done|].
    apply (TxBatch_idle_callback_nothing b (clear_incomplete batch)); [|done].
    unfold commit_sent. wsimpl. by rewrite list_lookup_alter_eq, Hb.
  - intros ops o t reached. apply step_waiters_ok, waiters_ok_run_ops, waiters_ok_empty.
Qed.

Lemma commit_awaits_allocation_witness :
  let options := [("transaction", sample_txn)] in
  let w := exec (run ndb.put (sample_entity 0) options; fire_idle) (empty_world PyNone) in
  let reached := run_ops [OpPut (sample_entity 0) options; OpIdle (IdleAllocate 0);
                          OpCommit sample_txn] (empty_world PyNone) in
  let allocated := OpRpc (CbAllocate 0 [0] [0] 1) (RpcOk (AllocateIdsResult [sample_key 7])) in
  (∃ batch, tx_batches w !! 0 = Some batch ∧
     TxBatch_commit 0 w =
       (Ok 2, upd_waiters (λ l, l ++ [(1, KCommitLoop 0 0 2)])
                (upd_futures (λ fs, fs ++ [Pending]) w))) ∧
  rpc_queue reached = [(0, CbAllocate 0 [0] [0] 1)] ∧
  rpc_queue (exec (step allocated) reached) =
    [(0, CbAllocate 0 [0] [0] 1); (1, CbTxCommit 0 3)] ∧
  markers_done 0 (exec (step allocated) reached).
Proof.
  intros options w reached allocated.
  assert (tx_batches w !! 0 =
          Some (mkTxBatch [("transaction", sample_txn)] [0] [0] sample_txn [1] [] [])) as Hb
    by (vm_compute; reflexivity).
  pose proof (commit_awaits_allocation 0 _ w Hb) as (Henter & _ & _ & _ & Hsys).
  split; [|split; [|split]].
  - eexists. split; [exact Hb|]. rewrite Henter; [|discriminate]. vm_compute. reflexivity.
  - vm_compute. reflexivity.
  - vm_compute. reflexivity.
  - destruct (Hsys [OpPut (sample_entity 0) options; OpIdle (IdleAllocate 0);
                    OpCommit sample_txn] allocated PyNone (1, CbTxCommit 0 3) 0 3)
      as [Hold|Hdone]; [vm_compute; elem_of_list | reflexivity | | exact Hdone].
    exfalso. revert Hold. vm_compute. intros Hold.
    apply list_elem_of_singleton in Hold. discriminate.
Defined.

(** C1, as stated, fails: a second allocation round that was scheduled
    before [commit] fires while [commit] is suspended on the marker of the
    first round, and it does send its AllocateIds request. *)
Lemma allocation_during_commit_await :
  let incomplete := sample_entity 0 in
  let options := [("transaction", sample_txn)] in
  let w := exec (run ndb.put incomplete options; run fire_idle;
                 run ndb.put incomplete options; ndb.commit sample_txn)
             (empty_world PyNone) in
  waiters w = [(1, KCommitLoop 0 0 3)] ∧
  idlers w = [IdleAllocate 0] ∧
  rpc_log w = [AllocateIdsRequest [sample_key 0]] ∧
  rpc_log (exec fire_idle w) =
    [AllocateIdsRequest [sample_key 0]; AllocateIdsRequest [sample_key 0]].
Proof. vm_compute. done. Qed.

(** ** Further properties of the module *)

(** *** Checking of options *)

Lemma str_in_elem_of (k : string) (l : list string) : str_in k l = true ↔ k ∈ l.
Proof.
  unfold str_in. induction l as [|x l IH]; simpl.
  - split; [done | by intros ?%elem_of_nil].
  - rewrite orb_true_iff, IH, elem_of_cons, String.eqb_eq. done.
Qed.

Lemma not_implemented_not_supported (k : string) :
  k ∈ _OPTIONS_NOT_IMPLEMENTED → k ∉ _OPTIONS_SUPPORTED.
Proof.
  intros H Hs. unfold _OPTIONS_NOT_IMPLEMENTED, _OPTIONS_SUPPORTED in *.
  repeat (apply elem_of_cons in Hs as [->|Hs];
          [by repeat (apply elem_of_cons in H as [H|H]; [discriminate|]);
              apply elem_of_nil in H|]).
  by apply elem_of_nil in Hs.
Qed.

(** X1: [_check_unsupported_options] accepts a dictionary exactly when all
    its keys are supported.  Otherwise it raises [NotImplementedError] for
    the first key, in iteration order, that is not supported, and the
    message is the one for options of Legacy NDB exactly when that key is
    one of them. *)
Theorem check_unsupported_options_first_offender (options : list (string * PyVal)) :
  match _check_unsupported_options options with
  | Ok _ => Forall (λ kv, fst kv ∈ _OPTIONS_SUPPORTED) options
  | Raise e =>
      ∃ pre key v post,
        options = pre ++ ((key, v) :: post) ∧
        Forall (λ kv, fst kv ∈ _OPTIONS_SUPPORTED) pre ∧
        (key ∉ _OPTIONS_SUPPORTED) ∧
        e = NotImplementedError
              (if bool_decide (key ∈ _OPTIONS_NOT_IMPLEMENTED)
               then NotYetImplemented else BadOption) key
  end.
Proof.
  induction options as [|[key v] rest IH]; [constructor|].
  cbn [_check_unsupported_options].
  destruct (str_in key _OPTIONS_NOT_IMPLEMENTED) eqn:Hni.
  { apply str_in_elem_of in Hni. exists [], key, v, rest.
    split; [done|]. split; [constructor|].
    split; [by apply not_implemented_not_supported|].
    by rewrite bool_decide_eq_true_2. }
  destruct (str_in key _OPTIONS_SUPPORTED) eqn:Hs; cbn [negb].
  - apply str_in_elem_of in Hs.
    destruct (_check_unsupported_options rest) as [[]|e].
    + by constructor.
    + destruct IH as (pre & key' & v' & post & -> & Hpre & Hkey & ->).
      exists ((key, v) :: pre), key', v', post. repeat split; try done. by constructor.
  - exists [], key, v, rest. split; [done|]. split; [constructor|]. split.
    + intros H. apply str_in_elem_of in H. congruence.
    + rewrite bool_decide_eq_false_2; [done|].
      intros H. apply str_in_elem_of in H. congruence.
Qed.

(** *** Complete keys *)

(** X2: whether a key is complete is decided by the last element of its
    path alone: the namespace and the ancestors play no part, a key without
    a path is incomplete, and an id of zero and an empty name count as
    absent. *)
Theorem complete_last_element (ns : string) (ancestors : list PathElement) (e : PathElement) :
  _complete (mkKey ns []) = false ∧
  (_complete (mkKey ns (ancestors ++ [e])) = true ↔ pe_id e ≠ 0%Z ∨ pe_name e ≠ "").
Proof.
  unfold _complete. cbn [key_path]. split; [done|].
  rewrite last_snoc, orb_true_iff, !negb_true_iff, Z.eqb_neq, String.eqb_neq. done.
Qed.

(** *** The order of the options *)

Lemma ascii_compare_N (a b : Ascii.ascii) :
  Ascii.compare a b = N.compare (Ascii.N_of_ascii a) (Ascii.N_of_ascii b).
Proof. done. Qed.

Lemma ascii_compare_Eq (a b : Ascii.ascii) : Ascii.compare a b = Eq → a = b.
Proof.
  rewrite ascii_compare_N. intros H%N.compare_eq.
  by rewrite <- (Ascii.ascii_N_embedding a), <- (Ascii.ascii_N_embedding b), H.
Qed.

Lemma string_compare_Lt_trans (a b c : string) :
  String.compare a b = Lt → String.compare b c = Lt → String.compare a c = Lt.
Proof.
  revert b c. induction a as [|x a IH]; intros [|y b] [|z c]; simpl; try done.
  destruct (Ascii.compare x y) eqn:Exy; [|clear IH|done].
  - apply ascii_compare_Eq in Exy as ->.
    destruct (Ascii.compare y z) eqn:Eyz; [by apply IH|done..].
  - intros _. destruct (Ascii.compare y z) eqn:Eyz; [| |done].
    + apply ascii_compare_Eq in Eyz as <-. by rewrite Exy.
    + intros _. unfold Ascii.compare in *.
      apply N.compare_lt_iff in Exy. apply N.compare_lt_iff in Eyz.
      pose proof (N.lt_trans _ _ _ Exy Eyz) as H.
      apply N.compare_lt_iff in H. by rewrite H.
Qed.

Lemma string_leb_cases (a b : string) :
  String.leb a b = true ↔ String.compare a b = Lt ∨ a = b.
Proof.
  unfold String.leb. destruct (String.compare a b) eqn:E.
  - apply String.compare_eq_iff in E. split; [by right | done].
  - split; [by left | done].
  - split; [done|]. intros [H| ->]; [done|].
    pose proof (leb_refl b) as Hr. unfold String.leb in Hr. by rewrite E in Hr.
Qed.

Lemma string_leb_trans (a b c : string) :
  String.leb a b = true → String.leb b c = true → String.leb a c = true.
Proof.
  rewrite !string_leb_cases. intros [H1| ->] [H2| ->]; eauto.
  left. by eapply string_compare_Lt_trans.
Qed.

Lemma insert_sorted_perm (kv : string * PyVal) (l : list (string * PyVal)) :
  insert_sorted kv l ≡ₚ kv :: l.
Proof.
  induction l as [|kv' l IH]; simpl; [done|].
  destruct (String.leb (fst kv) (fst kv')); [done|].
  rewrite IH. apply Permutation_swap.
Qed.

Lemma sorted_items_perm (options : list (string * PyVal)) : sorted_items options ≡ₚ options.
Proof.
  induction options as [|kv l IH]; [done|].
  unfold sorted_items in *. simpl. by rewrite insert_sorted_perm, IH.
Qed.

Lemma insert_sorted_head_le (kv x : string * PyVal) (l : list (string * PyVal)) :
  Forall (λ y, String.leb (fst x) (fst y) = true) l →
  String.leb (fst x) (fst kv) = true →
  Forall (λ y, String.leb (fst x) (fst y) = true) (insert_sorted kv l).
Proof. intros Hl Hkv. rewrite insert_sorted_perm. by constructor. Qed.

Lemma insert_sorted_sorted (kv : string * PyVal) (l : list (string * PyVal)) :
  StronglySorted (λ a b, String.leb (fst a) (fst b) = true) l →
  StronglySorted (λ a b, String.leb (fst a) (fst b) = true) (insert_sorted kv l).
Proof.
  induction 1 as [|x l Hs IH Hx]; simpl.
  - repeat constructor.
  - destruct (String.leb (fst kv) (fst x)) eqn:E.
    + constructor; [by constructor|]. constructor; [done|].
      eapply Forall_impl; [exact Hx|]. intros y Hy. by eapply string_leb_trans.
    + constructor; [done|]. apply insert_sorted_head_le; [done|].
      destruct (String.leb_total (fst kv) (fst x)); congruence.
Qed.

Lemma sorted_items_sorted (options : list (string * PyVal)) :
  StronglySorted (λ a b, String.leb (fst a) (fst b) = true) (sorted_items options).
Proof.
  induction options as [|kv l IH]; [constructor|].
  unfold sorted_items in *. simpl. by apply insert_sorted_sorted.
Qed.

Lemma same_key_same_item (l : list (string * PyVal)) (a b : string * PyVal) :
  NoDup (map fst l) → a ∈ l → b ∈ l → fst a = fst b → a = b.
Proof.
  induction l as [|x l IH]; simpl; intros Hnd Ha Hb Hk; [by apply elem_of_nil in Ha|].
  apply NoDup_cons in Hnd as [Hx Hnd].
  apply elem_of_cons in Ha as [->|Ha], Hb as [->|Hb]; [done| | |by apply IH].
  - destruct Hx. rewrite Hk. apply list_elem_of_fmap. by exists b.
  - destruct Hx. rewrite <- Hk. apply list_elem_of_fmap. by exists a.
Qed.

Lemma sorted_by_key_unique (l1 l2 : list (string * PyVal)) :
  NoDup (map fst l1) →
  StronglySorted (λ a b, String.leb (fst a) (fst b) = true) l1 →
  StronglySorted (λ a b, String.leb (fst a) (fst b) = true) l2 →
  l1 ≡ₚ l2 → l1 = l2.
Proof.
  revert l2. induction l1 as [|a l1 IH]; intros l2 Hnd Hs1 Hs2 Hp.
  - by apply Permutation_nil_l in Hp.
  - destruct l2 as [|b l2]; [by apply Permutation_nil_r in Hp|].
    apply StronglySorted_inv in Hs1 as [Hs1 Ha], Hs2 as [Hs2 Hb].
    assert (a = b) as ->.
    { apply (same_key_same_item (a :: l1)); [done | left | |].
      - rewrite Hp. left.
      - assert (b ∈ a :: l1) as Hin by (rewrite Hp; left).
        assert (a ∈ b :: l2) as Hin' by (rewrite <- Hp; left).
        apply elem_of_cons in Hin as [->|Hin]; [done|].
        apply elem_of_cons in Hin' as [->|Hin']; [done|].
        rewrite Forall_forall in Ha, Hb. by apply String.leb_antisym; auto. }
    f_equal. apply IH; [|done..|by apply Permutation_cons_inv in Hp].
    simpl in Hnd. by apply NoDup_cons in Hnd as [_ ?].
Qed.

(** The key of the registry does not depend on the order in which the
    options were passed. *)
Lemma sorted_items_permutation (options options' : list (string * PyVal)) :
  NoDup (map fst options) → options ≡ₚ options' →
  sorted_items options = sorted_items options'.
Proof.
  intros Hnd Hp. apply sorted_by_key_unique.
  - by rewrite sorted_items_perm.
  - apply sorted_items_sorted.
  - apply sorted_items_sorted.
  - by rewrite !sorted_items_perm.
Qed.

Lemma get_batch_registers (cls : BatchCls) (options : list (string * PyVal)) (w w1 : World)
    (b : nat) :
  _get_batch cls options w = (Ok b, w1) →
  registry cls w1 !! sorted_items options = Some b.
Proof.
  destruct (registry cls w !! sorted_items options) as [b'|] eqn:E.
  - rewrite (get_batch_existing _ _ _ _ E). by intros [= <- <-].
  - destruct cls.
    + rewrite (get_batch_new_lookup _ _ E). intros [= <- <-].
      unfold upd_idlers. wsimpl.
      change (registry LookupCls ?w) with
        (default ∅ (ctx_batches w !! LookupCls)). wsimpl.
      rewrite lookup_insert_eq. simpl. by rewrite lookup_insert_eq.
    + destruct (_check_unsupported_options options) as [[]|e] eqn:Hc.
      * rewrite (get_batch_new_nontx _ _ E Hc). intros [= <- <-].
        change (registry NonTxCommitCls ?w) with
          (default ∅ (ctx_batches w !! NonTxCommitCls)). wsimpl.
        rewrite lookup_insert_eq. simpl. by rewrite lookup_insert_eq.
      * by rewrite (get_batch_nontx_unsupported _ _ _ E Hc).
Qed.

(** X3: [_get_batch] keys its registry by the sorted items of the options,
    so the same options passed in another order lead to the same open
    batch. *)
Theorem get_batch_ignores_option_order
    (cls : BatchCls) (options options' : list (string * PyVal)) (w w1 : World) (b : nat) :
  NoDup (map fst options) → options ≡ₚ options' →
  _get_batch cls options w = (Ok b, w1) →
  _get_batch cls options' w1 = (Ok b, w1).
Proof.
  intros Hnd Hp H. apply get_batch_existing.
  rewrite <- (sorted_items_permutation _ _ Hnd Hp). by eapply get_batch_registers.
Qed.

Lemma get_batch_ignores_option_order_witness :
  let options := [("read_policy", PyInt 1); ("read_consistency", PyInt 2)] in
  let options' := [("read_consistency", PyInt 2); ("read_policy", PyInt 1)] in
  let w1 := exec (_get_batch LookupCls options) (empty_world PyNone) in
  _get_batch LookupCls options' w1 = (Ok 0, w1).
Proof.
  intros options options' w1.
  apply (get_batch_ignores_option_order LookupCls options options' (empty_world PyNone)).
  - apply (bool_decide_unpack _). vm_compute. reflexivity.
  - apply Permutation_swap.
  - vm_compute. reflexivity.
Defined.

(** *** Non-transactional mutations *)

Lemma alter_alter_insert {A} (f g : A → A) (l : list A) (i : nat) (x : A) :
  l !! i = Some x → alter g i (alter f i l) = <[i := g (f x)]> l.
Proof.
  intros H. apply list_eq. intros j. destruct (decide (j = i)) as [->|Hne].
  - rewrite list_lookup_alter_eq, list_lookup_alter_eq, H.
    rewrite list_lookup_insert_eq; [done|]. by eapply lookup_lt_Some.
  - by rewrite !list_lookup_alter_ne, list_lookup_insert_ne.
Qed.

Lemma get_transaction_ctx (options : list (string * PyVal)) (w w' : World) :
  ctx_transaction w' = ctx_transaction w →
  _get_transaction options w' = _get_transaction options w.
Proof. unfold _get_transaction. by intros ->. Qed.

Lemma submit_existing (options : list (string * PyVal)) (m : Mutation) (w : World)
    (b : nat) (batch : NonTxBatch) :
  truthy (_get_transaction options w) = false →
  registry NonTxCommitCls w !! sorted_items options = Some b →
  nontx_batches w !! b = Some batch →
  submit options m w = (Ok (length (futures w)), mutations_added b batch [m] w).
Proof.
  intros Ht Hr Hb.
  destruct m as [e|k]; cbn [submit]; unfold ndb.put, ndb.delete, bind, gets;
    rewrite Ht, (get_batch_existing _ _ _ _ Hr);
    [rewrite NonTxBatch_put_eq | rewrite NonTxBatch_delete_eq];
    unfold mutations_added, upd_nontx_batches; wsimpl;
    by rewrite (alter_alter_insert _ _ _ _ _ Hb).
Qed.

Lemma submit_all_existing (options : list (string * PyVal)) (ms : list Mutation) (w : World)
    (b : nat) (batch : NonTxBatch) :
  truthy (_get_transaction options w) = false →
  registry NonTxCommitCls w !! sorted_items options = Some b →
  nontx_batches w !! b = Some batch →
  submit_all ms options w =
    (Ok (seq (length (futures w)) (length ms)), mutations_added b batch ms w).
Proof.
  revert w batch. induction ms as [|m ms IH]; intros w batch Ht Hr Hb.
  - simpl. unfold ret, mutations_added, upd_nontx_batches, upd_futures. wsimpl.
    rewrite !app_nil_r, list_insert_id; [by rewrite world_eta|]. by destruct batch.
  - cbn [submit_all]. unfold bind at 1. rewrite (submit_existing _ _ _ _ _ Ht Hr Hb).
    unfold bind at 1. erewrite IH; [|done|done|].
    2:{ unfold mutations_added. wsimpl. apply list_lookup_insert_eq.
        by eapply lookup_lt_Some. }
    unfold ret, mutations_added, upd_nontx_batches, upd_futures. wsimpl.
    rewrite length_app, Nat.add_1_r. cbn [nb_options nb_mutations nb_futures length seq].
    rewrite list_insert_insert_eq, <- !app_assoc. done.
Qed.

Lemma nontx_batch_flushed
    (ms : list Mutation) (options : list (string * PyVal)) (w : World) :
  truthy (_get_transaction options w) = false →
  _check_unsupported_options options = Ok tt →
  registry NonTxCommitCls w !! sorted_items options = None →
  ms ≠ [] →
  let b := length (nontx_batches w) in
  let futs := seq (length (futures w)) (length ms) in
  ∃ w1 w2,
    submit_all ms options w = (Ok futs, w1) ∧
    nontx_batches w1 !! b = Some (mkNonTxBatch options ms futs) ∧
    registry NonTxCommitCls w1 !! sorted_items options = Some b ∧
    idlers w1 = idlers w ++ [IdleFlush NonTxCommitCls (sorted_items options)] ∧
    rpc_log w1 = rpc_log w ∧
    idle NonTxCommitCls (sorted_items options) w1 = (Ok tt, w2) ∧
    rpc_log w2 = rpc_log w ++ [CommitRequest NON_TRANSACTIONAL ms PyNone] ∧
    rpc_queue w2 = rpc_queue w ++ [(length (rpc_log w), CbNonTxCommit b)] ∧
    registry NonTxCommitCls w2 !! sorted_items options = None ∧
    futures w2 = futures w ++ replicate (length ms) Pending ∧
    waiters w2 = waiters w ∧
    nontx_batches w2 !! b = Some (mkNonTxBatch options ms futs).
Proof.
  intros Ht Hc Hr Hms b futs. destruct ms as [|m ms]; [done|].
  set (w0 := snd (_get_batch NonTxCommitCls options w)).
  pose proof (get_batch_new_nontx options w Hr Hc) as Hget. fold b in Hget.
  assert (Hreg0 : registry NonTxCommitCls w0 !! sorted_items options = Some b).
  { eapply get_batch_registers. unfold w0. rewrite Hget. reflexivity. }
  assert (Hw0 : w0 = upd_idlers (λ l, l ++ [IdleFlush NonTxCommitCls (sorted_items options)])
       (upd_ctx_batches (λ m, <[NonTxCommitCls :=
            <[sorted_items options := b]> (registry NonTxCommitCls w)]> m)
          (upd_nontx_batches (λ l, l ++ [mkNonTxBatch options [] []]) w))).
  { unfold w0. by rewrite Hget. }
  assert (Hb0 : nontx_batches w0 !! b = Some (mkNonTxBatch options [] [])).
  { rewrite Hw0. wsimpl. apply lookup_snoc_length. }
  assert (Ht0 : truthy (_get_transaction options w0) = false).
  { rewrite (get_transaction_ctx options w w0); [done|]. by rewrite Hw0. }
  assert (Hfirst : submit options m w = (Ok (length (futures w)),
            mutations_added b (mkNonTxBatch options [] []) [m] w0)).
  { assert (length (futures w0) = length (futures w)) as Hlen0 by (by rewrite Hw0).
    destruct m as [e|k]; cbn [submit]; unfold ndb.put, ndb.delete, bind, gets;
      rewrite Ht, Hget, <- Hw0;
      [rewrite NonTxBatch_put_eq | rewrite NonTxBatch_delete_eq];
      unfold mutations_added, upd_nontx_batches; wsimpl;
      rewrite (alter_alter_insert _ _ _ _ _ Hb0), Hlen0; done. }
  set (w1' := mutations_added b (mkNonTxBatch options [] []) [m] w0) in *.
  assert (Hrest : submit_all ms options w1' =
            (Ok (seq (length (futures w1')) (length ms)),
             mutations_added b (mkNonTxBatch options [m] [length (futures w)]) ms w1')).
  { apply submit_all_existing.
    - rewrite (get_transaction_ctx options w w1'); [done|]. unfold w1'. by rewrite Hw0.
    - unfold w1', mutations_added. by rewrite <- Hreg0.
    - unfold w1', mutations_added. wsimpl. cbn [nb_options nb_mutations nb_futures].
      rewrite list_lookup_insert_eq; [|by eapply lookup_lt_Some].
      rewrite Hw0. wsimpl. done. }
  assert (Hlen1 : length (futures w1') = S (length (futures w))).
  { unfold w1', mutations_added. wsimpl. rewrite Hw0. wsimpl.
    rewrite length_app. simpl. lia. }
  set (w1 := mutations_added b (mkNonTxBatch options [m] [length (futures w)]) ms w1').
  assert (Hall : submit_all (m :: ms) options w = (Ok futs, w1)).
  { cbn [submit_all]. unfold bind at 1. rewrite Hfirst. unfold bind at 1.
    rewrite Hrest. unfold ret. rewrite Hlen1. reflexivity. }
  assert (Hb1 : nontx_batches w1 !! b = Some (mkNonTxBatch options (m :: ms) futs)).
  { unfold w1, mutations_added. wsimpl. cbn [nb_options nb_mutations nb_futures].
    rewrite list_lookup_insert_eq.
    - unfold futs. rewrite Hlen1. done.
    - unfold w1', mutations_added. wsimpl. rewrite length_insert.
      by eapply lookup_lt_Some. }
  assert (Hreg1 : registry NonTxCommitCls w1 = <[sorted_items options := b]>
                    (registry NonTxCommitCls w)).
  { unfold w1, w1', mutations_added, registry. wsimpl. rewrite Hw0. wsimpl.
    by rewrite lookup_insert_eq. }
  assert (Hfr : idlers w1 = idlers w ++ [IdleFlush NonTxCommitCls (sorted_items options)] ∧
                rpc_log w1 = rpc_log w ∧ rpc_queue w1 = rpc_queue w ∧
                futures w1 = futures w ++ replicate (length (m :: ms)) Pending ∧
                waiters w1 = waiters w).
  { unfold w1, w1', mutations_added. wsimpl. rewrite Hw0. wsimpl.
    by rewrite <- app_assoc. }
  destruct Hfr as (Hid & Hlog & Hq & Hf & Hwt).
  clearbody w1. clear Hrest Hfirst. clearbody w1' w0.
  exists w1. eexists. split; [exact Hall|].
  split; [exact Hb1|].
  split; [rewrite Hreg1; apply lookup_insert_eq|].
  split; [exact Hid|]. split; [exact Hlog|].
  split.
  { erewrite idle_pops; [|rewrite Hreg1; apply lookup_insert_eq].
    unfold NonTxBatch_idle_callback, get_nontx_batch, _datastore_commit, bind.
    wsimpl. rewrite Hb1. reflexivity. }
  unfold remote_call, queue_rpc, modify. wsimpl. cbn [nb_mutations is_none].
  rewrite Hlog, Hq, Hf, Hwt, Hb1. repeat split; try done.
  unfold registry. wsimpl. rewrite lookup_insert_eq. cbn [from_option id].
  by rewrite lookup_delete_eq.
Qed.

(** X4: consecutive non-transactional [put] and [delete] calls with the same
    options, the first of which finds no batch open, share one batch: it
    holds their mutations in call order, and the i-th future belongs to the
    i-th mutation.  The idle callback registered by the first call takes the
    batch out of the registry and sends all of it in one Commit request, in
    non-transactional mode and without a transaction identifier; no future
    is resolved by then. *)
Theorem nontransactional_mutations_one_commit
    (ms : list Mutation) (options : list (string * PyVal)) (w : World) :
  truthy (_get_transaction options w) = false →
  _check_unsupported_options options = Ok tt →
  registry NonTxCommitCls w !! sorted_items options = None →
  ms ≠ [] →
  let b := length (nontx_batches w) in
  let futs := seq (length (futures w)) (length ms) in
  ∃ w1 w2,
    submit_all ms options w = (Ok futs, w1) ∧
    nontx_batches w1 !! b = Some (mkNonTxBatch options ms futs) ∧
    registry NonTxCommitCls w1 !! sorted_items options = Some b ∧
    idlers w1 = idlers w ++ [IdleFlush NonTxCommitCls (sorted_items options)] ∧
    rpc_log w1 = rpc_log w ∧
    idle NonTxCommitCls (sorted_items options) w1 = (Ok tt, w2) ∧
    rpc_log w2 = rpc_log w ++ [CommitRequest NON_TRANSACTIONAL ms PyNone] ∧
    rpc_queue w2 = rpc_queue w ++ [(length (rpc_log w), CbNonTxCommit b)] ∧
    registry NonTxCommitCls w2 !! sorted_items options = None ∧
    futures w2 = futures w ++ replicate (length ms) Pending.
Proof.
  intros Ht Hc Hr Hms b futs.
  destruct (nontx_batch_flushed ms options w Ht Hc Hr Hms)
    as (w1 & w2 & H1 & H2 & H3 & H4 & H5 & H6 & H7 & H8 & H9 & H10 & _).
  exists w1, w2. repeat split; assumption.
Qed.

Lemma nontransactional_mutations_one_commit_witness :
  let ms := [Upsert (sample_entity 1); Delete (sample_key 2); Upsert (sample_entity 0)] in
  ∃ w1 w2,
    submit_all ms [] (empty_world PyNone) = (Ok [0; 1; 2], w1) ∧
    idle NonTxCommitCls [] w1 = (Ok tt, w2) ∧
    rpc_log w2 = [CommitRequest NON_TRANSACTIONAL ms PyNone].
Proof.
  intros ms.
  destruct (nontransactional_mutations_one_commit ms [] (empty_world PyNone))
    as (w1 & w2 & H1 & _ & _ & _ & _ & H2 & H3 & _); [reflexivity.. | discriminate |].
  by exists w1, w2.
Defined.

Lemma commit_callback_fresh (b : nat) (batch : NonTxBatch) (n k : nat) (w : World) :
  nontx_batches w !! b = Some batch → nb_futures batch = seq n k →
  (∀ i, i < k → future_state (n + i) w = Some Pending) →
  Forall (λ fk : nat * Cont, fst fk < n) (waiters w) →
  (∀ mutation_results, ∃ w',
     nontx_commit_callback b (RpcOk (CommitResult mutation_results)) w = (Ok tt, w') ∧
     ∀ i key, i < k → mutation_results !! i = Some key →
       future_state (n + i) w' = Some (Done (if key_path key is [] then RNone else RKey key))) ∧
  (∀ exception, ∃ w',
     nontx_commit_callback b (RpcExc exception) w = (Ok tt, w') ∧
     ∀ i, i < k → future_state (n + i) w' = Some (Failed exception)).
Proof.
  intros Hb Hfs Hpend Hwt.
  assert (Hnd : NoDup (nb_futures batch)) by (rewrite Hfs; apply NoDup_seq).
  assert (Hin : ∀ f, f ∈ seq n k → ∃ i, i < k ∧ f = n + i).
  { intros f Hf. apply elem_of_seq in Hf. exists (f - n). lia. }
  assert (Hall : Forall (λ f, is_Some (future_state f w) ∧ (pending f w → unawaited f w))
                   (nb_futures batch)).
  { rewrite Hfs. apply Forall_forall. intros f Hf.
    destruct (Hin f Hf) as (i & Hi & ->). split; [by rewrite Hpend|].
    intros _. unfold unawaited. eapply Forall_impl; [exact Hwt|].
    intros fk Hfk. simpl in *. lia. }
  assert (Hlt : ∀ i, i < k → n + i < length (futures w)).
  { intros i Hi. apply lookup_lt_is_Some. specialize (Hpend i Hi).
    unfold future_state in Hpend. by rewrite Hpend. }
  assert (Hd : ∀ i, i < k → done (n + i) w = false).
  { intros i Hi. unfold done. by rewrite Hpend. }
  split.
  - intros rs. eexists. split.
    + unfold nontx_commit_callback, bind, get_nontx_batch. rewrite Hb.
      by apply process_commit_ok.
    + intros i key Hi Hk. unfold future_state. wsimpl. apply apply_asg_in.
      * eapply sublist_NoDup; [|apply (fmap_sublist fst), sublist_filter].
        rewrite guarded_pairs_fst. by apply NoDup_take.
      * apply list_elem_of_filter. split; [by apply Hd|].
        apply list_elem_of_fmap. exists (key, n + i). split; [done|].
        apply (list_elem_of_lookup_2 _ i). apply lookup_zip_Some. split; [done|].
        rewrite Hfs. by apply lookup_seq.
      * by apply Hlt.
  - intros e. eexists. split.
    + unfold nontx_commit_callback, bind, get_nontx_batch. rewrite Hb.
      by apply process_commit_exc.
    + intros i Hi. unfold future_state. wsimpl. apply apply_asg_in.
      * eapply sublist_NoDup; [|apply (fmap_sublist fst), sublist_filter].
        rewrite map_map. simpl. by rewrite map_id.
      * apply list_elem_of_filter. split; [by apply Hd|].
        apply list_elem_of_fmap. exists (n + i). split; [done|].
        rewrite Hfs. apply elem_of_seq. lia.
      * by apply Hlt.
Qed.

(** X5: the future that a non-transactional [put] or [delete] returns is
    resolved by the response to the Commit request of its batch: the future
    of the i-th call receives the key of the i-th mutation result, or
    [None] when that key has an empty path, and when the request fails
    every future of the batch fails with its exception. *)
Theorem nontransactional_futures_get_keys
    (ms : list Mutation) (options : list (string * PyVal)) (w : World) :
  truthy (_get_transaction options w) = false →
  _check_unsupported_options options = Ok tt →
  registry NonTxCommitCls w !! sorted_items options = None →
  ms ≠ [] → waiters_wf w →
  let b := length (nontx_batches w) in
  let n := length (futures w) in
  ∃ w1 w2,
    submit_all ms options w = (Ok (seq n (length ms)), w1) ∧
    idle NonTxCommitCls (sorted_items options) w1 = (Ok tt, w2) ∧
    (∀ mutation_results, ∃ w3,
       nontx_commit_callback b (RpcOk (CommitResult mutation_results)) w2 = (Ok tt, w3) ∧
       ∀ i key, i < length ms → mutation_results !! i = Some key →
         future_state (n + i) w3 =
           Some (Done (if key_path key is [] then RNone else RKey key))) ∧
    (∀ exception, ∃ w3,
       nontx_commit_callback b (RpcExc exception) w2 = (Ok tt, w3) ∧
       ∀ i, i < length ms → future_state (n + i) w3 = Some (Failed exception)).
Proof.
  intros Ht Hc Hr Hms Hwf b n.
  destruct (nontx_batch_flushed ms options w Ht Hc Hr Hms)
    as (w1 & w2 & H1 & _ & _ & _ & _ & H2 & _ & _ & _ & Hf & Hwt & Hb).
  exists w1, w2. split; [exact H1|]. split; [exact H2|].
  apply (commit_callback_fresh b _ n (length ms) w2 Hb eq_refl).
  - intros i Hi. unfold future_state. rewrite Hf.
    rewrite lookup_app_r by (unfold n; lia).
    apply lookup_replicate. split; [done | unfold n; lia].
  - rewrite Hwt. exact Hwf.
Qed.

Lemma nontransactional_futures_get_keys_witness :
  let ms := [Upsert (sample_entity 0); Delete (sample_key 2)] in
  ∃ w1 w2 w3,
    submit_all ms [] (empty_world PyNone) = (Ok [0; 1], w1) ∧
    idle NonTxCommitCls [] w1 = (Ok tt, w2) ∧
    nontx_commit_callback 0 (RpcOk (CommitResult [sample_key 5; empty_key])) w2 = (Ok tt, w3) ∧
    future_state 0 w3 = Some (Done (RKey (sample_key 5))) ∧
    future_state 1 w3 = Some (Done RNone).
Proof.
  intros ms.
  destruct (nontransactional_futures_get_keys ms [] (empty_world PyNone))
    as (w1 & w2 & H1 & H2 & Hok & _);
    [reflexivity | reflexivity | reflexivity | discriminate | apply waiters_wf_empty |].
  destruct (Hok [sample_key 5; empty_key]) as (w3 & H3 & Hres).
  exists w1, w2, w3. split; [exact H1|]. split; [exact H2|]. split; [exact H3|].
  split.
  - apply (Hres 0 (sample_key 5)); [simpl; lia | reflexivity].
  - apply (Hres 1 empty_key); [simpl; lia | reflexivity].
Defined.

(** *** Responses that are shorter or longer than the batch *)

Lemma zip_take_l {A B} (l : list A) (k : list B) : zip (take (length k) l) k = zip l k.
Proof.
  revert k. induction l as [|x l IH]; intros [|y k]; simpl; [done..|]. by rewrite IH.
Qed.

(** X6: [_process_commit] pairs results and futures up to the shorter of the
    two lists.  Results that have no future are ignored, and a future that
    has no result is left as it was: it is not resolved and it does not
    fail. *)
Theorem process_commit_short_response
    (mutation_results : list Key_pb) (futs : list nat) (w : World) :
  NoDup futs →
  Forall (λ f, is_Some (future_state f w) ∧ (pending f w → unawaited f w)) futs →
  _process_commit (RpcOk (CommitResult mutation_results)) futs w =
    _process_commit (RpcOk (CommitResult (take (length futs) mutation_results))) futs w ∧
  eval (_process_commit (RpcOk (CommitResult mutation_results)) futs) w = Ok tt ∧
  ∀ i f, futs !! i = Some f → length mutation_results ≤ i →
    future_state f (exec (_process_commit (RpcOk (CommitResult mutation_results)) futs) w)
      = future_state f w.
Proof.
  intros Hnd Hall. split; [|split].
  - unfold _process_commit. by rewrite zip_take_l.
  - unfold eval. by rewrite process_commit_ok.
  - intros i f Hi Hlen. unfold exec. rewrite process_commit_ok; [|done..].
    unfold future_state. wsimpl. apply apply_asg_other. intros Hin.
    apply list_elem_of_fmap in Hin as [[g s] [-> Hin]].
    apply list_elem_of_filter in Hin as [_ Hin].
    assert (g ∈ take (length mutation_results) futs) as Hg.
    { rewrite <- guarded_pairs_fst. apply list_elem_of_fmap. by exists (g, s). }
    apply list_elem_of_lookup in Hg as [j Hj].
    apply lookup_take_Some in Hj as [Hj Hlt]. cbn [fst] in Hi.
    pose proof (NoDup_lookup _ _ _ _ Hnd Hi Hj). lia.
Qed.

Lemma process_commit_short_response_witness :
  let w' := exec (_process_commit (RpcOk (CommitResult [sample_key 7])) [0; 2]) three_futures in
  future_state 0 w' = Some (Done (RKey (sample_key 7))) ∧
  future_state 2 w' = future_state 2 three_futures.
Proof.
  intros w'. split; [vm_compute; reflexivity|].
  refine (proj2 (proj2 (process_commit_short_response [sample_key 7] [0; 2] three_futures
                          _ _)) 1 2 eq_refl _).
  - apply (bool_decide_unpack _). reflexivity.
  - repeat constructor; eauto.
  - simpl. lia.
Defined.

(** *** The commit of a transaction *)

Lemma TxBatch_commit_empty (b : nat) (batch : TxBatch) (w : World) :
  tx_batches w !! b = Some batch → tb_mutations batch = [] →
  TxBatch_commit b w =
    (Ok (length (futures w)),
     upd_futures (λ fs, <[length (futures w) := Done RNone]> fs)
       (upd_futures (λ fs, fs ++ [Pending]) w)).
Proof.
  intros Hb Hm. unfold TxBatch_commit, get_tx_batch. munfold. wsimpl. rewrite Hb, Hm.
  unfold settle, future_state. wsimpl. by rewrite lookup_snoc_length.
Qed.

(** X7: [commit] for a transaction whose batch holds no mutation, or that
    has no batch yet, sends nothing and suspends on nothing: the future it
    returns is already resolved with [None].  The batch is registered under
    the transaction all the same. *)
Theorem commit_without_mutations (transaction : PyVal) (w : World) :
  (∀ b, ctx_commit_batches w !! transaction = Some b →
        ∃ batch, tx_batches w !! b = Some batch ∧ tb_mutations batch = []) →
  ∃ b w',
    ndb.commit transaction w = (Ok (length (futures w)), w') ∧
    ctx_commit_batches w' !! transaction = Some b ∧
    future_state (length (futures w)) w' = Some (Done RNone) ∧
    rpc_log w' = rpc_log w ∧ rpc_queue w' = rpc_queue w ∧
    idlers w' = idlers w ∧ waiters w' = waiters w.
Proof.
  intros H. unfold ndb.commit, bind.
  destruct (ctx_commit_batches w !! transaction) as [b|] eqn:E.
  - destruct (H b eq_refl) as (batch & Hb & Hm).
    rewrite (get_commit_batch_existing _ _ _ b); [|done..].
    rewrite (TxBatch_commit_empty _ _ _ Hb Hm).
    exists b. eexists. split; [done|]. unfold future_state. wsimpl.
    repeat split; try done.
    rewrite list_lookup_insert_eq; [done|]. rewrite length_app. simpl. lia.
  - rewrite get_commit_batch_new; [|done..].
    erewrite TxBatch_commit_empty; [| wsimpl; apply lookup_snoc_length | done].
    eexists _, _. split; [done|]. unfold future_state. wsimpl.
    split; [apply lookup_insert_eq|]. repeat split; try done.
    rewrite list_lookup_insert_eq; [done|]. rewrite length_app. simpl. lia.
Qed.

Lemma commit_without_mutations_witness :
  ∃ w', ndb.commit sample_txn (empty_world PyNone) = (Ok 0, w') ∧
        future_state 0 w' = Some (Done RNone) ∧ rpc_log w' = [].
Proof.
  destruct (commit_without_mutations sample_txn (empty_world PyNone))
    as (b & w' & H1 & _ & H2 & H3 & _).
  - intros b. cbn. rewrite lookup_empty. discriminate.
  - by exists w'.
Defined.

Lemma TxBatch_commit_sends (b : nat) (batch : TxBatch) (w : World) :
  tx_batches w !! b = Some batch → tb_mutations batch ≠ [] →
  Forall (λ f, done f w = true) (tb_allocating_ids batch) →
  TxBatch_commit b w =
    (Ok (length (futures w)),
     commit_sent b batch (length (futures w)) (upd_futures (λ fs, fs ++ [Pending]) w)).
Proof.
  intros Hb Hm Hd. rewrite (TxBatch_commit_enters _ _ _ Hb Hm).
  rewrite (commit_loop_finishes b batch); [done..|].
  rewrite drop_0. apply first_unresolved_None.
  eapply Forall_impl; [exact Hd|]. intros f Hf. by rewrite done_new_future.
Qed.

(** X8: [commit] leaves the batch registered under its transaction, with its
    mutations in place.  A second [commit] of the same transaction finds
    every allocation marker resolved and sends the same Commit request
    again. *)
Theorem commit_twice_sends_twice (transaction : PyVal) (b : nat) (batch : TxBatch) (w : World) :
  ctx_commit_batches w !! transaction = Some b →
  tx_batches w !! b = Some batch → tb_mutations batch ≠ [] →
  Forall (λ f, done f w = true) (tb_allocating_ids batch) →
  ∃ w1 w2 batch2,
    ndb.commit transaction w = (Ok (length (futures w)), w1) ∧
    ctx_commit_batches w1 !! transaction = Some b ∧
    ndb.commit transaction w1 = (Ok (length (futures w1)), w2) ∧
    rpc_log w2 = rpc_log w ++ [commit_request batch w; commit_request batch w] ∧
    tx_batches w2 !! b = Some batch2 ∧ tb_mutations batch2 = tb_mutations batch.
Proof.
  intros Hr Hb Hm Hd.
  set (w1 := commit_sent b batch (length (futures w)) (upd_futures (λ fs, fs ++ [Pending]) w)).
  assert (H1 : ndb.commit transaction w = (Ok (length (futures w)), w1)).
  { unfold ndb.commit, bind. rewrite (get_commit_batch_existing _ _ _ b); [|done..].
    by apply TxBatch_commit_sends. }
  assert (Hb1 : tx_batches w1 !! b = Some (clear_incomplete batch)).
  { unfold w1, commit_sent. wsimpl. by rewrite list_lookup_alter_eq, Hb. }
  assert (Hr1 : ctx_commit_batches w1 !! transaction = Some b) by done.
  assert (Hd1 : Forall (λ f, done f w1 = true) (tb_allocating_ids (clear_incomplete batch))).
  { cbn [clear_incomplete tb_allocating_ids]. eapply Forall_impl; [exact Hd|].
    intros f Hf. unfold w1, commit_sent.
    change (done f (upd_futures (λ fs, fs ++ [Pending])
                      (upd_futures (λ fs, fs ++ [Pending]) w)) = true).
    by rewrite !done_new_future. }
  exists w1. eexists. exists (clear_incomplete (clear_incomplete batch)).
  split; [exact H1|]. split; [exact Hr1|]. split.
  { unfold ndb.commit, bind. rewrite (get_commit_batch_existing _ _ _ b); [|done..].
    by apply TxBatch_commit_sends. }
  split; [|split; [|done]].
  - unfold commit_sent. wsimpl. unfold w1, commit_sent. wsimpl.
    rewrite <- app_assoc. done.
  - unfold commit_sent. wsimpl. by rewrite list_lookup_alter_eq, Hb1.
Qed.

Lemma commit_twice_sends_twice_witness :
  let w := exec (ndb.put (sample_entity 1) [("transaction", sample_txn)]) (empty_world PyNone) in
  let request := CommitRequest TRANSACTIONAL [Upsert (sample_entity 1)] sample_txn in
  ∃ w1 w2, ndb.commit sample_txn w = (Ok 1, w1) ∧ ndb.commit sample_txn w1 = (Ok 3, w2) ∧
           rpc_log w2 = [request; request].
Proof.
  intros w request.
  destruct (commit_twice_sends_twice sample_txn 0
              (mkTxBatch [("transaction", sample_txn)] [0] [0] sample_txn [] [] []) w)
    as (w1 & w2 & batch2 & H1 & _ & H2 & H3 & _).
  - vm_compute. reflexivity.
  - vm_compute. reflexivity.
  - discriminate.
  - constructor.
  - exists w1, w2. split; [exact H1|]. split; [|exact H3].
    rewrite H2. f_equal. f_equal.
    apply (f_equal snd) in H1. cbn [snd] in H1. rewrite <- H1. vm_compute. reflexivity.
Defined.

(** *** Deleting in a transaction *)

(** X9: a [delete] in a transaction appends the deletion and its future to
    the batch and does nothing else: whatever the key, no allocation is
    scheduled and no request is sent, the pending-incomplete lists and the
    markers stay as they are, and the future stays unresolved until the
    transaction is committed. *)
Theorem transactional_delete_waits_for_commit
    (b : nat) (batch : TxBatch) (key : Key_pb) (w : World) :
  tx_batches w !! b = Some batch →
  let f := length (futures w) in
  let m := length (mutation_objs w) in
  ∃ w',
    TxBatch_delete b key w = (Ok f, w') ∧
    tx_batches w' !! b =
      Some (mkTxBatch (tb_options batch) (tb_mutations batch ++ [m]) (tb_futures batch ++ [f])
              (tb_transaction batch) (tb_allocating_ids batch)
              (tb_incomplete_mutations batch) (tb_incomplete_futures batch)) ∧
    mutation_objs w' = mutation_objs w ++ [Delete key] ∧
    future_state f w' = Some Pending ∧
    idlers w' = idlers w ∧ rpc_log w' = rpc_log w ∧ rpc_queue w' = rpc_queue w ∧
    waiters w' = waiters w.
Proof.
  intros Hb f m. eexists. split; [reflexivity|].
  unfold future_state. wsimpl. rewrite !list_lookup_alter_eq, Hb.
  repeat split; try done. apply lookup_snoc_length.
Qed.

Lemma transactional_delete_waits_for_commit_witness :
  let w := exec (_get_commit_batch sample_txn []) (empty_world PyNone) in
  ∃ w', TxBatch_delete 0 empty_key w = (Ok 0, w') ∧
        future_state 0 w' = Some Pending ∧ idlers w' = [].
Proof.
  intros w.
  destruct (transactional_delete_waits_for_commit 0
              (mkTxBatch [("transaction", sample_txn)] [] [] sample_txn [] [] [])
              empty_key w)
    as (w' & H1 & _ & _ & H2 & H3 & _); [vm_compute; reflexivity|].
  by exists w'.
Defined.

(** *** The outcome of a commit *)

Lemma resolve_wakes_final (f tf : nat) (s : FutState) (w : World) :
  pending f w → pending tf w → f ≠ tf →
  filter (λ fk, waits_on f fk = true) (waiters w) = [(f, KCommitFinal tf)] →
  resolve f s w =
    (Ok tt,
     upd_futures (λ fs, <[tf := if s is Failed e then Failed e else Done RNone]> fs)
       (upd_waiters (filter (λ fk, waits_on f fk = false))
          (upd_futures (λ fs, <[f := s]> fs) w))).
Proof.
  intros Hf Htf Hne Hw. unfold resolve, bind. rewrite (settle_pending _ _ _ Hf).
  unfold gets, modify. wsimpl. rewrite Hw. cbn [for_ snd]. unfold bind, ret.
  assert (pending tf (upd_waiters (filter (λ fk, waits_on f fk = false))
                        (upd_futures (λ fs, <[f := s]> fs) w))) as Hp.
  { unfold pending, future_state in *. wsimpl. by rewrite list_lookup_insert_ne. }
  destruct s; cbn [resume]; by rewrite (settle_pending _ _ _ Hp).
Qed.

(** X10: when the Commit request of a transaction completes, the callback of
    [commit] hands the response to the futures of the batch and then
    completes the commit itself: the future that [commit] returned is
    resolved with [None] when the request succeeded, and fails with the
    exception of the request when it failed, as do the futures of the batch
    that were still unresolved. *)
Theorem commit_future_outcome
    (b : nat) (batch : TxBatch) (future tasklet_future : nat) (w : World) :
  tx_batches w !! b = Some batch →
  NoDup (tb_futures batch) →
  Forall (λ f, is_Some (future_state f w) ∧ (pending f w → unawaited f w)) (tb_futures batch) →
  pending future w → pending tasklet_future w → future ≠ tasklet_future →
  future ∉ tb_futures batch → tasklet_future ∉ tb_futures batch →
  filter (λ fk, waits_on future fk = true) (waiters w) = [(future, KCommitFinal tasklet_future)] →
  (∀ mutation_results, ∃ w',
     tx_commit_callback b future (RpcOk (CommitResult mutation_results)) w = (Ok tt, w') ∧
     future_state tasklet_future w' = Some (Done RNone)) ∧
  (∀ exception, ∃ w',
     tx_commit_callback b future (RpcExc exception) w = (Ok tt, w') ∧
     future_state tasklet_future w' = Some (Failed exception) ∧
     ∀ f, f ∈ tb_futures batch → pending f w → future_state f w' = Some (Failed exception)).
Proof.
  intros Hb Hnd Hall Hcf Htf Hne Hcfb Htfb Hw.
  assert (Hother : ∀ asg g, map fst asg ⊆ tb_futures batch → g ∉ tb_futures batch →
            pending g w → pending g (upd_futures (apply_asg asg) w)).
  { intros asg g Hsub Hg Hp. unfold pending, future_state in *. wsimpl.
    rewrite apply_asg_other; [done|]. intros Hin. by apply Hg, Hsub. }
  assert (Hlen : ∀ g, g ∈ tb_futures batch → g < length (futures w)).
  { intros g Hg. rewrite Forall_forall in Hall. destruct (Hall g Hg) as [Hs _].
    by apply lookup_lt_is_Some. }
  split.
  - intros rs.
    set (asg := filter (λ p : nat * FutState, done (fst p) w = false)
                  (map (λ kf : Key_pb * nat, (snd kf, Done (key_or_none (fst kf))))
                     (zip rs (tb_futures batch)))).
    assert (Hsub : map fst asg ⊆ tb_futures batch).
    { intros g Hg. apply list_elem_of_fmap in Hg as [[g' s] [-> Hg]].
      apply list_elem_of_filter in Hg as [_ Hg].
      assert (g' ∈ take (length rs) (tb_futures batch)) as Hin.
      { rewrite <- guarded_pairs_fst. apply list_elem_of_fmap. by exists (g', s). }
      eapply elem_of_sublist; [exact Hin | apply sublist_take]. }
    eexists. split.
    + unfold tx_commit_callback, bind, get_tx_batch. rewrite Hb.
      rewrite process_commit_ok; [|done..]. fold asg. unfold set_result.
      rewrite (resolve_wakes_final future tasklet_future); [reflexivity| | |done|done].
      * by apply Hother.
      * by apply Hother.
    + unfold future_state. wsimpl. apply list_lookup_insert_eq.
      rewrite length_insert, apply_asg_length.
      apply lookup_lt_is_Some. unfold pending, future_state in Htf. by rewrite Htf.
  - intros e.
    set (asg := filter (λ p : nat * FutState, done (fst p) w = false)
                  (map (λ f, (f, Failed e)) (tb_futures batch))).
    assert (Hfst : map fst (map (λ f : nat, (f, Failed e)) (tb_futures batch))
                   = tb_futures batch).
    { rewrite map_map. simpl. by rewrite map_id. }
    assert (Hsub : map fst asg ⊆ tb_futures batch).
    { intros g Hg. apply list_elem_of_fmap in Hg as [[g' s] [-> Hg]].
      apply list_elem_of_filter in Hg as [_ Hg]. rewrite <- Hfst.
      apply list_elem_of_fmap. by exists (g', s). }
    eexists. split; [|split].
    + unfold tx_commit_callback, bind, get_tx_batch. rewrite Hb.
      rewrite process_commit_exc; [|done..]. fold asg. unfold set_exception.
      rewrite (resolve_wakes_final future tasklet_future); [reflexivity| | |done|done].
      * by apply Hother.
      * by apply Hother.
    + unfold future_state. wsimpl. apply list_lookup_insert_eq.
      rewrite length_insert, apply_asg_length.
      apply lookup_lt_is_Some. unfold pending, future_state in Htf. by rewrite Htf.
    + intros f Hf Hp. unfold future_state. wsimpl.
      rewrite list_lookup_insert_ne; [|by intros <-].
      rewrite list_lookup_insert_ne; [|by intros <-].
      apply apply_asg_in.
      * eapply sublist_NoDup; [|apply (fmap_sublist fst), sublist_filter].
        rewrite map_map. simpl. by rewrite map_id.
      * apply list_elem_of_filter. split.
        { cbn [fst]. apply done_pending; [|done]. unfold pending in Hp. by rewrite Hp. }
        apply list_elem_of_fmap. by exists f.
      * by apply Hlen.
Qed.

Lemma commit_future_outcome_witness :
  let options := [("transaction", sample_txn)] in
  let w := exec (run ndb.delete (sample_key 1) options; ndb.commit sample_txn)
             (empty_world PyNone) in
  ∃ w', tx_commit_callback 0 2 (RpcExc (RpcFailure 13)) w = (Ok tt, w') ∧
        future_state 1 w' = Some (Failed (RpcFailure 13)) ∧
        future_state 0 w' = Some (Failed (RpcFailure 13)).
Proof.
  intros options w.
  destruct (commit_future_outcome 0
              (mkTxBatch [("transaction", sample_txn)] [0] [0] sample_txn [] [] []) 2 1 w)
    as [_ Hexc].
  - vm_compute. reflexivity.
  - apply NoDup_singleton.
  - constructor; [|constructor]. split; [eexists; vm_compute; reflexivity|].
    intros _. unfold unawaited. vm_compute. repeat constructor. discriminate.
  - vm_compute. reflexivity.
  - vm_compute. reflexivity.
  - discriminate.
  - cbn [tb_futures]. intros H. apply list_elem_of_singleton in H. discriminate.
  - cbn [tb_futures]. intros H. apply list_elem_of_singleton in H. discriminate.
  - vm_compute. reflexivity.
  - destruct (Hexc (RpcFailure 13)) as (w' & H1 & H2 & H3).
    exists w'. split; [exact H1|]. split; [exact H2|].
    apply H3; [cbn [tb_futures]; left | vm_compute; reflexivity].
Defined.

(** *** The end of an allocation round *)

Lemma commit_loop_done_stable (b i tf f : nat) (w : World) :
  done f w = true → done f (snd (commit_loop b i tf w)) = true.
Proof.
  intros Hd. destruct (tx_batches w !! b) as [batch|] eqn:Hb.
  2:{ unfold commit_loop, get_tx_batch, bind. by rewrite Hb. }
  destruct (first_unresolved (drop i (tb_allocating_ids batch)) i w) as [[j g]|] eqn:F.
  - by rewrite (commit_loop_suspends _ _ _ _ _ _ _ Hb F).
  - rewrite (commit_loop_finishes _ _ _ _ _ Hb F). unfold commit_sent. cbn [snd].
    change (done f (upd_futures (λ fs, fs ++ [Pending]) w) = true).
    by rewrite done_new_future.
Qed.

Lemma resume_done_stable (s : FutState) (k : Cont) (f : nat) (w : World) :
  done f w = true → done f (snd (resume s k w)) = true.
Proof.
  intros Hd. destruct k as [b i tf|tf], s; cbn [resume];
    solve [by apply commit_loop_done_stable | by apply (evolves_settle _ _ w)].
Qed.

Lemma resume_all_done_stable (s : FutState) (woken : list (nat * Cont)) (f : nat) (w : World) :
  done f w = true → done f (snd (for_ woken (λ fk, resume s (snd fk)) w)) = true.
Proof.
  revert w. induction woken as [|[g k] woken IH]; intros w Hd; [done|].
  cbn [for_ snd]. unfold bind.
  pose proof (resume_done_stable s k f w Hd) as H.
  destruct (resume s k w) as [[[]|e] w']; [by apply IH | done].
Qed.

Lemma resolve_done (f : nat) (s : FutState) (w : World) :
  pending f w → fut_done s = true → done f (snd (resolve f s w)) = true.
Proof.
  intros Hp Hs. unfold resolve, bind. rewrite (settle_pending _ _ _ Hp).
  unfold gets, modify. cbn [fst snd]. apply resume_all_done_stable.
  unfold done, future_state. wsimpl. rewrite list_lookup_insert_eq; [done|].
  apply lookup_lt_is_Some. unfold pending, future_state in Hp. by rewrite Hp.
Qed.

Lemma for_raises_at {A} (l1 l2 : list A) (x : A) (body : A → M unit) (w w1 w2 : World)
    (e : Exn) :
  for_ l1 body w = (Ok tt, w1) → body x w1 = (Raise e, w2) →
  for_ (l1 ++ x :: l2) body w = (Raise e, w2).
Proof.
  revert w. induction l1 as [|y l1 IH]; intros w H1 H2.
  - cbn in H1. injection H1 as <-. cbn [app for_]. unfold bind. by rewrite H2.
  - cbn [app for_] in *. unfold bind in *.
    destruct (body y w) as [[[]|e'] w']; [by apply IH | done].
Qed.

Lemma zip3_snd_take {A B C} (la : list A) (lb : list B) (lc : list C) :
  map snd (zip3 la lb lc) = take (length la `min` length lb) lc.
Proof.
  revert lb lc. induction la as [|a la IH]; intros [|b lb] [|c lc]; simpl; try done.
  by rewrite IH.
Qed.

Lemma zip3_take {A B C} (la : list A) (lb : list B) (lc : list C) (i : nat) :
  take i (zip3 la lb lc) = zip3 (take i la) (take i lb) (take i lc).
Proof.
  revert la lb lc. induction i as [|i IH]; intros [|a la] [|b lb] [|c lc]; simpl; try done.
  by rewrite IH.
Qed.

(** [allocate_ids_callback] on futures that are all unresolved: it returns,
    and it touches neither the tasklets that wait, nor the batches, nor a
    future that is not one of its own. *)
Lemma allocate_ids_callback_ok (rpc : RpcOutcome) (mutations futs : list nat) (w : World) :
  NoDup futs → Forall (λ f, pending f w ∧ unawaited f w) futs →
  (∃ exception, rpc = RpcExc exception) ∨ (∃ keys, rpc = RpcOk (AllocateIdsResult keys)) →
  ∃ w0,
    allocate_ids_callback rpc mutations futs w = (Ok tt, w0) ∧
    waiters w0 = waiters w ∧ tx_batches w0 = tx_batches w ∧
    ∀ x, x ∉ futs → future_state x w0 = future_state x w.
Proof.
  intros Hnd Hall [[e ->]|[keys ->]]; cbn [allocate_ids_callback].
  - eexists. split; [|split; [|split]].
    + rewrite <- (for_map (λ g, (g, Failed e)) futs (λ fs, resolve (fst fs) (snd fs))).
      apply resolve_all; rewrite map_map; simpl; by rewrite map_id.
    + reflexivity.
    + reflexivity.
    + intros x Hx. unfold future_state. wsimpl. apply apply_asg_other.
      rewrite map_map. simpl. by rewrite map_id.
  - eexists. split; [|split; [|split]].
    + apply allocate_loop.
      * eapply sublist_NoDup; [exact Hnd | apply zip3_snd_sublist].
      * eapply Forall_sublist; [exact Hall | apply zip3_snd_sublist].
    + reflexivity.
    + reflexivity.
    + intros x Hx. unfold future_state. wsimpl. apply apply_asg_other.
      rewrite map_map. simpl. intros Hin. apply Hx.
      eapply elem_of_sublist; [exact Hin | apply zip3_snd_sublist].
Qed.

(** X11: while the futures of an allocation round are unresolved, the
    callback of the round resolves its marker whether the AllocateIds
    request succeeded or failed, and a [commit] that is suspended on the
    marker goes on at once from the next marker: it suspends on the next
    one that is unresolved, or it sends its Commit request.  The condition
    matters.  When a future of the round is resolved already, as after a
    failed Commit of the same batch, the callback raises when it comes to
    that future and the marker is left unresolved. *)
Theorem allocation_round_wakes_commit
    (rpc : RpcOutcome) (mutations futs : list nat) (marker : nat) (w : World) :
  NoDup futs → pending marker w → marker ∉ futs →
  (∃ exception, rpc = RpcExc exception) ∨ (∃ keys, rpc = RpcOk (AllocateIdsResult keys)) →
  let after := exec (allocate_callback rpc mutations futs marker) w in
  (Forall (λ f, pending f w ∧ unawaited f w) futs →
     ∃ w0,
       allocate_ids_callback rpc mutations futs w = (Ok tt, w0) ∧
       done marker after = true ∧
       ∀ b batch i tf,
         tx_batches w !! b = Some batch →
         filter (λ fk, waits_on marker fk = true) (waiters w) = [(marker, KCommitLoop b i tf)] →
         let w1 := upd_waiters (filter (λ fk, waits_on marker fk = false))
                     (upd_futures (λ fs, <[marker := Done RNone]> fs) w0) in
         allocate_callback rpc mutations futs marker w =
           match first_unresolved (drop (S i) (tb_allocating_ids batch)) (S i) w1 with
           | Some (j, next) =>
               (Ok tt, upd_waiters (λ l, l ++ [(next, KCommitLoop b j tf)]) w1)
           | None => (Ok tt, commit_sent b batch tf w1)
           end) ∧
  (∀ i g,
     futs !! i = Some g → ¬ pending g w →
     Forall (λ f, pending f w ∧ unawaited f w) (take i futs) →
     (∀ keys, rpc = RpcOk (AllocateIdsResult keys) → i < length mutations ∧ i < length keys) →
     eval (allocate_callback rpc mutations futs marker) w = Raise RuntimeError ∧
     pending marker after).
Proof.
  intros Hnd Hm Hnotin Hrpc after. split.
  - intros Hall.
    destruct (allocate_ids_callback_ok rpc mutations futs w Hnd Hall Hrpc)
      as (w0 & H0 & Hw0 & Hb0 & Hf0).
    assert (Hp0 : pending marker w0) by (unfold pending; by rewrite Hf0).
    exists w0. split; [exact H0|]. split.
    { unfold after, exec, allocate_callback, bind. rewrite H0.
      by apply resolve_done. }
    intros b batch i tf Hb Hw w1.
    unfold allocate_callback. unfold bind at 1. rewrite H0.
    unfold set_result, resolve. unfold bind at 1. rewrite (settle_pending _ _ _ Hp0).
    unfold bind at 1. unfold gets. unfold bind at 1. unfold modify. wsimpl.
    rewrite Hw0, Hw. fold w1.
    cbn [for_ snd resume]. unfold bind.
    assert (Hb1 : tx_batches w1 !! b = Some batch).
    { unfold w1. wsimpl. by rewrite Hb0. }
    destruct (first_unresolved (drop (S i) (tb_allocating_ids batch)) (S i) w1)
      as [[j next]|] eqn:F.
    + by rewrite (commit_loop_suspends _ _ _ _ _ _ _ Hb1 F).
    + by rewrite (commit_loop_finishes _ _ _ _ _ Hb1 F).
  - intros i g Hi Hg Hpre Hlen.
    assert (Hgi : g ∉ take i futs).
    { intros Hin. apply list_elem_of_lookup in Hin as [j Hj].
      apply lookup_take_Some in Hj as [Hj Hlt].
      pose proof (NoDup_lookup _ _ _ _ Hnd Hi Hj). lia. }
    assert (Hmi : marker ∉ take i futs).
    { intros Hin. apply Hnotin. eapply elem_of_sublist; [exact Hin | apply sublist_take]. }
    assert (Hndi : NoDup (take i futs)) by by apply NoDup_take.
    assert (Hraise : ∃ w2, allocate_ids_callback rpc mutations futs w = (Raise RuntimeError, w2)
                           ∧ future_state marker w2 = future_state marker w).
    { destruct (allocate_ids_callback_ok rpc (take i mutations) (take i futs) w Hndi Hpre Hrpc)
        as (w1 & H1 & _ & _ & Hf1).
      destruct Hrpc as [[e ->]|[keys ->]]; cbn [allocate_ids_callback] in *.
      - rewrite <- (take_drop_middle _ _ _ Hi).
        exists w1. split; [|by apply Hf1].
        eapply for_raises_at; [exact H1|].
        apply resolve_not_pending. unfold pending. by rewrite Hf1.
      - destruct (Hlen keys eq_refl) as [Hlm Hlk].
        destruct (lookup_lt_is_Some_2 mutations i Hlm) as [m Hmi'].
        destruct (lookup_lt_is_Some_2 keys i Hlk) as [k Hki].
        pose proof (zip3_lookup _ _ _ _ _ _ _ Hmi' Hki Hi) as Hz.
        rewrite <- (take_drop_middle _ _ _ Hz).
        rewrite zip3_take.
        assert (Hk : zip3 (take i mutations) (take i keys) (take i futs)
                     = zip3 (take i mutations) keys (take i futs)).
        { clear -Hlk. revert mutations keys futs Hlk.
          induction i as [|i IH]; intros [|a la] [|b lb] [|c lc] Hlk; simpl in *;
            try done; try lia.
          rewrite IH; [done|lia]. }
        rewrite Hk.
        eexists. split.
        + eapply for_raises_at; [exact H1|].
          unfold bind at 1. unfold modify. unfold set_result.
          rewrite resolve_not_pending; [reflexivity|].
          unfold pending, future_state. wsimpl.
          change (futures w1 !! g) with (future_state g w1). by rewrite Hf1.
        + cbn [snd]. unfold future_state. wsimpl.
          change (futures w1 !! marker) with (future_state marker w1). by apply Hf1. }
    destruct Hraise as (w2 & H2 & Hm2).
    unfold after, eval, exec, allocate_callback, bind. rewrite H2. cbn [fst snd].
    split; [done|]. unfold pending. by rewrite Hm2.
Qed.

Lemma allocation_round_wakes_commit_witness :
  let options := [("transaction", sample_txn)] in
  let w := exec (run ndb.put (sample_entity 0) options; run fire_idle; ndb.commit sample_txn)
             (empty_world PyNone) in
  let late := exec (run ndb.put (sample_entity 1) options; run ndb.commit sample_txn;
                    run ndb.put (sample_entity 0) options; run fire_idle;
                    tx_commit_callback 0 2 (RpcExc (RpcFailure 13)))
                (empty_world PyNone) in
  let allocated := RpcOk (AllocateIdsResult [sample_key 9]) in
  (waiters w = [(1, KCommitLoop 0 0 2)] ∧
   ∃ w', allocate_callback (RpcExc (RpcFailure 14)) [0] [0] 1 w = (Ok tt, w') ∧
         done 1 w' = true ∧
         rpc_log w' = [AllocateIdsRequest [sample_key 0];
                       CommitRequest TRANSACTIONAL [Upsert (sample_entity 0)] sample_txn]) ∧
  (future_state 3 late = Some (Failed (RpcFailure 13)) ∧
   eval (allocate_callback allocated [1] [3] 4) late = Raise RuntimeError ∧
   pending 4 (exec (allocate_callback allocated [1] [3] 4) late)).
Proof.
  intros options w late allocated. split.
  - split; [vm_compute; reflexivity|].
    destruct (allocation_round_wakes_commit (RpcExc (RpcFailure 14)) [0] [0] 1 w)
      as [Hok _].
    + apply NoDup_singleton.
    + vm_compute. reflexivity.
    + intros H. apply list_elem_of_singleton in H. discriminate.
    + left. by eexists.
    + destruct Hok as (w0 & H0 & Hdone & Hwake).
      { constructor; [|constructor]. split; [vm_compute; reflexivity|].
        unfold unawaited. vm_compute. repeat constructor. discriminate. }
      specialize (Hwake 0 (mkTxBatch [("transaction", sample_txn)] [0] [0] sample_txn [1] [] [])
                    0 2).
      eexists. split; [|split].
      * rewrite Hwake; [|vm_compute; reflexivity..].
        apply (f_equal snd) in H0. cbn [snd] in H0. rewrite <- H0.
        vm_compute. reflexivity.
      * vm_compute. reflexivity.
      * vm_compute. reflexivity.
  - split; [vm_compute; reflexivity|].
    destruct (allocation_round_wakes_commit allocated [1] [3] 4 late) as [_ Hraise].
    + apply NoDup_singleton.
    + vm_compute. reflexivity.
    + intros H. apply list_elem_of_singleton in H. discriminate.
    + right. by eexists.
    + apply (Hraise 0 3).
      * reflexivity.
      * vm_compute. discriminate.
      * constructor.
      * intros keys [= <-]. simpl. lia.
Defined.

(** *** Options that are refused *)

(** X12: an option that [_check_unsupported_options] refuses makes [lookup]
    raise before it touches anything, and makes a non-transactional [put] or
    [delete] that would open a batch raise while the batch is built: no
    batch is stored or registered, no idle callback is scheduled and no
    future is created. *)
Theorem unsupported_option_opens_nothing
    (options : list (string * PyVal)) (e : Exn) (w : World) :
  _check_unsupported_options options = Raise e →
  (∀ key, ndb.lookup key options w = (Raise e, w)) ∧
  (truthy (_get_transaction options w) = false →
   registry NonTxCommitCls w !! sorted_items options = None →
   ∀ entity_pb key_pb,
     let w' := exec (ndb.put entity_pb options) w in
     ndb.put entity_pb options w = (Raise e, w') ∧
     ndb.delete key_pb options w = (Raise e, w') ∧
     futures w' = futures w ∧ nontx_batches w' = nontx_batches w ∧
     idlers w' = idlers w ∧ rpc_log w' = rpc_log w ∧
     ∀ k, registry NonTxCommitCls w' !! k = registry NonTxCommitCls w !! k).
Proof.
  intros Hc. split.
  - intros key. unfold ndb.lookup, bind, lift. by rewrite Hc.
  - intros Ht Hr entity_pb key_pb w'.
    assert (∀ c : nat → M nat,
              (do batch <- _get_batch NonTxCommitCls options; c batch) w =
              (Raise e, if ctx_batches w !! NonTxCommitCls is None
                        then upd_ctx_batches (λ m, <[NonTxCommitCls := ∅]> m) w else w))
      as Hraise.
    { intros c. unfold bind. by rewrite (get_batch_nontx_unsupported _ _ _ Hr Hc). }
    assert (ndb.put entity_pb options w =
              (Raise e, if ctx_batches w !! NonTxCommitCls is None
                        then upd_ctx_batches (λ m, <[NonTxCommitCls := ∅]> m) w else w))
      as Hput.
    { unfold ndb.put. unfold bind at 1. unfold gets. rewrite Ht. apply Hraise. }
    assert (ndb.delete key_pb options w =
              (Raise e, if ctx_batches w !! NonTxCommitCls is None
                        then upd_ctx_batches (λ m, <[NonTxCommitCls := ∅]> m) w else w))
      as Hdel.
    { unfold ndb.delete. unfold bind at 1. unfold gets. rewrite Ht. apply Hraise. }
    unfold w', exec. rewrite Hput, Hdel. cbn [snd]. split; [done|]. split; [done|].
    destruct (ctx_batches w !! NonTxCommitCls) as [m|] eqn:E; [done|].
    repeat split; try done.
    intros k. unfold registry. wsimpl. rewrite lookup_insert_eq, E. done.
Qed.

Lemma unsupported_option_opens_nothing_witness :
  let options := [("read_policy", PyInt 1); ("deadline", PyInt 5)] in
  let e := NotImplementedError NotYetImplemented "deadline" in
  ndb.lookup (sample_key 1) options (empty_world PyNone) = (Raise e, empty_world PyNone) ∧
  eval (ndb.put (sample_entity 1) options) (empty_world PyNone) = Raise e ∧
  idlers (exec (ndb.put (sample_entity 1) options) (empty_world PyNone)) = [].
Proof.
  intros options e.
  destruct (unsupported_option_opens_nothing options e (empty_world PyNone) eq_refl)
    as [Hlookup Hput].
  split; [apply Hlookup|].
  destruct (Hput eq_refl eq_refl (sample_entity 1) (sample_key 1))
    as (H1 & _ & _ & _ & H2 & _).
  split; [|exact H2]. unfold eval. by rewrite H1.
Defined.

(** *** The registries and the stores of batches *)

Lemma world_wf_reads (w w' : World) :
  lookup_batches w' = lookup_batches w → nontx_batches w' = nontx_batches w →
  tx_batches w' = tx_batches w → ctx_batches w' = ctx_batches w →
  ctx_commit_batches w' = ctx_commit_batches w →
  world_wf w → world_wf w'.
Proof.
  intros H1 H2 H3 H4 H5.
  unfold world_wf, registry_wf, registry, store_size, commit_batches_own, aligned.
  by rewrite H1, H2, H3, H4, H5.
Qed.

Lemma keeps_wf_quiet {A} (c : M A) :
  (∀ w, lookup_batches (snd (c w)) = lookup_batches w ∧
        nontx_batches (snd (c w)) = nontx_batches w ∧
        tx_batches (snd (c w)) = tx_batches w ∧
        ctx_batches (snd (c w)) = ctx_batches w ∧
        ctx_commit_batches (snd (c w)) = ctx_commit_batches w) →
  keeps world_wf c (λ _, True).
Proof.
  intros H w Hw. split; [|done]. destruct (H w) as (H1 & H2 & H3 & H4 & H5).
  revert Hw. by apply world_wf_reads.
Qed.

Lemma world_wf_empty (t : PyVal) : world_wf (empty_world t).
Proof.
  split; [by apply registry_wf_empty|]. split; [by apply registry_wf_empty|].
  split; [|by split; constructor].
  intros t' b. cbn. by rewrite lookup_empty.
Qed.

Lemma world_wf_alter_tx (b : nat) (g : TxBatch → TxBatch) (w : World) :
  tx_update_ok g → world_wf w → world_wf (upd_tx_batches (alter g b) w).
Proof.
  intros Hg (H1 & H2 & H3 & H4 & H5). split; [done|]. split; [done|]. split.
  - intros t b' Ht. destruct (H3 t b' Ht) as (batch & Hb & Hbt & Hbo). wsimpl.
    destruct (decide (b' = b)) as [->|Hne].
    + exists (g batch). rewrite list_lookup_alter_eq, Hb.
      destruct (Hg batch) as (-> & -> & _). done.
    + exists batch. by rewrite list_lookup_alter_ne.
  - split; [done|]. wsimpl. apply Forall_alter; [done|].
    intros x _. apply Hg.
Qed.

Lemma world_wf_alter_nontx (b : nat) (g : NonTxBatch → NonTxBatch) (w : World) :
  (∀ x, nontx_aligned x → nontx_aligned (g x)) →
  world_wf w → world_wf (upd_nontx_batches (alter g b) w).
Proof.
  intros Hg (H1 & [H2 H2'] & H3 & H4 & H5). split; [done|]. split.
  - split; [|done]. intros k b' Hk. unfold store_size. wsimpl. rewrite length_alter.
    by apply (H2 k).
  - split; [done|]. split; [|done]. wsimpl. apply Forall_alter; [done|]. intros x _. apply Hg.
Qed.

Lemma world_wf_alter_lookup (b : nat) (g : LookupBatch → LookupBatch) (w : World) :
  world_wf w → world_wf (upd_lookup_batches (alter g b) w).
Proof.
  intros ([H1 H1'] & H2 & H3 & H4). split; [|done].
  split; [|done]. intros k b' Hk. unfold store_size. wsimpl. rewrite length_alter.
  by apply (H1 k).
Qed.

Lemma registry_wf_other (cls cls' : BatchCls) (m : gmap OptionsKey nat) (w : World) :
  cls ≠ cls' → registry_wf cls' w →
  registry_wf cls' (upd_ctx_batches (λ c, <[cls := m]> c) w).
Proof.
  intros Hne H. unfold registry_wf. rewrite registry_after_insert_ne; [|done].
  by destruct cls'.
Qed.

Lemma registry_wf_delete (cls : BatchCls) (k : OptionsKey) (w : World) :
  registry_wf cls w →
  registry_wf cls (upd_ctx_batches (λ c, <[cls := delete k (registry cls w)]> c) w).
Proof.
  intros [H1 H2]. unfold registry_wf. rewrite registry_after_insert.
  assert (store_size cls (upd_ctx_batches (λ c, <[cls := delete k (registry cls w)]> c) w)
          = store_size cls w) as -> by (by destruct cls).
  split.
  - intros k' b Hk. apply lookup_delete_Some in Hk as [_ Hk]. by apply (H1 k').
  - intros k1 k2 b Hk1 Hk2. apply lookup_delete_Some in Hk1 as [_ Hk1].
    apply lookup_delete_Some in Hk2 as [_ Hk2]. by apply (H2 k1 k2 b).
Qed.

Lemma registry_wf_insert_fresh (m : gmap OptionsKey nat) (k : OptionsKey) (n n' : nat) :
  (∀ k' b, m !! k' = Some b → b < n) → n < n' →
  (∀ k1 k2 b, m !! k1 = Some b → m !! k2 = Some b → k1 = k2) →
  (∀ k' b, <[k := n]> m !! k' = Some b → b < n') ∧
  (∀ k1 k2 b, <[k := n]> m !! k1 = Some b → <[k := n]> m !! k2 = Some b → k1 = k2).
Proof.
  intros Hlt Hn Hinj. split.
  - intros k' b Hk. apply lookup_insert_Some in Hk as [[_ <-]|[_ Hk]]; [done|].
    specialize (Hlt _ _ Hk). lia.
  - intros k1 k2 b Hk1 Hk2.
    apply lookup_insert_Some in Hk1 as [[<- <-]|[Hne1 Hk1]];
      apply lookup_insert_Some in Hk2 as [[<- Hb]|[Hne2 Hk2]]; try done.
    + specialize (Hlt _ _ Hk2). lia.
    + subst b. specialize (Hlt _ _ Hk1). lia.
    + by apply (Hinj k1 k2 b).
Qed.

Lemma world_wf_empty_registry (cls : BatchCls) (w : World) :
  ctx_batches w !! cls = None →
  world_wf w → world_wf (upd_ctx_batches (λ m, <[cls := ∅]> m) w).
Proof.
  intros E (H1 & H2 & H3 & H4).
  assert (∀ cls', registry cls' (upd_ctx_batches (λ m, <[cls := ∅]> m) w) = registry cls' w)
    as Hreg.
  { intros cls'. unfold registry. wsimpl. destruct (decide (cls = cls')) as [<-|Hne].
    - by rewrite lookup_insert_eq, E.
    - by rewrite lookup_insert_ne. }
  split; [|split; [|done]]; unfold registry_wf; by rewrite Hreg.
Qed.

Lemma wf_get_batch (cls : BatchCls) (options : list (string * PyVal)) :
  keeps world_wf (_get_batch cls options) (λ _, True).
Proof.
  intros w Hw. split; [|done].
  destruct (registry cls w !! sorted_items options) as [b|] eqn:E.
  { by rewrite (get_batch_existing _ _ _ _ E). }
  destruct Hw as ([L1 L2] & [N1 N2] & H3 & [A1 A2]).
  destruct cls.
  - rewrite (get_batch_new_lookup _ _ E). cbn [snd].
    split; [|split; [|done]].
    + unfold registry_wf. unfold upd_idlers. wsimpl.
      change (registry LookupCls ?w') with (default ∅ (ctx_batches w' !! LookupCls)).
      unfold store_size. wsimpl. rewrite lookup_insert_eq. cbn [from_option id].
      rewrite length_app. simpl.
      apply (registry_wf_insert_fresh _ _ (length (lookup_batches w))); [done|lia|done].
    + unfold registry_wf, registry, store_size. wsimpl.
      rewrite lookup_insert_ne; [|done]. done.
  - destruct (_check_unsupported_options options) as [[]|e] eqn:Hc.
    + rewrite (get_batch_new_nontx _ _ E Hc). cbn [snd].
      split; [|split; [|split; [done|]]].
      * unfold registry_wf, registry, store_size. wsimpl.
        rewrite lookup_insert_ne; [|done]. done.
      * unfold registry_wf.
        change (registry NonTxCommitCls ?w') with (default ∅ (ctx_batches w' !! NonTxCommitCls)).
        unfold store_size. wsimpl. rewrite lookup_insert_eq. cbn [from_option id].
        rewrite length_app. simpl.
        apply (registry_wf_insert_fresh _ _ (length (nontx_batches w))); [done|lia|done].
      * split; [|done]. wsimpl. apply Forall_app. split; [done|]. by repeat constructor.
    + rewrite (get_batch_nontx_unsupported _ _ _ E Hc). cbn [snd].
      destruct (ctx_batches w !! NonTxCommitCls) eqn:E'; [done|].
      by apply world_wf_empty_registry.
Qed.

Lemma wf_get_commit_batch (t : PyVal) (options : list (string * PyVal)) :
  keeps world_wf (_get_commit_batch t options) (λ _, True).
Proof.
  intros w Hw. split; [|done].
  destruct (dict_pop "transaction" options) as [|[k v] rest] eqn:Hp.
  2:{ unfold _get_commit_batch. by rewrite Hp. }
  destruct (ctx_commit_batches w !! t) as [b|] eqn:E.
  { by rewrite (get_commit_batch_existing _ _ _ b). }
  rewrite get_commit_batch_new; [|done..]. cbn [snd].
  destruct Hw as (H1 & H2 & H3 & [A1 A2]). split; [done|]. split; [done|]. split.
  - intros t' b Ht'. wsimpl. apply lookup_insert_Some in Ht' as [[<- <-]|[Hne Ht']].
    + eexists. by rewrite lookup_snoc_length.
    + destruct (H3 t' b Ht') as (batch & Hb & Hbt). exists batch.
      by rewrite (lookup_app_l_Some _ _ _ _ Hb).
  - split; [done|]. wsimpl. apply Forall_app. split; [done|]. by repeat constructor.
Qed.

Lemma wf_registry_pop (cls : BatchCls) (k : OptionsKey) :
  keeps world_wf
    (modify (upd_ctx_batches (λ m, <[cls := delete k (default ∅ (m !! cls))]> m))) (λ _, True).
Proof.
  apply keeps_modify. intros w (H1 & H2 & H3 & H4).
  change (default ∅ (ctx_batches w !! cls)) with (registry cls w).
  destruct cls.
  - split; [by apply registry_wf_delete|]. split; [by apply registry_wf_other|]. done.
  - split; [by apply registry_wf_other|]. split; [by apply registry_wf_delete|]. done.
Qed.

Lemma wf_set_todo (b : nat) (todo : list (KeyBytes * list nat)) :
  keeps world_wf (set_todo b todo) (λ _, True).
Proof. apply keeps_modify. intros w. apply world_wf_alter_lookup. Qed.

Lemma wf_upd_tx_batch (b : nat) (g : TxBatch → TxBatch) :
  tx_update_ok g → keeps world_wf (upd_tx_batch b g) (λ _, True).
Proof. intros Hg. apply keeps_modify. intros w. by apply world_wf_alter_tx. Qed.

Lemma tx_update_ok_clear_incomplete : tx_update_ok clear_incomplete.
Proof. intros x. split; [done|]. split; [done|]. intros [H1 H2]. by split. Qed.

Lemma tx_update_ok_append_allocating_ids (f : nat) : tx_update_ok (append_allocating_ids f).
Proof. intros x. split; [done|]. split; [done|]. intros [H1 H2]. by split. Qed.

Lemma tx_update_ok_put (f m : nat) : tx_update_ok (append_mutation m ∘ append_future f).
Proof.
  intros x. split; [done|]. split; [done|]. intros [H1 H2]. split; [|done].
  cbn. rewrite !length_app. simpl. lia.
Qed.

Lemma tx_update_ok_delete (f m : nat) : tx_update_ok (append_future f ∘ append_mutation m).
Proof.
  intros x. split; [done|]. split; [done|]. intros [H1 H2]. split; [|done].
  cbn. rewrite !length_app. simpl. lia.
Qed.

Lemma tx_update_ok_incomplete (f m : nat) :
  tx_update_ok (append_incomplete_future f ∘ append_incomplete_mutation m).
Proof.
  intros x. split; [done|]. split; [done|]. intros [H1 H2]. split; [done|].
  cbn. rewrite !length_app. simpl. lia.
Qed.

Lemma wf_two_tx_updates {A} (b : nat) (g1 g2 : TxBatch → TxBatch) (k : M A) :
  tx_update_ok (g2 ∘ g1) → keeps world_wf k (λ _, True) →
  keeps world_wf (run upd_tx_batch b g1; run upd_tx_batch b g2; k) (λ _, True).
Proof.
  intros Hg Hk w Hw. unfold bind, upd_tx_batch, modify. apply Hk.
  apply (world_wf_reads (upd_tx_batches (alter (g2 ∘ g1) b) w)); try done.
  - wsimpl. apply list_alter_alter_eq.
  - by apply world_wf_alter_tx.
Qed.

Lemma wf_NonTxBatch_put (b : nat) (e : Entity) :
  keeps world_wf (NonTxBatch_put b e) (λ _, True).
Proof.
  intros w Hw. split; [|done]. rewrite NonTxBatch_put_eq. cbn [snd].
  match goal with |- world_wf (upd_nontx_batches (alter ?g2 b)
                       (upd_nontx_batches (alter ?g1 b) ?w0)) =>
    apply (world_wf_reads (upd_nontx_batches (alter (g2 ∘ g1) b) w)) end; try done.
  - wsimpl. apply list_alter_alter_eq.
  - apply world_wf_alter_nontx; [|done]. intros x Hx. unfold nontx_aligned in *. cbn.
    rewrite !length_app. simpl. lia.
Qed.

Lemma wf_NonTxBatch_delete (b : nat) (k : Key_pb) :
  keeps world_wf (NonTxBatch_delete b k) (λ _, True).
Proof.
  intros w Hw. split; [|done]. rewrite NonTxBatch_delete_eq. cbn [snd].
  match goal with |- world_wf (upd_nontx_batches (alter ?g2 b)
                       (upd_nontx_batches (alter ?g1 b) ?w0)) =>
    apply (world_wf_reads (upd_nontx_batches (alter (g2 ∘ g1) b) w)) end; try done.
  - wsimpl. apply list_alter_alter_eq.
  - apply world_wf_alter_nontx; [|done]. intros x Hx. unfold nontx_aligned in *. cbn.
    rewrite !length_app. simpl. lia.
Qed.

Create HintDb world_wf discriminated.

Ltac wf_quiet :=
  apply keeps_wf_quiet; intros ?;
  first [ by repeat split | by (repeat case_match; repeat split) ].

Lemma wf_new_future : keeps world_wf new_future (λ _, True).
Proof. wf_quiet. Qed.
Lemma wf_settle (f : nat) (s : FutState) : keeps world_wf (settle f s) (λ _, True).
Proof. apply keeps_wf_quiet. intros w. unfold settle. by repeat case_match. Qed.
Lemma wf_add_idle (cb : IdleCb) : keeps world_wf (add_idle cb) (λ _, True).
Proof. wf_quiet. Qed.
Lemma wf_queue_rpc (rpc : nat) (cb : RpcCb) : keeps world_wf (queue_rpc rpc cb) (λ _, True).
Proof. wf_quiet. Qed.
Lemma wf_remote_call (request : RpcRequest) : keeps world_wf (remote_call request) (λ _, True).
Proof. wf_quiet. Qed.
Lemma wf_await (f : nat) (k : Cont) : keeps world_wf (await f k) (λ _, True).
Proof. wf_quiet. Qed.
Lemma wf_new_mutation (m : Mutation) : keeps world_wf (new_mutation m) (λ _, True).
Proof. wf_quiet. Qed.
Lemma wf_get_tx_batch (b : nat) : keeps world_wf (get_tx_batch b) (λ _, True).
Proof. apply keeps_wf_quiet. intros w. unfold get_tx_batch. by case_match. Qed.
Lemma wf_get_lookup_batch (b : nat) : keeps world_wf (get_lookup_batch b) (λ _, True).
Proof. apply keeps_wf_quiet. intros w. unfold get_lookup_batch. by case_match. Qed.
Lemma wf_get_nontx_batch (b : nat) : keeps world_wf (get_nontx_batch b) (λ _, True).
Proof. apply keeps_wf_quiet. intros w. unfold get_nontx_batch. by case_match. Qed.
Lemma wf_clear_incomplete (b : nat) : keeps world_wf (upd_tx_batch b clear_incomplete) (λ _, True).
Proof. apply wf_upd_tx_batch, tx_update_ok_clear_incomplete. Qed.
Lemma wf_append_allocating_ids (b f : nat) :
  keeps world_wf (upd_tx_batch b (append_allocating_ids f)) (λ _, True).
Proof. apply wf_upd_tx_batch, tx_update_ok_append_allocating_ids. Qed.

#[local] Hint Resolve wf_new_future wf_settle wf_add_idle wf_queue_rpc wf_remote_call
  wf_await wf_new_mutation wf_get_tx_batch wf_get_lookup_batch wf_get_nontx_batch
  wf_clear_incomplete wf_append_allocating_ids wf_set_todo wf_registry_pop
  wf_get_batch wf_get_commit_batch wf_NonTxBatch_put wf_NonTxBatch_delete : world_wf.

Ltac wf_step :=
  first
    [ solve [auto with world_wf nocore]
    | eapply keeps_bind; [|intros ? _]
    | apply keeps_ret
    | apply keeps_raise
    | apply keeps_gets
    | apply keeps_lift
    | apply keeps_for; intros ?
    | progress cbv zeta
    | match goal with
      | |- keeps _ (modify _) _ => wf_quiet
      | |- keeps _ (match ?x with _ => _ end) _ => destruct x
      | |- keeps _ (let (_, _) := ?x in _) _ => destruct x
      end ].

Ltac wf_auto := repeat wf_step.

Lemma wf_commit_loop (b i tf : nat) : keeps world_wf (commit_loop b i tf) (λ _, True).
Proof. unfold commit_loop, commit_finish, _datastore_commit. wf_auto. Qed.
#[local] Hint Resolve wf_commit_loop : world_wf.

Lemma wf_resolve (f : nat) (s : FutState) : keeps world_wf (resolve f s) (λ _, True).
Proof. unfold resolve, resume. wf_auto. Qed.
#[local] Hint Resolve wf_resolve : world_wf.

Lemma wf_set_result (f : nat) (v : FutVal) : keeps world_wf (set_result f v) (λ _, True).
Proof. apply wf_resolve. Qed.
Lemma wf_set_exception (f : nat) (e : Exn) : keeps world_wf (set_exception f e) (λ _, True).
Proof. apply wf_resolve. Qed.
#[local] Hint Resolve wf_set_result wf_set_exception : world_wf.

Lemma TxBatch_put_after_append (b : nat) (e : Entity) (w : World) :
  let future := length (futures w) in
  let mutation := length (mutation_objs w) in
  TxBatch_put b e w =
    (run (if negb (_complete (ent_key e)) then
            do batch <- get_tx_batch b;
            run (if tb_incomplete_mutations batch is [] then add_idle (IdleAllocate b)
                 else ret tt);
            run upd_tx_batch b (append_incomplete_mutation mutation);
            upd_tx_batch b (append_incomplete_future future)
          else set_result future RNone);
     ret future) (put_appended b e w).
Proof. reflexivity. Qed.

Lemma wf_TxBatch_put (b : nat) (e : Entity) : keeps world_wf (TxBatch_put b e) (λ _, True).
Proof.
  intros w Hw. rewrite TxBatch_put_after_append.
  assert (world_wf (put_appended b e w)) as Hw1.
  { apply (world_wf_reads (upd_tx_batches
             (alter (append_mutation (length (mutation_objs w)) ∘
                     append_future (length (futures w))) b) w)); try done.
    - unfold put_appended. wsimpl. apply list_alter_alter_eq.
    - apply world_wf_alter_tx; [apply tx_update_ok_put | done]. }
  revert Hw1. generalize (put_appended b e w).
  generalize (length (futures w)) (length (mutation_objs w)). clear w Hw.
  intros future mutation.
  change (keeps world_wf
    (run (if negb (_complete (ent_key e)) then
            do batch <- get_tx_batch b;
            run (if tb_incomplete_mutations batch is [] then add_idle (IdleAllocate b)
                 else ret tt);
            run upd_tx_batch b (append_incomplete_mutation mutation);
            upd_tx_batch b (append_incomplete_future future)
          else set_result future RNone);
     ret future) (λ _, True)).
  eapply keeps_bind; [|intros ? _; apply keeps_ret].
  destruct (negb (_complete (ent_key e))); [|apply wf_set_result].
  eapply keeps_bind; [apply wf_get_tx_batch | intros batch _].
  eapply keeps_bind; [destruct (tb_incomplete_mutations batch); wf_auto | intros _ _].
  intros w' Hw'. unfold bind, upd_tx_batch, modify. cbn [fst snd]. split; [|done].
  apply (world_wf_reads (upd_tx_batches
           (alter (append_incomplete_future future ∘ append_incomplete_mutation mutation) b)
           w')); try done.
  - wsimpl. apply list_alter_alter_eq.
  - apply world_wf_alter_tx; [apply tx_update_ok_incomplete | done].
Qed.

Lemma wf_TxBatch_delete (b : nat) (k : Key_pb) : keeps world_wf (TxBatch_delete b k) (λ _, True).
Proof.
  unfold TxBatch_delete.
  eapply keeps_bind; [apply wf_new_future | intros future _].
  eapply keeps_bind; [apply wf_new_mutation | intros mutation _].
  apply wf_two_tx_updates; [apply tx_update_ok_delete | apply keeps_ret].
Qed.

#[local] Hint Resolve wf_TxBatch_put wf_TxBatch_delete : world_wf.

Lemma wf_step_all (o : Op) : keeps world_wf (step o) (λ _, True).
Proof.
  destruct o as [key options|e options|key options|t|cb|cb rpc]; cbn [step].
  - unfold ndb.lookup, LookupBatch_add. wf_auto.
  - unfold ndb.put. wf_auto.
  - unfold ndb.delete. wf_auto.
  - unfold ndb.commit, TxBatch_commit. wf_auto.
  - destruct cb as [cls k|b]; cbn [run_idle_cb].
    + unfold idle, LookupBatch_idle_callback, NonTxBatch_idle_callback, _get_read_options,
        _datastore_lookup, _datastore_commit. wf_auto.
    + unfold TxBatch_idle_callback, _datastore_allocate_ids. wf_auto.
  - destruct cb as [b|b|b ms fs a|b f]; cbn [run_rpc_cb].
    + unfold lookup_callback, resubmit_deferred, resolve_partition. wf_auto.
    + unfold nontx_commit_callback, _process_commit. wf_auto.
    + unfold allocate_callback, allocate_ids_callback. wf_auto.
    + unfold tx_commit_callback, _process_commit. wf_auto.
Qed.

Lemma world_wf_run_ops (ops : list Op) (w : World) : world_wf w → world_wf (run_ops ops w).
Proof.
  revert w. induction ops as [|o ops IH]; intros w Hw; [done|].
  simpl. apply IH. by apply wf_step_all.
Qed.

(** X13: in every state that the system reaches from an empty context,
    whatever was called, fired or completed on the way, each batch that is
    open in the registry of [_get_batch] is an object of its store, and it
    is open under one option key only: two different sets of options never
    share a batch. *)
Theorem registry_stays_well_formed (ops : list Op) (transaction : PyVal) (cls : BatchCls) :
  let w := run_ops ops (empty_world transaction) in
  (∀ k b, registry cls w !! k = Some b → b < store_size cls w) ∧
  (∀ k k' b, registry cls w !! k = Some b → registry cls w !! k' = Some b → k = k').
Proof.
  intros w.
  destruct (world_wf_run_ops ops _ (world_wf_empty transaction)) as (H1 & H2 & _).
  by destruct cls.
Qed.

(** X14: in every state that the system reaches from an empty context, the
    batch that [_get_commit_batch] keeps for a transaction exists and
    carries that transaction, which is the one its Commit request will
    name; so two transactions never share a batch. *)
Theorem commit_batch_belongs_to_transaction (ops : list Op) (transaction : PyVal) :
  let w := run_ops ops (empty_world transaction) in
  (∀ t b, ctx_commit_batches w !! t = Some b →
     ∃ batch, tx_batches w !! b = Some batch ∧ tb_transaction batch = t ∧
              ∀ tf w', rpc_log (commit_sent b batch tf w') =
                         rpc_log w' ++ [CommitRequest
                           (if is_none t then NON_TRANSACTIONAL else TRANSACTIONAL)
                           (deref_mutations (tb_mutations batch) w') t]) ∧
  (∀ t t' b, ctx_commit_batches w !! t = Some b → ctx_commit_batches w !! t' = Some b →
     t = t').
Proof.
  intros w.
  destruct (world_wf_run_ops ops _ (world_wf_empty transaction)) as (_ & _ & Hown & _).
  fold w in Hown. split.
  - intros t b Ht. destruct (Hown t b Ht) as (batch & Hb & <- & _).
    exists batch. by repeat split.
  - intros t t' b Ht Ht'.
    destruct (Hown t b Ht) as (batch & Hb & <- & _).
    destruct (Hown t' b Ht') as (batch' & Hb' & <- & _). congruence.
Qed.

(** X15: in every state that the system reaches from an empty context, each
    commit batch, transactional or not, holds as many futures as mutations,
    and a transactional batch holds as many pending-incomplete futures as
    pending-incomplete mutations: the i-th future is always the one of the
    i-th mutation, which is what [_process_commit] and
    [allocate_ids_callback] rely on when they pair them. *)
Theorem mutations_and_futures_stay_paired (ops : list Op) (transaction : PyVal) :
  let w := run_ops ops (empty_world transaction) in
  (∀ b batch, nontx_batches w !! b = Some batch →
     length (nb_mutations batch) = length (nb_futures batch)) ∧
  (∀ b batch, tx_batches w !! b = Some batch →
     length (tb_mutations batch) = length (tb_futures batch) ∧
     length (tb_incomplete_mutations batch) = length (tb_incomplete_futures batch)).
Proof.
  intros w.
  destruct (world_wf_run_ops ops _ (world_wf_empty transaction)) as (_ & _ & _ & [H1 H2]).
  fold w in H1, H2. split.
  - intros b batch Hb. by apply (proj1 (Forall_lookup _ _) H1 b).
  - intros b batch Hb. by apply (proj1 (Forall_lookup _ _) H2 b).
Qed.

(** *** Different options, different batches *)

Lemma sorted_items_same_items (options options' : list (string * PyVal)) :
  sorted_items options = sorted_items options' → options ≡ₚ options'.
Proof.
  intros H. by rewrite <- (sorted_items_perm options), H, sorted_items_perm.
Qed.

(** X16: calls with different options are placed in different batches: when
    two option dictionaries do not hold the same items, the batches that
    [_get_batch] hands out for them, one after the other, are different
    objects. *)
Theorem different_options_different_batches
    (cls : BatchCls) (options options' : list (string * PyVal)) (w w1 w2 : World)
    (b b' : nat) :
  world_wf w → ¬ options ≡ₚ options' →
  _get_batch cls options w = (Ok b, w1) →
  _get_batch cls options' w1 = (Ok b', w2) →
  b ≠ b'.
Proof.
  intros Hw Hne H1 H2.
  assert (sorted_items options ≠ sorted_items options') as Hkey
    by (intros H; by apply Hne, sorted_items_same_items).
  pose proof (get_batch_registers _ _ _ _ _ H1) as Hr1.
  assert (world_wf w1) as Hw1.
  { pose proof (proj1 (wf_get_batch cls options w Hw)) as H. by rewrite H1 in H. }
  assert (registry_wf cls w1) as [Hlt Hinj].
  { destruct Hw1 as (L & N & _). by destruct cls. }
  destruct (registry cls w1 !! sorted_items options') as [b''|] eqn:E.
  - rewrite (get_batch_existing _ _ _ _ E) in H2. injection H2 as <- <-.
    intros <-. by apply Hkey, (Hinj _ _ b).
  - specialize (Hlt _ _ Hr1). destruct cls.
    + rewrite (get_batch_new_lookup _ _ E) in H2. injection H2 as <- <-.
      unfold store_size in Hlt. lia.
    + destruct (_check_unsupported_options options') as [[]|e] eqn:Hc.
      * rewrite (get_batch_new_nontx _ _ E Hc) in H2. injection H2 as <- <-.
        unfold store_size in Hlt. lia.
      * by rewrite (get_batch_nontx_unsupported _ _ _ E Hc) in H2.
Qed.

Lemma different_options_different_batches_witness :
  let w1 := exec (_get_batch LookupCls [("read_consistency", PyInt 1)]) (empty_world PyNone) in
  ∃ w2, _get_batch LookupCls [("read_consistency", PyInt 2)] w1 = (Ok 1, w2) ∧ 0 ≠ 1.
Proof.
  intros w1. eexists. split; [vm_compute; reflexivity|].
  apply (different_options_different_batches LookupCls [("read_consistency", PyInt 1)]
           [("read_consistency", PyInt 2)] (empty_world PyNone) w1
           (exec (_get_batch LookupCls [("read_consistency", PyInt 2)]) w1)).
  - apply world_wf_empty.
  - intros H. apply Permutation_singleton_l in H. discriminate.
  - vm_compute. reflexivity.
  - vm_compute. reflexivity.
Defined.

(** *** Incomplete keys of one pass *)

Lemma deref_appended (l l' : list Mutation) (w : World) :
  mutation_objs w = l ++ l' →
  deref_mutations (seq (length l) (length l')) w = l'.
Proof.
  unfold deref_mutations. intros ->. revert l.
  induction l' as [|x l' IH]; intros l; [done|].
  cbn [length seq omap list_omap]. rewrite lookup_app_r, Nat.sub_diag by lia. cbn.
  f_equal. specialize (IH (l ++ [x])). rewrite length_app, Nat.add_1_r, <- app_assoc in IH.
  exact IH.
Qed.

Lemma world_ext (w w' : World) :
  futures w = futures w' → mutation_objs w = mutation_objs w' →
  lookup_batches w = lookup_batches w' → nontx_batches w = nontx_batches w' →
  tx_batches w = tx_batches w' → ctx_transaction w = ctx_transaction w' →
  ctx_batches w = ctx_batches w' → ctx_commit_batches w = ctx_commit_batches w' →
  idlers w = idlers w' → rpc_log w = rpc_log w' → rpc_queue w = rpc_queue w' →
  waiters w = waiters w' → w = w'.
Proof. destruct w, w'. simpl. by intros -> -> -> -> -> -> -> -> -> -> -> ->. Qed.

Lemma put_incomplete_added (options : list (string * PyVal)) (e : Entity) (w : World)
    (b : nat) (batch : TxBatch) :
  truthy (_get_transaction options w) = true →
  dict_pop "transaction" options = [] →
  ctx_commit_batches w !! _get_transaction options w = Some b →
  tx_batches w !! b = Some batch →
  _complete (ent_key e) = false →
  submit options (Upsert e) w =
    (Ok (length (futures w)), incomplete_puts_added b batch [e] w).
Proof.
  intros Ht Hp Hr Hb Hc. cbn [submit]. unfold ndb.put, bind, gets. rewrite Ht.
  rewrite (get_commit_batch_existing _ _ _ b Hp Hr).
  rewrite (TxBatch_put_incomplete _ _ _ _ Hb Hc). f_equal.
  unfold incomplete_puts_added, put_appended.
  apply world_ext; wsimpl; try reflexivity.
  rewrite !list_alter_alter_eq. apply list_eq. intros j.
  destruct (decide (j = b)) as [->|Hne].
  - rewrite list_lookup_alter_eq, Hb, list_lookup_insert_eq by (by eapply lookup_lt_Some).
    reflexivity.
  - by rewrite list_lookup_alter_ne, list_lookup_insert_ne.
Qed.

Lemma puts_incomplete_added (options : list (string * PyVal)) (es : list Entity) (w : World)
    (b : nat) (batch : TxBatch) :
  truthy (_get_transaction options w) = true →
  dict_pop "transaction" options = [] →
  ctx_commit_batches w !! _get_transaction options w = Some b →
  tx_batches w !! b = Some batch →
  Forall (λ e, _complete (ent_key e) = false) es →
  submit_all (map Upsert es) options w =
    (Ok (seq (length (futures w)) (length es)), incomplete_puts_added b batch es w).
Proof.
  intros Ht Hp. revert w batch Ht.
  induction es as [|e es IH]; intros w batch Ht Hr Hb Hall.
  - cbn [map submit_all length seq]. unfold ret. f_equal.
    unfold incomplete_puts_added.
    apply world_ext; wsimpl; cbn [length seq replicate map]; rewrite ?app_nil_r;
      try reflexivity.
    + rewrite list_insert_id; [done|]. rewrite Hb. by destruct batch.
    + destruct (tb_incomplete_mutations batch); by rewrite app_nil_r.
  - apply Forall_cons in Hall as [He Hall].
    cbn [map submit_all]. unfold bind at 1.
    rewrite (put_incomplete_added _ _ _ _ _ Ht Hp Hr Hb He). unfold bind at 1.
    set (w1 := incomplete_puts_added b batch [e] w).
    assert (Hctx : _get_transaction options w1 = _get_transaction options w) by done.
    erewrite IH; [| by rewrite Hctx | by rewrite Hctx | | done].
    2:{ unfold w1, incomplete_puts_added. wsimpl. apply list_lookup_insert_eq.
        by eapply lookup_lt_Some. }
    unfold ret. f_equal.
    + unfold w1, incomplete_puts_added. wsimpl. rewrite length_app. cbn [length seq].
      by rewrite Nat.add_1_r.
    + unfold w1, incomplete_puts_added.
      apply world_ext; wsimpl;
        cbn [tb_options tb_mutations tb_futures tb_transaction tb_allocating_ids
             tb_incomplete_mutations tb_incomplete_futures length seq replicate map];
        rewrite ?length_app; cbn [length]; rewrite ?Nat.add_1_r; try reflexivity.
      * by rewrite <- app_assoc.
      * by rewrite <- app_assoc.
      * by rewrite list_insert_insert_eq, <- !app_assoc.
      * rewrite <- app_assoc. f_equal.
        destruct (tb_incomplete_mutations batch); cbn [app]; by destruct es.
Qed.

(** X17: [put] calls for entities with incomplete keys that reach a
    transactional batch in the same pass, when no round is pending, are
    allocated together: the first call schedules the one idle callback, and
    that callback sends one AllocateIds request with the keys of all of
    them, in call order, appends one marker to [allocating_ids], hands the
    mutations and the futures of the round to its completion callback and
    empties the pending-incomplete lists. *)
Theorem incomplete_puts_one_allocation
    (options : list (string * PyVal)) (es : list Entity) (w : World)
    (b : nat) (batch : TxBatch) :
  truthy (_get_transaction options w) = true →
  dict_pop "transaction" options = [] →
  ctx_commit_batches w !! _get_transaction options w = Some b →
  tx_batches w !! b = Some batch →
  tb_incomplete_mutations batch = [] → tb_incomplete_futures batch = [] →
  Forall (λ e, _complete (ent_key e) = false) es → es ≠ [] →
  let n := length (futures w) in
  let m := length (mutation_objs w) in
  let k := length es in
  ∃ w1 w2,
    submit_all (map Upsert es) options w = (Ok (seq n k), w1) ∧
    idlers w1 = idlers w ++ [IdleAllocate b] ∧
    rpc_log w1 = rpc_log w ∧
    TxBatch_idle_callback b w1 = (Ok tt, w2) ∧
    rpc_log w2 = rpc_log w ++ [AllocateIdsRequest (map ent_key es)] ∧
    rpc_queue w2 = rpc_queue w ++ [(length (rpc_log w), CbAllocate b (seq m k) (seq n k) (n + k))] ∧
    tx_batches w2 !! b =
      Some (mkTxBatch (tb_options batch) (tb_mutations batch ++ seq m k)
              (tb_futures batch ++ seq n k) (tb_transaction batch)
              (tb_allocating_ids batch ++ [n + k]) [] []) ∧
    future_state (n + k) w2 = Some Pending.
Proof.
  intros Ht Hp Hr Hb Him Hif Hall Hes n m k.
  pose proof (puts_incomplete_added _ _ _ _ _ Ht Hp Hr Hb Hall) as Hputs.
  set (w1 := incomplete_puts_added b batch es w) in *.
  set (batch1 := mkTxBatch (tb_options batch) (tb_mutations batch ++ seq m k)
        (tb_futures batch ++ seq n k) (tb_transaction batch) (tb_allocating_ids batch)
        (seq m k) (seq n k)).
  assert (Hb1 : tx_batches w1 !! b = Some batch1).
  { unfold w1, incomplete_puts_added. wsimpl. rewrite Him, Hif. cbn [app].
    apply list_lookup_insert_eq. by eapply lookup_lt_Some. }
  assert (Hne : tb_incomplete_mutations batch1 ≠ []).
  { cbn. unfold k. destruct es; [done|]. discriminate. }
  assert (Hf1 : futures w1 = futures w ++ replicate k Pending) by done.
  assert (Hm1 : mutation_objs w1 = mutation_objs w ++ map Upsert es) by done.
  assert (Hl1 : rpc_log w1 = rpc_log w ∧ rpc_queue w1 = rpc_queue w) by done.
  assert (Hi1 : idlers w1 = idlers w ++ [IdleAllocate b]).
  { unfold w1, incomplete_puts_added. wsimpl. rewrite Him. by destruct es. }
  destruct Hl1 as [Hl1 Hq1].
  exists w1. eexists. split; [exact Hputs|]. split; [exact Hi1|]. split; [exact Hl1|].
  split; [by apply (TxBatch_idle_callback_round b batch1)|].
  clearbody w1. wsimpl. cbn [tb_incomplete_mutations tb_incomplete_futures batch1].
  assert (Hlen : length (futures w1) = n + k).
  { rewrite Hf1, length_app, length_replicate. done. }
  rewrite Hl1, Hq1, Hlen.
  split.
  { do 3 f_equal. unfold m, k. rewrite <- (length_map Upsert es).
    rewrite (deref_appended _ _ _ Hm1). rewrite map_map. done. }
  split; [done|]. split.
  - rewrite !list_lookup_alter_eq, Hb1. done.
  - unfold future_state. wsimpl. rewrite <- Hlen. apply lookup_snoc_length.
Qed.

Lemma incomplete_puts_one_allocation_witness :
  let options := [("transaction", sample_txn)] in
  let w := exec (_get_commit_batch sample_txn options) (empty_world PyNone) in
  let es := [mkEntity (mkKey "" [mkElem "A" 0 ""]) []; mkEntity (mkKey "" [mkElem "B" 0 ""]) []] in
  ∃ w1 w2,
    submit_all (map Upsert es) options w = (Ok [0; 1], w1) ∧
    TxBatch_idle_callback 0 w1 = (Ok tt, w2) ∧
    rpc_log w2 = [AllocateIdsRequest (map ent_key es)].
Proof.
  intros options w es.
  destruct (incomplete_puts_one_allocation options es w 0
              (mkTxBatch [("transaction", sample_txn)] [] [] sample_txn [] [] []))
    as (w1 & w2 & H1 & _ & _ & H2 & H3 & _);
    try (vm_compute; reflexivity).
  - repeat constructor.
  - discriminate.
  - by exists w1, w2.
Defined.

(** *** From allocation to commit *)





